(** * Threshold attestation pipeline of zkvip (front-end/src/lib/vlayer.ts)

    A shallow embedding of the VLayer module: the WebProof record and its
    verifier, the dot-path JSON accessors, the account selection, the
    BRL -> WLD conversion and the orchestrating [vlayerGenerateProof].

    JavaScript numbers are IEEE 754 binary64 values; they are embedded as
    Rocq's primitive [float], whose operations are the same binary64
    operations.  Thrown values, progress callbacks and calls to the proof
    capability are made explicit: a computation returns the list of events it
    caused together with either the value it returned or the value it threw.

    The development goes on to the rest of the front end: the store of
    joined and available groups over [localStorage] (front-end/src/lib/groups.ts),
    the handlers of the groups page that drive it, and the wrappers of the
    XMTP SDK, each with the state it keeps made explicit. *)

From Stdlib Require Import ZArith List String Ascii Floats Lia Bool.
From Stdlib Require Uint63 QArith Qround.
Import ListNotations.

Set Warnings "-inexact-float,-register-all".

(* ------------------------------------------------------------------ *)
(** * JavaScript numbers *)

Module JSNum.

Open Scope float_scope.

(** [a > b] of the source; [PrimFloat] has [<?] only, and [a > b] is
    [b < a] for every pair of numbers, NaN included. *)
Definition gtb (a b : float) : bool := b <? a.

Definition isNaN (x : float) : bool := is_nan x.

Definition signedMantissa (s : bool) (m : positive) : Z :=
  if s then Zneg m else Zpos m.

(** The binary64 value of an integer of magnitude below 2^63 (exact up to
    2^53, which is all [Math_floor] asks of it). *)
Definition Z2float (n : Z) : float :=
  match n with
  | Z0 => 0
  | Zpos _ => of_uint63 (Uint63.of_Z n)
  | Zneg p => - of_uint63 (Uint63.of_Z (Zpos p))
  end.

(** The integer part, rounded towards minus infinity, of the exact value
    [(-1)^s * m * 2^e] of a finite binary64 number. *)
Definition floorZ (s : bool) (m : positive) (e : Z) : Z :=
  if (e <? 0)%Z then Z.shiftr (signedMantissa s m) (- e)
  else Z.shiftl (signedMantissa s m) e.

(** [Math.floor]: NaN, the infinities and the zeros are returned as they
    are; a finite number with a non-negative exponent is an integer already;
    otherwise the integer part is taken on the exact value. *)
Definition Math_floor (x : float) : float :=
  match Prim2SF x with
  | S754_finite s m e => if (e <? 0)%Z then Z2float (floorZ s m e) else x
  | _ => x
  end.

Definition SFisNaN (x : spec_float) : bool :=
  match x with S754_nan => true | _ => false end.

(** The specification float is a number and carries the sign [sx]. *)
Definition SFsignIs (sx : bool) (x : spec_float) : Prop :=
  match x with
  | S754_zero s | S754_infinity s | S754_finite s _ _ => s = sx
  | S754_nan => False
  end.

End JSNum.

(* ------------------------------------------------------------------ *)
(** * The rounding of binary64, read on integers *)

Module Binary64.

Import JSNum.
Open Scope Z_scope.

(** The number of binary digits of a positive integer. *)
Definition D (p : positive) : Z := Zpos (digits2_pos p).

(** The record that [k] right shifts of the mantissa [m] end on: the
    quotient, and the two bits that place the remainder against one half. *)
Definition shifted (m : Z) (k : Z) : shr_record :=
  let rem := m mod 2 ^ k in
  Build_shr_record (m / 2 ^ k) (2 ^ k <=? 2 * rem)
    (negb (rem =? 0) && negb (2 * rem =? 2 ^ k)).

(** [m / 2^k] rounded to the nearest integer, ties to even. *)
Definition RNE (k m : Z) : Z :=
  let q := m / 2 ^ k in
  let rem := m mod 2 ^ k in
  if (2 ^ k <? 2 * rem) || ((2 ^ k =? 2 * rem) && Z.odd q) then q + 1 else q.

(** The exponent binary64 gives the value [m * 2^e]. *)
Definition cexp (m : positive) (e : Z) : Z := fexp prec emax (D m + e).

(** A finite number, or infinity when the exponent is out of range. *)
Definition finOrInf (s : bool) (M : positive) (E : Z) : spec_float :=
  if E <=? emax - prec then S754_finite s M E else S754_infinity s.

(** What rounding returns for the mantissa [M] at exponent [E]: a carry
    into bit 53 moves to the next exponent. *)
Definition roundResult (s : bool) (M E : Z) : spec_float :=
  match M with
  | Z0 => S754_zero s
  | Zpos p =>
      if M =? 2 ^ prec then finOrInf s (2 ^ 52)%positive (E + 1)
      else finOrInf s p E
  | Zneg _ => S754_nan
  end.

(** The mantissa the rounding of [m * 2^e] ends with. *)
Definition rndM (m : positive) (e : Z) : Z := RNE (cexp m e - e) (Zpos m).

(** [m1 * 2^e1 <= m2 * 2^e2], on integers. *)
Definition vle (m1 : positive) (e1 : Z) (m2 : positive) (e2 : Z) : Prop :=
  Zpos m1 * 2 ^ (e1 - Z.min e1 e2) <= Zpos m2 * 2 ^ (e2 - Z.min e1 e2).

(** Two rounded mantissas, with their exponents, in order. *)
Definition ordered (M1 E1 M2 E2 : Z) : Prop :=
  0 <= M1 <= 2 ^ 53 /\ 0 <= M2 <= 2 ^ 53
  /\ ((E1 = E2 /\ M1 <= M2) \/ (E1 < E2 /\ 2 ^ 52 <= M2)).

(** [a * 2^b] is the integer [N]. *)
Definition represents (a : positive) (b : Z) (N : Z) : Prop :=
  Zpos a * 2 ^ (b - Z.min b 0) = N * 2 ^ (- Z.min b 0).

(** Floor and ceiling of [m * 2^e]. *)
Definition Nfloor (m : positive) (e : Z) : Z :=
  if e <? 0 then Zpos m / 2 ^ (- e) else Zpos m * 2 ^ e.

Definition Nceil (m : positive) (e : Z) : Z :=
  if e <? 0 then - (- Zpos m / 2 ^ (- e)) else Zpos m * 2 ^ e.

(** The specification float of an integer, as [of_uint63] builds it. *)
Definition SFofZ (n : Z) : spec_float :=
  match n with
  | Z0 => S754_zero false
  | Zpos p => binary_round prec emax false p 0
  | Zneg p => SFopp (binary_round prec emax false p 0)
  end.

(** [Math_floor] on the specification floats. *)
Definition SFfloor (x : spec_float) : spec_float :=
  match x with
  | S754_finite s m e => if e <? 0 then SFofZ (floorZ s m e) else x
  | _ => x
  end.

End Binary64.

(* ------------------------------------------------------------------ *)
(** * Amounts without rounding *)

Module Exact.

Import JSNum.
Import QArith Qround.
Open Scope Q_scope.

(** The number a finite binary64 value stands for. *)
Definition exactValue (x : float) : option Q :=
  match Prim2SF x with
  | S754_zero _ => Some 0
  | S754_finite s m e => Some (inject_Z (signedMantissa s m) * 2 ^ e)
  | _ => None
  end.

(** The normalization as the specification states it: the balance times
    the exchange rate times 10^6, on the numbers themselves, and the integer
    part of that product. *)
Definition normalize (balance rate : Q) : Z :=
  Qfloor (balance * rate * 1000000).

End Exact.

(* ------------------------------------------------------------------ *)
(** * Thrown values, events and computations *)

Module Exec.

Open Scope string_scope.

(** What a [throw] carries: an [Error] object with its message, or some
    other value (the [catch] blocks test [error instanceof Error]). *)
Inductive Thrown : Type :=
| ThrownError (message : string)
| ThrownOther.

(** [error instanceof Error ? error.message : dflt] *)
Definition messageOr (dflt : string) (error : Thrown) : string :=
  match error with
  | ThrownError message => message
  | ThrownOther => dflt
  end.

(** A computation over events of type [Event]: the events it caused, in
    order, and its outcome, a thrown value or a returned one. *)
Definition M (Event A : Type) : Type := (list Event * (Thrown + A))%type.

Definition ret {Event A} (a : A) : M Event A := ([], inr a).

Definition throw {Event A} (e : Thrown) : M Event A := ([], inl e).

Definition emit {Event} (ev : Event) : M Event unit := ([ev], inr tt).

Definition bind {Event A B} (m : M Event A) (f : A -> M Event B) : M Event B :=
  match m with
  | (t, inl e) => (t, inl e)
  | (t, inr a) => let (t', r) := f a in ((t ++ t')%list, r)
  end.

(** [try { m } catch (error) { handler error }] *)
Definition tryCatch {Event A} (m : M Event A) (handler : Thrown -> M Event A)
  : M Event A :=
  match m with
  | (t, inl e) => let (t', r) := handler e in ((t ++ t')%list, r)
  | (t, inr a) => (t, inr a)
  end.

(** Lift an outcome that causes no event. *)
Definition lift {Event A} (r : Thrown + A) : M Event A := ([], r).

Definition events {Event A} (m : M Event A) : list Event := fst m.

Definition outcome {Event A} (m : M Event A) : Thrown + A := snd m.

End Exec.

Declare Scope exec_scope.
Delimit Scope exec_scope with exec.
Notation "x <- m ;; k" := (Exec.bind m (fun x => k))
  (at level 61, m at next level, right associativity) : exec_scope.
Notation "m ;;; k" := (Exec.bind m (fun _ => k))
  (at level 61, right associativity) : exec_scope.

(* ------------------------------------------------------------------ *)
(** * JSON values and the dot-path accessors *)

Module Json.

Import Exec.
Open Scope string_scope.

(** JSON data, as [JSON.parse] and [response.json()] build them: the members
    of an object and the elements of an array are JSON data again, never
    [undefined] and never a function. *)
Inductive JSON : Type :=
| JNull
| JBool (b : bool)
| JNumber (n : float)
| JString (s : string)
| JArray (elems : list JSON)
| JObject (props : list (string * JSON)).

(** The values [json: any] and the loop variable [value: any] range over:
    [undefined], a JSON datum, or what a property read reaches beyond the data
    and is no JSON datum ([JNative]: a built-in method, a prototype object). *)
Inductive JSValue : Type :=
| JUndefined
| JData (data : JSON)
| JNative (tag : string).

Coercion JData : JSON >-> JSValue.

Definition isUndefined (v : JSValue) : bool :=
  match v with JUndefined => true | _ => false end.

(** [s.split(sep)] for a one-character separator: never the empty list. *)
Fixpoint split (sep : ascii) (s : string) : list string :=
  match s with
  | EmptyString => [EmptyString]
  | String c rest =>
      if Ascii.eqb c sep then EmptyString :: split sep rest
      else match split sep rest with
           | [] => [String c EmptyString]
           | w :: ws => String c w :: ws
           end
  end.

(** The own property [key] of an object. *)
Fixpoint ownProperty (key : string) (props : list (string * JSON))
  : option JSON :=
  match props with
  | [] => None
  | (k, v) :: rest => if String.eqb k key then Some v else ownProperty key rest
  end.

Definition digitValue (c : ascii) : option nat :=
  let n := nat_of_ascii c in
  if ((48 <=? n) && (n <=? 57))%nat then Some (n - 48) else None.

Fixpoint parseDigits (acc : nat) (s : string) : option nat :=
  match s with
  | EmptyString => Some acc
  | String c rest =>
      match digitValue c with
      | Some d => parseDigits (10 * acc + d) rest
      | None => None
      end
  end.

(** A property key that is an array index: a decimal numeral in canonical
    form (no sign, no leading zero). *)
Definition arrayIndex (key : string) : option nat :=
  match key with
  | EmptyString => None
  | String c EmptyString => digitValue c
  | String c _ => if Ascii.eqb c "0" then None else parseDigits 0 key
  end.

(** The property [key] that the data themselves hold: a member of an object,
    an element of an array or its [length].  A string, a number, a boolean
    and [null] hold none. *)
Definition ownField (value : JSON) (key : string) : option JSON :=
  match value with
  | JObject props => ownProperty key props
  | JArray elems =>
      if String.eqb key "length"
      then Some (JNumber (JSNum.Z2float (Z.of_nat (List.length elems))))
      else match arrayIndex key with
           | Some i => nth_error elems i
           | None => None
           end
  | _ => None
  end.

(** What the specification calls the value at a path: each segment read in
    the data reached so far ([None] as soon as a segment is absent). *)
Fixpoint valueAt (keys : list string) (value : JSON) : option JSON :=
  match keys with
  | [] => Some value
  | key :: rest =>
      match ownField value key with
      | Some v => valueAt rest v
      | None => None
      end
  end.

(** Structured data in the sense of JSON: an object or an array. *)
Definition isStructured (v : JSON) : bool :=
  match v with
  | JObject _ | JArray _ => true
  | _ => false
  end.

Section Accessors.

(** The language's own behaviour, taken as given.

    [builtin value key] is what the read [value[key]] finds when the data
    hold no such property: a property of the prototype chain, and, on a
    string, its [length] and its characters, which the language counts in
    UTF-16 code units ([JUndefined] when there is none).
    [typeErrorMessage] is the message of the TypeError raised when a property
    of [undefined] or [null] is read, [toPrimitiveErrorMessage] that of the
    TypeError raised when an object cannot be converted to a primitive
    value; the last three are the conversions between numbers and strings
    and [String] on a native value. *)
Variable builtin : JSValue -> string -> JSValue.
Variable typeErrorMessage : JSValue -> string -> string.
Variable toPrimitiveErrorMessage : string.
Variable numberToString : float -> string.
Variable stringToNumber : string -> float.
Variable nativeToString : string -> string.

(** [value[key]] *)
Definition getProp (value : JSValue) (key : string) : Thrown + JSValue :=
  match value with
  | JUndefined | JData JNull =>
      inl (ThrownError (typeErrorMessage value key))
  | JData data =>
      match ownField data key with
      | Some v => inr (JData v)
      | None => inr (builtin value key)
      end
  | JNative _ => inr (builtin value key)
  end.

(** [String(data)].  An object is converted by its [toString]: the one of
    [Object.prototype], which answers "[object Object]", unless the object
    has an own property of that name; such a property holds JSON data, which
    cannot be called, [valueOf] then answers with the object itself or cannot
    be called either, and the conversion throws a TypeError.  (An own
    property [valueOf] alone changes nothing: it cannot be called, and
    [toString] answers.)  An array is converted by [join], which converts its
    elements in turn, [null] to the empty text. *)
Fixpoint dataToString (data : JSON) : Thrown + string :=
  match data with
  | JNull => inr "null"
  | JBool true => inr "true"
  | JBool false => inr "false"
  | JNumber n => inr (numberToString n)
  | JString s => inr s
  | JArray elems =>
      (fix join (l : list JSON) : Thrown + string :=
         match l with
         | [] => inr ""
         | x :: rest =>
             match match x with
                   | JNull => inr ""
                   | _ => dataToString x
                   end
             with
             | inl e => inl e
             | inr sx =>
                 match rest with
                 | [] => inr sx
                 | _ :: _ =>
                     match join rest with
                     | inl e => inl e
                     | inr srest => inr (sx ++ "," ++ srest)
                     end
                 end
             end
         end) elems
  | JObject props =>
      match ownProperty "toString" props with
      | Some _ => inl (ThrownError toPrimitiveErrorMessage)
      | None => inr "[object Object]"
      end
  end.

(** [String(value)] *)
Definition String_ (value : JSValue) : Thrown + string :=
  match value with
  | JUndefined => inr "undefined"
  | JData data => dataToString data
  | JNative tag => inr (nativeToString tag)
  end.

(** [Number(value)]: an array and an object are converted to a string
    first ([valueOf] answers with the value itself, or cannot be called), and
    that string to a number. *)
Definition Number_ (value : JSValue) : Thrown + float :=
  match value with
  | JUndefined => inr nan
  | JData JNull => inr 0%float
  | JData (JBool true) => inr 1%float
  | JData (JBool false) => inr 0%float
  | JData (JNumber n) => inr n
  | JData (JString s) => inr (stringToNumber s)
  | JData data =>
      match dataToString data with
      | inl e => inl e
      | inr s => inr (stringToNumber s)
      end
  | JNative tag => inr (stringToNumber (nativeToString tag))
  end.

(** The loop shared by both accessors:
    [for (const key of keys) { value = value[key]; if (value === undefined) throw ... }] *)
Fixpoint walk (path : string) (keys : list string) (value : JSValue)
  : Thrown + JSValue :=
  match keys with
  | [] => inr value
  | key :: rest =>
      match getProp value key with
      | inl e => inl e
      | inr v =>
          if isUndefined v
          then inl (ThrownError ("Path " ++ path ++ " not found in JSON"))
          else walk path rest v
      end
  end.

Definition jsonGetString (json : JSValue) (path : string) : Thrown + string :=
  match
    match walk path (split "." path) json with
    | inr value => String_ value
    | inl error => inl error
    end
  with
  | inr text => inr text
  | inl error =>
      inl (ThrownError ("Erro ao extrair string do JSON: "
                          ++ messageOr "Erro desconhecido" error))
  end.

Definition jsonGetNumber (json : JSValue) (path : string) : Thrown + float :=
  match
    match walk path (split "." path) json with
    | inr value => Number_ value
    | inl error => inl error
    end
  with
  | inr number => inr number
  | inl error =>
      inl (ThrownError ("Erro ao extrair número do JSON: "
                          ++ messageOr "Erro desconhecido" error))
  end.

(** Every read along the path is answered by the data themselves, or by
    nothing at all: where the data reached hold no property of the segment's
    name, the language finds none either. *)
Fixpoint answeredByData (keys : list string) (value : JSON) : bool :=
  match keys with
  | [] => true
  | key :: rest =>
      match ownField value key with
      | Some v => answeredByData rest v
      | None =>
          match value with
          | JNull => true
          | _ => isUndefined (builtin (JData value) key)
          end
      end
  end.

End Accessors.

(** The data that [String] and [Number] convert without throwing: all but an
    object with an own property [toString], and an array with an element
    that cannot be converted. *)
Fixpoint convertible (data : JSON) : bool :=
  match data with
  | JArray elems =>
      (fix all (l : list JSON) : bool :=
         match l with
         | [] => true
         | x :: rest => convertible x && all rest
         end) elems
  | JObject props =>
      match ownProperty "toString" props with
      | Some _ => false
      | None => true
      end
  | _ => true
  end.

End Json.

(* ------------------------------------------------------------------ *)
(** * The VLayer module *)

Module VLayer.

Import Exec JSNum.
Open Scope string_scope.
Open Scope exec_scope.

(** ** Data (the interfaces of the source) *)

Module NubankAccount.
Inductive AccountType : Type := checking | savings.
Record t : Type := mk
  { id : string; name : string; type : AccountType;
    balance : float; currency : string }.
End NubankAccount.

Module Bank.
Record t : Type := mk { id : string; name : string; code : string }.
End Bank.

Module NubankBankData.
Record t : Type := mk { bank : Bank.t; accounts : list NubankAccount.t }.
End NubankBankData.

(** The [Response] of [fetch]: only [ok] and [status] are read. *)
Module Response.
Record t : Type := mk { ok : bool; status : float }.
End Response.

(** [data: any] is a type parameter: the pipeline stores a [NubankBankData]
    there, and [verifyWebProof] accepts whatever it is given. *)
Module WebProof.
Record t (A : Type) : Type := mk
  { url : string; response : Response.t; data : A; timestamp : float }.
Arguments mk {A}.
Arguments url {A}.
Arguments response {A}.
Arguments data {A}.
Arguments timestamp {A}.
End WebProof.

Module Web.
Record t (A : Type) : Type := mk { url : string; data : A; json : A }.
Arguments mk {A}.
Arguments url {A}.
Arguments data {A}.
Arguments json {A}.
End Web.

(** [ProofInputs] of [./zkProof], with the fields the source fills in. *)
Module ProofInputs.
Record t (Nonce : Type) : Type := mk
  { threshold : float; nonce : Nonce; balance : float; secret_nonce : Nonce }.
Arguments mk {Nonce}.
Arguments threshold {Nonce}.
Arguments nonce {Nonce}.
Arguments balance {Nonce}.
Arguments secret_nonce {Nonce}.
End ProofInputs.

Module VLayerResult.
Record t (ProofResult : Type) : Type := mk
  { webProof : WebProof.t NubankBankData.t;
    web : Web.t NubankBankData.t;
    bankData : NubankBankData.t;
    selectedAccount : NubankAccount.t;
    proof : ProofResult;
    threshold : float;
    balance : float }.
Arguments mk {ProofResult}.
Arguments webProof {ProofResult}.
Arguments web {ProofResult}.
Arguments bankData {ProofResult}.
Arguments selectedAccount {ProofResult}.
Arguments proof {ProofResult}.
Arguments threshold {ProofResult}.
Arguments balance {ProofResult}.
End VLayerResult.

(** What a run does to the outside: calls of the progress callback, the
    outbound request, and calls to the two functions of [./zkProof].
    ([console.log] and [console.error] are left out.) *)
Inductive Event (Nonce : Type) : Type :=
| Progress (percent : float) (text : string)
| Fetch (url : string) (headers : list (string * string))
| GenerateRandomNonce
| GenerateProof (inputs : ProofInputs.t Nonce).
Arguments Progress {Nonce}.
Arguments Fetch {Nonce}.
Arguments GenerateRandomNonce {Nonce}.
Arguments GenerateProof {Nonce}.

Definition NUBANK_DATA_URL : string := "https://api.nubank.com.br/api/banks".

(** The literal [mockNubankResponse] resolves to. *)
Definition mockNubankResponse : NubankBankData.t :=
  NubankBankData.mk
    (Bank.mk "nubank" "Nubank" "260")
    [ NubankAccount.mk "acc-001" "Conta Corrente" NubankAccount.checking
        5000.75%float "BRL";
      NubankAccount.mk "acc-002" "NuConta" NubankAccount.savings
        12500.50%float "BRL" ].

(** [Array.prototype.reduce] without an initial value. *)
Definition Array_reduce {Ev A} (f : A -> A -> A) (xs : list A) : M Ev A :=
  match xs with
  | [] => throw (ThrownError "Reduce of empty array with no initial value")
  | x :: rest => ret (fold_left f rest x)
  end.

(** [(max, account) => account.balance > max.balance ? account : max] *)
Definition higherBalance (max account : NubankAccount.t) : NubankAccount.t :=
  if gtb (NubankAccount.balance account) (NubankAccount.balance max)
  then account else max.

(** [(sum, account) => sum + account.balance] *)
Definition addBalance (sum : float) (account : NubankAccount.t) : float :=
  (sum + NubankAccount.balance account)%float.

Definition defaultExchangeRate : float := 0.18%float.

Definition convertBRLToWLD (brlAmount exchangeRate : float) : float :=
  (brlAmount * exchangeRate)%float.

(** [70 + (progress * 0.3)]: the proof's own 0-100 mapped into 70-100. *)
Definition mappedProgress (progress_ : float) : float :=
  (70 + (progress_ * 0.3))%float.

(** [Math.floor(x * 1e6)]: a WLD amount in micro-WLD. *)
Definition toMicro (x : float) : float := Math_floor (x * 1e6)%float.

Definition verifyWebProof {Ev A} (webProof : WebProof.t A) : M Ev (Web.t A) :=
  tryCatch
    (ret (Web.mk (WebProof.url webProof) (WebProof.data webProof)
            (WebProof.data webProof)))
    (fun _ => throw (ThrownError "Falha ao verificar WebProof")).

(** A callback invoked once for each reported [(progress, text)], in turn. *)
Fixpoint invokeEach {Ev} (calls : list (float * string))
    (callback : float -> string -> M Ev unit) : M Ev unit :=
  match calls with
  | [] => ret tt
  | (progress_, text) :: rest =>
      callback progress_ text ;;; invokeEach rest callback
  end.

Section Pipeline.

(** ** What the module is given *)

(** [./zkProof] (not part of this module): the type of its results with the
    [isValid] flag, the type of nonces, [generateRandomNonce()] and
    [generateProof(inputs, callback)], which answers with the calls it makes
    to its progress callback and with its outcome. *)
Variable ProofResult : Type.
Variable isValid : ProofResult -> bool.
Variable Nonce : Type.
Variable generateRandomNonce : Nonce.
Variable generateProof :
  ProofInputs.t Nonce -> list (float * string) * (Thrown + ProofResult).

(** The platform: the outcome of [fetch], the clock, and the number
    formatting of template literals and of [toFixed]. *)
Variable fetch : string -> list (string * string) -> Thrown + Response.t.
Variable Date_now : float.
Variable numberToString : float -> string.
Variable toFixed : float -> nat -> string.

(** The payload the evidence source answers with: [await mockNubankResponse()]
    in the source as it stands (the literal [mockNubankResponse] above),
    [await response.json()] in production, as the source's comment says. *)
Variable responseData : NubankBankData.t.

Local Abbreviation Ev := (Event Nonce).

(** [onProgress?.(percent, text)]: [onProgress] is [true] when the caller
    passed a callback. *)
Definition progress (onProgress : bool) (percent : float) (text : string)
  : M Ev unit :=
  if onProgress then emit (Progress percent text) else ret tt.

(** An object is truthy. *)
Definition truthy (data : NubankBankData.t) : bool := true.

Definition requestHeaders (accessToken : option string)
  : list (string * string) :=
  ("Content-Type", "application/json")
  :: match accessToken with
     | Some token =>
         if String.eqb token "" then []
         else [("Authorization", "Bearer " ++ token)]
     | None => []
     end.

Definition createWebProof (dataUrl : string) (accessToken : option string)
  : M Ev (WebProof.t NubankBankData.t) :=
  tryCatch
    (let headers := requestHeaders accessToken in
     emit (Fetch dataUrl headers) ;;;
     response <- lift (fetch dataUrl headers) ;;
     let data := responseData in
     if negb (Response.ok response) && negb (truthy data)
     then throw (ThrownError ("HTTP error! status: "
                                ++ numberToString (Response.status response)))
     else ret (WebProof.mk dataUrl response data Date_now))
    (fun error =>
       throw (ThrownError ("Falha ao criar WebProof: "
                             ++ messageOr "Erro desconhecido" error))).

Definition fetchNubankData (accessToken : option string)
  : M Ev NubankBankData.t :=
  tryCatch
    (webProof <- createWebProof NUBANK_DATA_URL accessToken ;;
     web <- verifyWebProof webProof ;;
     ret (Web.json web))
    (fun error =>
       throw (ThrownError ("Falha ao buscar dados do Nubank: "
                             ++ messageOr "Erro desconhecido" error))).

Definition getNubankBalance (accessToken : option string) : M Ev float :=
  tryCatch
    (bankData <- fetchNubankData accessToken ;;
     ret (fold_left addBalance (NubankBankData.accounts bankData) 0%float))
    (fun error => throw error).

Definition getNubankAccountWithHighestBalance (accessToken : option string)
  : M Ev NubankAccount.t :=
  tryCatch
    (bankData <- fetchNubankData accessToken ;;
     if (List.length (NubankBankData.accounts bankData) =? 0)%nat
     then throw (ThrownError "Nenhuma conta encontrada no Nubank")
     else Array_reduce higherBalance (NubankBankData.accounts bankData))
    (fun error => throw error).

(** [await generateProof(inputs, callback)]: the call, the callbacks it
    makes, its outcome. *)
Definition callGenerateProof (inputs : ProofInputs.t Nonce)
    (callback : float -> string -> M Ev unit) : M Ev ProofResult :=
  emit (GenerateProof inputs) ;;;
  let (calls, result) := generateProof inputs in
  invokeEach calls callback ;;;
  lift result.

Definition insufficientBalanceMessage (threshold balanceInWLD : float)
  : string :=
  "Saldo insuficiente. Necessário: " ++ numberToString threshold
    ++ " WLD, Disponível: " ++ toFixed balanceInWLD 2 ++ " WLD".

Definition vlayerGenerateProof (threshold : float)
    (accessToken : option string) (onProgress : bool)
  : M Ev (VLayerResult.t ProofResult) :=
  tryCatch
    (progress onProgress 0 "Iniciando VLayer..." ;;;
     progress onProgress 10 "Criando WebProof..." ;;;
     webProof <- createWebProof NUBANK_DATA_URL accessToken ;;
     progress onProgress 20 "Verificando WebProof..." ;;;
     web <- verifyWebProof webProof ;;
     progress onProgress 30 "Extraindo dados bancários..." ;;;
     let bankData := Web.json web in
     if (List.length (NubankBankData.accounts bankData) =? 0)%nat
     then throw (ThrownError "Nenhuma conta encontrada no Nubank")
     else
     progress onProgress 40 "Selecionando conta..." ;;;
     selectedAccount <-
       Array_reduce higherBalance (NubankBankData.accounts bankData) ;;
     let balanceBRL := NubankAccount.balance selectedAccount in
     progress onProgress 50 "Convertendo saldo..." ;;;
     let balanceInWLD := convertBRLToWLD balanceBRL defaultExchangeRate in
     if (balanceInWLD <? threshold)%float
     then throw (ThrownError
                   (insufficientBalanceMessage threshold balanceInWLD))
     else
     progress onProgress 60 "Gerando nonce..." ;;;
     emit GenerateRandomNonce ;;;
     let nonce := generateRandomNonce in
     progress onProgress 70 "Preparando prova ZK..." ;;;
     let proofInputs :=
       ProofInputs.mk (toMicro threshold) nonce (toMicro balanceInWLD) nonce in
     let proofProgressCallback := fun (progress_ : float) (text : string) =>
       progress onProgress (mappedProgress progress_) text in
     progress onProgress 70 "Gerando prova zero-knowledge..." ;;;
     proof <- callGenerateProof proofInputs proofProgressCallback ;;
     if negb (isValid proof)
     then throw (ThrownError "A prova gerada não é válida")
     else
     progress onProgress 100 "Prova gerada com sucesso!" ;;;
     ret (VLayerResult.mk webProof web bankData selectedAccount proof
            threshold balanceInWLD))
    (fun error =>
       throw (ThrownError
                (messageOr "Erro desconhecido ao gerar prova com VLayer" error))).

Definition getNubankBalanceInWLD (accessToken : option string) : M Ev float :=
  balanceBRL <- getNubankBalance accessToken ;;
  ret (convertBRLToWLD balanceBRL defaultExchangeRate).

End Pipeline.

(** ** Reading a run *)

(** The percent values handed to the progress callback, in order. *)
Definition percents {Nonce} (trace : list (Event Nonce)) : list float :=
  flat_map (fun ev => match ev with Progress p _ => [p] | _ => [] end) trace.

(** The inputs of the calls to [generateProof], in order. *)
Definition proofCalls {Nonce} (trace : list (Event Nonce))
  : list (ProofInputs.t Nonce) :=
  flat_map (fun ev => match ev with GenerateProof i => [i] | _ => [] end) trace.

(** The checkpoints the pipeline itself reports before it calls
    [generateProof], in the order of the source. *)
Definition checkpoints : list (float * string) :=
  [ (0%float, "Iniciando VLayer...");
    (10%float, "Criando WebProof...");
    (20%float, "Verificando WebProof...");
    (30%float, "Extraindo dados bancários...");
    (40%float, "Selecionando conta...");
    (50%float, "Convertendo saldo...");
    (60%float, "Gerando nonce...");
    (70%float, "Preparando prova ZK...");
    (70%float, "Gerando prova zero-knowledge...") ].

Definition progressEvents {Nonce} (onProgress : bool)
    (steps : list (float * string)) : list (Event Nonce) :=
  if onProgress then map (fun s => Progress (fst s) (snd s)) steps else [].

(** The account the selection loop ends on, its balance in WLD and the
    inputs the pipeline builds for the proof. *)
Definition selected (a : NubankAccount.t) (l : list NubankAccount.t)
  : NubankAccount.t :=
  fold_left higherBalance l a.

Definition balanceInWLD (a : NubankAccount.t) (l : list NubankAccount.t)
  : float :=
  convertBRLToWLD (NubankAccount.balance (selected a l)) defaultExchangeRate.

Definition proofInputs {Nonce} (nonce : Nonce) (threshold : float)
    (a : NubankAccount.t) (l : list NubankAccount.t) : ProofInputs.t Nonce :=
  ProofInputs.mk (toMicro threshold) nonce (toMicro (balanceInWLD a l)) nonce.

(** Everything a run reports up to and including the call of
    [generateProof] and the progress the call forwards. *)
Definition traceToProof {Nonce ProofResult} (nonce : Nonce)
    (generateProof :
       ProofInputs.t Nonce -> list (float * string) * (Thrown + ProofResult))
    (threshold : float) (headers : list (string * string))
    (onProgress : bool) (a : NubankAccount.t) (l : list NubankAccount.t)
  : list (Event Nonce) :=
  (progressEvents onProgress (firstn 2 checkpoints)
     ++ [Fetch NUBANK_DATA_URL headers]
     ++ progressEvents onProgress (firstn 5 (skipn 2 checkpoints))
     ++ [GenerateRandomNonce]
     ++ progressEvents onProgress (skipn 7 checkpoints)
     ++ [GenerateProof (proofInputs nonce threshold a l)]
     ++ progressEvents onProgress
          (map (fun c => (mappedProgress (fst c), snd c))
             (fst (generateProof (proofInputs nonce threshold a l)))))%list.

(** Each value is below the next one, resp. not above it. *)
Fixpoint strictlyIncreasing (l : list float) : bool :=
  match l with
  | x :: (y :: _) as rest => (x <? y)%float && strictlyIncreasing rest
  | _ => true
  end.

Fixpoint nonDecreasing (l : list float) : bool :=
  match l with
  | x :: (y :: _) as rest => (x <=? y)%float && nonDecreasing rest
  | _ => true
  end.

End VLayer.

(* ------------------------------------------------------------------ *)
(** * Sample environments and payloads *)

Module Sample.

Import Exec VLayer.
Open Scope string_scope.

(** A result of the proof capability: the flag and the opaque proof. *)
Record Proof : Type := mkProof { valid : bool; bytes : string }.

Definition nonce : string := "5f2c9a1e".

(** A proof capability that reports three steps and answers with a valid
    proof, whatever its inputs. *)
Definition proves (inputs : ProofInputs.t string)
  : list (float * string) * (Thrown + Proof) :=
  ([(0%float, "witness"); (50%float, "constraints"); (100%float, "proof")],
   inr (mkProof true "0xproof")).

(** One that reports its last step and answers with an invalid proof. *)
Definition provesInvalid (inputs : ProofInputs.t string)
  : list (float * string) * (Thrown + Proof) :=
  ([(100%float, "proof")], inr (mkProof false "0xproof")).

Definition fetchOk (url : string) (headers : list (string * string))
  : Thrown + Response.t :=
  inr (Response.mk true 200%float).

Definition now : float := 1700000000000%float.

(** Stand-ins for the number formatting: the properties do not read it. *)
Definition numberToString (x : float) : string := "<number>".
Definition toFixed (x : float) (digits : nat) : string := "<fixed>".

Definition run (generateProof :
                  ProofInputs.t string -> list (float * string) * (Thrown + Proof))
    (responseData : NubankBankData.t) (threshold : float)
  : M (Event string) (VLayerResult.t Proof) :=
  vlayerGenerateProof Proof valid string nonce generateProof fetchOk now
    numberToString toFixed responseData threshold None true.

Definition oneAccount (balance : float) : NubankBankData.t :=
  NubankBankData.mk (Bank.mk "nubank" "Nubank" "260")
    [ NubankAccount.mk "acc-001" "Conta Corrente" NubankAccount.checking
        balance "BRL" ].

(** The mock payload with a different balance on the second account. *)
Definition otherResponse : NubankBankData.t :=
  NubankBankData.mk (Bank.mk "nubank" "Nubank" "260")
    [ NubankAccount.mk "acc-001" "Conta Corrente" NubankAccount.checking
        5000.75%float "BRL";
      NubankAccount.mk "acc-002" "NuConta" NubankAccount.savings
        13000%float "BRL" ].

(** Two accounts share the highest balance. *)
Definition tiedResponse : NubankBankData.t :=
  NubankBankData.mk (Bank.mk "nubank" "Nubank" "260")
    [ NubankAccount.mk "acc-001" "Conta Corrente" NubankAccount.checking
        100%float "BRL";
      NubankAccount.mk "acc-002" "NuConta" NubankAccount.savings
        700%float "BRL";
      NubankAccount.mk "acc-003" "Reserva" NubankAccount.savings
        700%float "BRL" ].

(** Stand-ins for the language: [constructor] and [toString] found on
    every value, and nothing else. *)
Definition builtin (value : Json.JSValue) (key : string) : Json.JSValue :=
  if String.eqb key "constructor" then Json.JNative "constructor"
  else if String.eqb key "toString" then Json.JNative "toString"
  else Json.JUndefined.

Definition typeErrorMessage (value : Json.JSValue) (key : string) : string :=
  "Cannot read properties of null".

Definition toPrimitiveErrorMessage : string :=
  "Cannot convert object to primitive value".

Definition stringToNumber (s : string) : float := nan.

Definition nativeToString (tag : string) : string := "function".

Definition jsonGetString :=
  Json.jsonGetString builtin typeErrorMessage toPrimitiveErrorMessage
    numberToString nativeToString.

Definition jsonGetNumber :=
  Json.jsonGetNumber builtin typeErrorMessage toPrimitiveErrorMessage
    numberToString stringToNumber nativeToString.

(** [{ bank: { name: "Nubank" }, accounts: [{ balance: 5000.75 }], limit: null,
       owner: { toString: 1 } }] *)
Definition document : Json.JSON :=
  Json.JObject
    [ ("bank", Json.JObject [("name", Json.JString "Nubank")]);
      ("accounts",
        Json.JArray [Json.JObject [("balance", Json.JNumber 5000.75%float)]]);
      ("limit", Json.JNull);
      ("owner", Json.JObject [("toString", Json.JNumber 1%float)]) ].

End Sample.

(* ------------------------------------------------------------------ *)
(** * The groups store (front-end/src/lib/groups.ts) *)

Module Groups.

Import Exec.
Open Scope string_scope.

(** ** Data *)

Module AvailableGroup.
Record t : Type := mk
  { id : string; name : string; description : string; minWld : float;
    avatarBg : string; members : float }.
End AvailableGroup.

Module Group.
Record t : Type := mk
  { id : string; name : string; lastMessage : string; lastSender : string;
    description : string; minWld : float; unread : float; avatarBg : string;
    members : float; joinedAt : string }.

(** [g.lastMessage = message; g.lastSender = sender] *)
Definition withLastMessage (message sender : string) (g : t) : t :=
  mk (id g) (name g) message sender (description g) (minWld g) (unread g)
    (avatarBg g) (members g) (joinedAt g).

(** [g.unread = u] *)
Definition withUnread (u : float) (g : t) : t :=
  mk (id g) (name g) (lastMessage g) (lastSender g) (description g) (minWld g)
    u (avatarBg g) (members g) (joinedAt g).
End Group.

Definition STORAGE_KEY : string := "zkvip_joined_groups".
Definition AVAILABLE_GROUPS_KEY : string := "zkvip_available_groups".

(** The array literal [DEFAULT_AVAILABLE_GROUPS] is initialised with. *)
Definition DEFAULT_AVAILABLE_GROUPS : list AvailableGroup.t :=
  [ AvailableGroup.mk "zk-builders" "ZK Builders"
      "Discussões diárias sobre ZK, provas e tooling." 0.5%float
      "bg-gradient-to-br from-indigo-600 via-purple-500 to-pink-500"
      124%float;
    AvailableGroup.mk "ethereum-sp" "Ethereum São Paulo"
      "Eventos, meetups e grants da comunidade paulista." 1%float
      "bg-gradient-to-br from-amber-500 via-orange-500 to-rose-500"
      89%float ].

(** ** The world the module acts on

    The content of [localStorage], the current content of the one array
    object [DEFAULT_AVAILABLE_GROUPS] is bound to (the module hands out this
    very object and callers push onto it), and the types of the events
    dispatched on [window], oldest first. *)
Record World : Type := mkWorld
  { localStorage : list (string * string);
    defaultGroups : list AvailableGroup.t;
    dispatched : list string }.

Definition initialWorld : World := mkWorld [] DEFAULT_AVAILABLE_GROUPS [].

(** A computation reads and changes the world and returns or throws; what
    it changed before throwing stays changed. *)
Definition St (A : Type) : Type := World -> (Thrown + A) * World.

Definition sret {A} (a : A) : St A := fun w => (inr a, w).

Definition sthrow {A} (e : Thrown) : St A := fun w => (inl e, w).

Definition sbind {A B} (m : St A) (f : A -> St B) : St B :=
  fun w => match m w with
           | (inl e, w') => (inl e, w')
           | (inr a, w') => f a w'
           end.

(** [try { m } catch (error) { handler error }] *)
Definition stry {A} (m : St A) (handler : Thrown -> St A) : St A :=
  fun w => match m w with
           | (inl e, w') => handler e w'
           | (inr a, w') => (inr a, w')
           end.

Definition slift {A} (r : Thrown + A) : St A := fun w => (r, w).

Definition result {A} (r : (Thrown + A) * World) : Thrown + A := fst r.

Definition after {A} (r : (Thrown + A) * World) : World := snd r.

Declare Scope store_scope.
Delimit Scope store_scope with store.
Notation "x <- m ;; k" := (sbind m (fun x => k))
  (at level 61, m at next level, right associativity) : store_scope.
Notation "m ;;; k" := (sbind m (fun _ => k))
  (at level 61, right associativity) : store_scope.
Open Scope store_scope.

(** ** Storage and arrays *)

Fixpoint lookup (key : string) (items : list (string * string))
  : option string :=
  match items with
  | [] => None
  | (k, v) :: rest => if String.eqb k key then Some v else lookup key rest
  end.

Fixpoint store (key value : string) (items : list (string * string))
  : list (string * string) :=
  match items with
  | [] => [(key, value)]
  | (k, v) :: rest =>
      if String.eqb k key then (key, value) :: rest
      else (k, v) :: store key value rest
  end.

(** What [stored ? ... : ...] takes the first branch on: a string that is
    not empty ([null] and [''] are falsy). *)
Definition truthyString (stored : option string) : option string :=
  match stored with
  | Some s => if String.eqb s "" then None else Some s
  | None => None
  end.

(** [l.findIndex(p)], [None] standing for -1. *)
Fixpoint findIndex {A} (p : A -> bool) (l : list A) : option nat :=
  match l with
  | [] => None
  | x :: rest =>
      if p x then Some 0%nat else option_map S (findIndex p rest)
  end.

(** [l[i] = f(l[i])] for an index within the array. *)
Fixpoint updateAt {A} (i : nat) (f : A -> A) (l : list A) : list A :=
  match l, i with
  | [], _ => []
  | x :: rest, O => f x :: rest
  | x :: rest, S j => x :: updateAt j f rest
  end.

(** ** The id of a new group *)

(** [a-z0-9] *)
Definition isAlnum (c : ascii) : bool :=
  let n := nat_of_ascii c in
  ((97 <=? n) && (n <=? 122) || (48 <=? n) && (n <=? 57))%nat.

Definition isDash (c : ascii) : bool := Ascii.eqb c "-".

(** [s.replace(/[^a-z0-9]+/g, '-')]: every maximal run of characters
    outside [a-z0-9] becomes one dash.  [inRun] tells that the character
    before belongs to such a run.  (Text is a sequence of bytes here; a
    character outside ASCII is made of bytes outside [a-z0-9] only, so that a
    run of the source is a run here.) *)
Fixpoint replaceRuns (inRun : bool) (s : string) : string :=
  match s with
  | EmptyString => EmptyString
  | String c rest =>
      if isAlnum c then String c (replaceRuns false rest)
      else if inRun then replaceRuns true rest
      else String "-" (replaceRuns true rest)
  end.

(** [s.replace(/^-+|-+$/g, '')]: the dashes the text starts with are
    removed, then the dashes it ends with. *)
Fixpoint dropLeadingDashes (s : string) : string :=
  match s with
  | EmptyString => EmptyString
  | String c rest => if isDash c then dropLeadingDashes rest else s
  end.

Fixpoint dropTrailingDashes (s : string) : string :=
  match s with
  | EmptyString => EmptyString
  | String c rest =>
      match dropTrailingDashes rest with
      | EmptyString => if isDash c then EmptyString else String c EmptyString
      | rest' => String c rest'
      end
  end.

(** What [getAvailableGroups] hands out: an array of its own, parsed from
    the storage, or the array [DEFAULT_AVAILABLE_GROUPS] itself. *)
Inductive ArrayRef : Type :=
| Parsed (elems : list AvailableGroup.t)
| TheDefault.

(** The elements of the array a reference stands for. *)
Definition groupsAt (array : ArrayRef) (w : World)
  : list AvailableGroup.t :=
  match array with
  | Parsed elems => elems
  | TheDefault => defaultGroups w
  end.

Section Store.

(** ** What the module is given

    Whether the code runs in a browser ([typeof window !== 'undefined']);
    the errors of [localStorage] (a blocked storage throws on every access,
    a full one on [setItem]); [JSON.parse] and [JSON.stringify]; and
    [String.prototype.toLowerCase].

    [JSON.parse] is taken at the types the module declares for what it
    reads: it throws on text that is not JSON, and text that is JSON is the
    text of an array of groups, which is all the module itself ever writes
    under its two keys.  (Text put there by other code, the JSON of a value
    that is no array of groups, is outside the model.) *)
Variable window : bool.
Variable getItemError : string -> option Thrown.
Variable setItemError : string -> string -> option Thrown.
Variable parseGroups : string -> Thrown + list Group.t.
Variable stringifyGroups : list Group.t -> string.
Variable parseAvailable : string -> Thrown + list AvailableGroup.t.
Variable stringifyAvailable : list AvailableGroup.t -> string.
Variable toLowerCase : string -> string.

Definition getItem (key : string) : St (option string) :=
  fun w => match getItemError key with
           | Some e => (inl e, w)
           | None => (inr (lookup key (localStorage w)), w)
           end.

Definition setItem (key value : string) : St unit :=
  fun w => match setItemError key value with
           | Some e => (inl e, w)
           | None =>
               (inr tt,
                mkWorld (store key value (localStorage w)) (defaultGroups w)
                  (dispatched w))
           end.

(** [window.dispatchEvent(new Event(type))] *)
Definition dispatchEvent (type : string) : St unit :=
  fun w => (inr tt,
            mkWorld (localStorage w) (defaultGroups w)
              (dispatched w ++ [type])).

(** The elements of the array behind a reference, and [push] on it. *)
Definition elements (array : ArrayRef) : St (list AvailableGroup.t) :=
  fun w => (inr (groupsAt array w), w).

Definition push (array : ArrayRef) (g : AvailableGroup.t) : St ArrayRef :=
  fun w => match array with
           | Parsed elems => (inr (Parsed (elems ++ [g])), w)
           | TheDefault =>
               (inr TheDefault,
                mkWorld (localStorage w) (defaultGroups w ++ [g])
                  (dispatched w))
           end.

(** ** Joined groups *)

Definition getJoinedGroups : St (list Group.t) :=
  if negb window then sret []
  else
    stry
      (stored <- getItem STORAGE_KEY ;;
       match truthyString stored with
       | Some text => slift (parseGroups text)
       | None => sret []
       end)
      (fun _ => sret []).

(** The joined groups as [getJoinedGroups] reads them in a world. *)
Definition joined (w : World) : list Group.t :=
  match result (getJoinedGroups w) with
  | inr l => l
  | inl _ => []
  end.

(** The group [addJoinedGroup] builds; [now] is [new Date().toISOString()]
    at the time of the call. *)
Definition newJoinedGroup (group : AvailableGroup.t) (now : string)
  : Group.t :=
  Group.mk (AvailableGroup.id group) (AvailableGroup.name group)
    "Bem-vindo ao grupo!" "Sistema" (AvailableGroup.description group)
    (AvailableGroup.minWld group) 0%float (AvailableGroup.avatarBg group)
    (AvailableGroup.members group) now.

Definition hasId (id : string) (g : Group.t) : bool :=
  String.eqb (Group.id g) id.

Definition addJoinedGroup (group : AvailableGroup.t) (now : string)
  : St unit :=
  if negb window then sret tt
  else
    joinedGroups <- getJoinedGroups ;;
    if existsb (hasId (AvailableGroup.id group)) joinedGroups then sret tt
    else
      let newGroup := newJoinedGroup group now in
      let joinedGroups := (joinedGroups ++ [newGroup])%list in
      stry
        (setItem STORAGE_KEY (stringifyGroups joinedGroups) ;;;
         if window then dispatchEvent "groupsUpdated" else sret tt)
        (fun _ => sret tt).

(** The array after the first group with the id, if any, was changed. *)
Definition changed (groupId : string) (change : Group.t -> Group.t)
    (l : list Group.t) : list Group.t :=
  match findIndex (hasId groupId) l with
  | Some groupIndex => updateAt groupIndex change l
  | None => l
  end.

(** The storage takes the array of joined groups and gives it back: it can
    be read and written, and the text [JSON.stringify] makes of the array
    is parsed back into it. *)
Definition persists (l : list Group.t) : Prop :=
  getItemError STORAGE_KEY = None
  /\ setItemError STORAGE_KEY (stringifyGroups l) = None
  /\ stringifyGroups l <> ""
  /\ parseGroups (stringifyGroups l) = inr l.

(** The three functions that change one joined group share their shape:
    find the index, change the group there, write the array back. *)
Definition changeJoinedGroup (groupId : string) (change : Group.t -> Group.t)
  : St unit :=
  if negb window then sret tt
  else
    joinedGroups <- getJoinedGroups ;;
    match findIndex (hasId groupId) joinedGroups with
    | Some groupIndex =>
        let joinedGroups := updateAt groupIndex change joinedGroups in
        stry (setItem STORAGE_KEY (stringifyGroups joinedGroups))
          (fun _ => sret tt)
    | None => sret tt
    end.

Definition updateGroupLastMessage (groupId message sender : string)
  : St unit :=
  changeJoinedGroup groupId (Group.withLastMessage message sender).

Definition incrementUnread (groupId : string) : St unit :=
  changeJoinedGroup groupId
    (fun g => Group.withUnread (Group.unread g + 1)%float g).

Definition clearUnread (groupId : string) : St unit :=
  changeJoinedGroup groupId (Group.withUnread 0%float).

(** ** Available groups *)

Definition initializeAvailableGroups : St unit :=
  if negb window then sret tt
  else
    stry
      (existing <- getItem AVAILABLE_GROUPS_KEY ;;
       match truthyString existing with
       | Some _ => sret tt
       | None =>
           defaults <- elements TheDefault ;;
           setItem AVAILABLE_GROUPS_KEY (stringifyAvailable defaults)
       end)
      (fun _ => sret tt).

Definition getAvailableGroups : St ArrayRef :=
  if negb window then sret TheDefault
  else
    stry
      (stored <- getItem AVAILABLE_GROUPS_KEY ;;
       match truthyString stored with
       | Some text =>
           parsed <- slift (parseAvailable text) ;;
           sret (Parsed parsed)
       | None =>
           initializeAvailableGroups ;;;
           sret TheDefault
       end)
      (fun _ => sret TheDefault).

(** The same for the array of available groups. *)
Definition persistsAvailable (l : list AvailableGroup.t) : Prop :=
  getItemError AVAILABLE_GROUPS_KEY = None
  /\ setItemError AVAILABLE_GROUPS_KEY (stringifyAvailable l) = None
  /\ stringifyAvailable l <> ""
  /\ parseAvailable (stringifyAvailable l) = inr l.

(** [name.toLowerCase().replace(/[^a-z0-9]+/g, '-').replace(/^-+|-+$/g, '')] *)
Definition slug (name : string) : string :=
  dropTrailingDashes
    (dropLeadingDashes (replaceRuns false (toLowerCase name))).

Definition hasAvailableId (id : string) (g : AvailableGroup.t) : bool :=
  String.eqb (AvailableGroup.id g) id.

Definition createAvailableGroup (name description : string) (minWld : float)
    (avatarBg : string) : St AvailableGroup.t :=
  if negb window
  then sthrow (ThrownError "Não é possível criar grupo no servidor")
  else
    availableGroups <- getAvailableGroups ;;
    let id := slug name in
    current <- elements availableGroups ;;
    match find (hasAvailableId id) current with
    | Some _ => sthrow (ThrownError "Já existe um grupo com esse nome")
    | None =>
        let newGroup :=
          AvailableGroup.mk id name description minWld avatarBg 0%float in
        availableGroups <- push availableGroups newGroup ;;
        stry
          (current <- elements availableGroups ;;
           setItem AVAILABLE_GROUPS_KEY (stringifyAvailable current) ;;;
           dispatchEvent "availableGroupsUpdated" ;;;
           sret newGroup)
          (fun error => sthrow error)
    end.

End Store.

(** ** Reading a world *)

(** The ids of the joined groups, resp. of the available ones. *)
Definition joinedIds (l : list Group.t) : list string := map Group.id l.

Definition availableIds (l : list AvailableGroup.t) : list string :=
  map AvailableGroup.id l.

(** The text is made of [a-z0-9] and dashes, and no dash follows a dash
    (nor opens the text, when [previousDash] is set). *)
Fixpoint dashSeparated (previousDash : bool) (s : string) : bool :=
  match s with
  | EmptyString => true
  | String c rest =>
      if isAlnum c then dashSeparated false rest
      else isDash c && negb previousDash && dashSeparated true rest
  end.

Fixpoint endsWithDash (s : string) : bool :=
  match s with
  | EmptyString => false
  | String c EmptyString => isDash c
  | String _ rest => endsWithDash rest
  end.

(** Words of [a-z0-9] joined by single dashes: no dash at either end, no
    two dashes in a row, no other character. *)
Definition wellFormedId (s : string) : bool :=
  dashSeparated true s && negb (endsWithDash s).

End Groups.

(* ------------------------------------------------------------------ *)
(** * The groups page (front-end/src/app/(protected)/groups/page.tsx)

    The state the component keeps with [useState], and its handlers as
    functions of that state.  The handlers that reach the store act on the
    world of [Groups]; the routes handed to [router.push] are returned with
    the new state. *)

Module GroupsPage.

Import Exec JSNum Groups.
Open Scope string_scope.

Inductive ProofState : Type := idle | running | success.

Inductive StepStatus : Type := pending | active | done.

Definition proofSteps : list string :=
  [ "Checando saldo WLD"; "Gerando prova ZK"; "Enviando prova";
    "Confirmando acesso" ].

(** The state of the sheet that shows a group and the run of its proof. *)
Record Sheet : Type := mkSheet
  { selectedGroup : option AvailableGroup.t;
    proofState : ProofState;
    currentStep : nat;
    stepsStatus : list StepStatus }.

(** The state of the form that creates a group, with the groups shown. *)
Record Form : Type := mkForm
  { availableGroups : ArrayRef;
    isCreating : bool;
    newGroupName : string;
    newGroupMinWld : string;
    error : string }.

(** [l.map((x, idx) => f(x, idx))] *)
Fixpoint mapFrom {A B} (idx : nat) (f : A -> nat -> B) (l : list A) : list B :=
  match l with
  | [] => []
  | x :: rest => f x idx :: mapFrom (S idx) f rest
  end.

Definition mapIndexed {A B} (f : A -> nat -> B) (l : list A) : list B :=
  mapFrom 0 f l.

Definition initialSheet : Sheet :=
  mkSheet None idle 0 (map (fun _ => pending) proofSteps).

(** [onClick={() => setSelectedGroup(group)}] *)
Definition select (group : AvailableGroup.t) (s : Sheet) : Sheet :=
  mkSheet (Some group) (proofState s) (currentStep s) (stepsStatus s).

Definition startProof (s : Sheet) : Sheet :=
  mkSheet (selectedGroup s) running 0
    (mapIndexed (fun _ idx => if (idx =? 0)%nat then active else pending)
       proofSteps).

(** The timer the effect on [currentStep] and [proofState] has set fires.
    The effect sets one only while the proof is running: the one that ends
    the run when the last step is the current one, the one that moves to the
    next step otherwise. *)
Definition timerFires (s : Sheet) : Sheet :=
  match proofState s with
  | running =>
      if (currentStep s =? List.length proofSteps - 1)%nat
      then
        mkSheet (selectedGroup s) success (currentStep s)
          (map (fun _ => done) proofSteps)
      else
        mkSheet (selectedGroup s) running (currentStep s + 1)
          (mapIndexed
             (fun (status : StepStatus) idx =>
                if (idx <? currentStep s)%nat then done
                else if (idx =? currentStep s + 1)%nat then active
                else pending)
             (stepsStatus s))
  | _ => s
  end.

Definition closeSheet (s : Sheet) : Sheet :=
  mkSheet None idle 0 (map (fun _ => pending) proofSteps).

Section Handlers.

(** The store's environment, and the page's: [String.prototype.trim],
    [Number] on a string, the name of the user of the session when there is
    one and it is not empty, and the index
    [Math.floor(Math.random() * avatarColors.length)]. *)
Variable window : bool.
Variable getItemError : string -> option Thrown.
Variable setItemError : string -> string -> option Thrown.
Variable parseGroups : string -> Thrown + list Group.t.
Variable stringifyGroups : list Group.t -> string.
Variable parseAvailable : string -> Thrown + list AvailableGroup.t.
Variable stringifyAvailable : list AvailableGroup.t -> string.
Variable toLowerCase : string -> string.
Variable trim : string -> string.
Variable stringToNumber : string -> float.
Variable username : option string.
Variable randomIndex : nat.

(** [handleJoinGroup]; [now] is the time [addJoinedGroup] reads. *)
Definition handleJoinGroup (now : string) (s : Sheet)
  : St (Sheet * list string) :=
  match selectedGroup s, proofState s with
  | Some group, success =>
      addJoinedGroup window getItemError setItemError parseGroups
        stringifyGroups group now ;;;
      sret (closeSheet s, ["/chat/" ++ AvailableGroup.id group])
  | _, _ => sret (s, [])
  end.

Definition avatarColors : list string :=
  [ "bg-gradient-to-br from-indigo-600 via-purple-500 to-pink-500";
    "bg-gradient-to-br from-amber-500 via-orange-500 to-rose-500";
    "bg-gradient-to-br from-slate-700 via-slate-600 to-slate-500";
    "bg-gradient-to-br from-teal-500 via-emerald-500 to-lime-500";
    "bg-gradient-to-br from-blue-500 via-cyan-500 to-teal-500";
    "bg-gradient-to-br from-pink-500 via-rose-500 to-red-500" ].

Definition withError (message : string) (f : Form) : Form :=
  mkForm (availableGroups f) (isCreating f) (newGroupName f)
    (newGroupMinWld f) message.

(** [err.message || 'Erro ao criar grupo. Tente novamente.'] *)
Definition messageOrDefault (err : Thrown) : string :=
  match err with
  | ThrownError message =>
      if String.eqb message "" then "Erro ao criar grupo. Tente novamente."
      else message
  | ThrownOther => "Erro ao criar grupo. Tente novamente."
  end.

Definition handleCreate (f : Form) : St Form :=
  if String.eqb (trim (newGroupName f)) ""
  then sret (withError "Adicione um nome." f)
  else
    let min := stringToNumber (newGroupMinWld f) in
    if (isNaN min || (min <=? 0)%float)%bool
    then sret (withError "Defina o mínimo de WLD." f)
    else
      stry
        (let randomAvatar := nth randomIndex avatarColors "" in
         createAvailableGroup window getItemError setItemError parseAvailable
           stringifyAvailable toLowerCase
           (trim (newGroupName f))
           ("Grupo criado por "
              ++ match username with Some name => name | None => "você" end)
           min randomAvatar ;;;
         groups <- getAvailableGroups window getItemError setItemError
                     parseAvailable stringifyAvailable ;;
         sret (mkForm groups false "" "" ""))
        (fun err => sret (withError (messageOrDefault err) f)).

End Handlers.

End GroupsPage.

(* ------------------------------------------------------------------ *)
(** * The XMTP module (the messaging module that follows the VLayer module
      in front-end/src/lib/vlayer.ts)

    The module keeps the client in two variables and wraps the calls of
    the XMTP SDK.  A computation reads and changes these variables, calls
    the SDK (the calls are recorded, in order) and returns or throws. *)

Module Xmtp.

Import Exec.
Open Scope string_scope.

(** A [Date] is carried around by its time value. *)
Module Conversation.
Record t : Type := mk
  { topic : string; peerAddress : string; createdAt : float }.
End Conversation.

(** [DecodedMessage]; [content] is of type [any]. *)
Module DecodedMessage.
Record t : Type := mk
  { id : string; content : Json.JSValue; senderAddress : string;
    sent : float }.
End DecodedMessage.

Module XMTPMessage.
Record t : Type := mk
  { id : string; content : string; senderAddress : string; sent : float;
    conversationTopic : string }.
End XMTPMessage.

Module XMTPConversation.
Record t : Type := mk
  { topic : string; peerAddress : string; createdAt : float }.
End XMTPConversation.

Module Formatted.
Record t : Type := mk
  { id : string; text : string; sender : string; timestamp : float;
    isOwn : bool }.
End Formatted.

(** [XMTPConfig]: both fields are optional. *)
Module XMTPConfig.
Record t : Type := mk { env : option string; appVersion : option string }.
End XMTPConfig.

(** [s.slice(0, n)] and [s.slice(-n)] for [n] at least 0. *)
Definition sliceStart (n : nat) (s : string) : string := String.substring 0 n s.

Definition sliceEnd (n : nat) (s : string) : string :=
  String.substring (String.length s - n) n s.

(** [l.map(f)] for an [f] that may throw: the elements are taken in turn, up
    to the first one on which [f] throws. *)
Fixpoint mapThrowing {A B} (f : A -> Thrown + B) (l : list A)
  : Thrown + list B :=
  match l with
  | [] => inr []
  | x :: rest =>
      match f x with
      | inl e => inl e
      | inr y =>
          match mapThrowing f rest with
          | inl e => inl e
          | inr ys => inr (y :: ys)
          end
      end
  end.

Section Sdk.

(** ** What the module is given: the SDK and the language

    The type of clients and the outcome of each call of the SDK; what
    [String(v)] relies on (the message of the TypeError it throws on an
    object that cannot be converted, and the conversions of numbers and of
    native values); [String.prototype.toLowerCase]. *)
Variable Client : Type.
Variable signer_getAddress : Thrown + string.
Variable Client_canMessage : string -> Thrown + bool.
Variable Client_create : string -> string -> Thrown + Client.
Variable conversations_list : Client -> Thrown + list Conversation.t.
Variable conversations_newConversation :
  Client -> string -> Thrown + Conversation.t.
Variable conversation_send :
  Conversation.t -> string -> Thrown + DecodedMessage.t.
Variable conversation_messages :
  Conversation.t -> option float -> Thrown + list DecodedMessage.t.
Variable toPrimitiveErrorMessage : string.
Variable numberToString : float -> string.
Variable nativeToString : string -> string.
Variable toLowerCase : string -> string.

(** The calls of the SDK. *)
Inductive Call : Type :=
| GetAddress
| CanMessage (address : string)
| Create (env appVersion : string)
| List
| NewConversation (peerAddress : string)
| Send (conversation : Conversation.t) (content : string)
| Messages (conversation : Conversation.t) (limit : option float).

Record XMTPClientState : Type := mkClientState
  { client : option Client; isInitialized : bool; address : option string }.

(** The two variables of the module. *)
Record Variables : Type := mkVariables
  { xmtpClient : option Client; clientState : XMTPClientState }.

Definition initialVariables : Variables :=
  mkVariables None (mkClientState None false None).

Definition X (A : Type) : Type := Variables -> M Call A * Variables.

Definition xret {A} (a : A) : X A := fun v => (ret a, v).

Definition xthrow {A} (e : Thrown) : X A := fun v => (throw e, v).

Definition xbind {A B} (m : X A) (f : A -> X B) : X B :=
  fun v =>
    match m v with
    | ((t, inl e), v') => ((t, inl e), v')
    | ((t, inr a), v') =>
        match f a v' with
        | ((t', r), v'') => (((t ++ t')%list, r), v'')
        end
    end.

(** [try { m } catch (error) { handler error }] *)
Definition xtry {A} (m : X A) (handler : Thrown -> X A) : X A :=
  fun v =>
    match m v with
    | ((t, inl e), v') =>
        match handler e v' with
        | ((t', r), v'') => (((t ++ t')%list, r), v'')
        end
    | ((t, inr a), v') => ((t, inr a), v')
    end.

(** A call of the SDK with its outcome. *)
Definition call {A} (c : Call) (r : Thrown + A) : X A :=
  fun v => (([c], r), v).

(** An outcome that calls nothing. *)
Definition xlift {A} (r : Thrown + A) : X A :=
  fun v => (([], r), v).

Definition calls {A} (r : M Call A * Variables) : list Call := fst (fst r).

Definition answer {A} (r : M Call A * Variables) : Thrown + A := snd (fst r).

Definition variables {A} (r : M Call A * Variables) : Variables := snd r.

Declare Scope xmtp_scope.
Delimit Scope xmtp_scope with xmtp.
Notation "x <- m ;; k" := (xbind m (fun x => k))
  (at level 61, m at next level, right associativity) : xmtp_scope.
Notation "m ;;; k" := (xbind m (fun _ => k))
  (at level 61, right associativity) : xmtp_scope.
Open Scope xmtp_scope.

(** [value || dflt] for an optional string: the default stands in for
    [undefined] and for the empty string. *)
Definition orDefault (value : option string) (dflt : string) : string :=
  match value with
  | Some s => if String.eqb s "" then dflt else s
  | None => dflt
  end.

Definition initializeXMTPClient (config : XMTPConfig.t) : X Client :=
  xtry
    (address <- call GetAddress signer_getAddress ;;
     isCreated <- call (CanMessage address) (Client_canMessage address) ;;
     let env := orDefault (XMTPConfig.env config) "production" in
     let appVersion :=
       orDefault (XMTPConfig.appVersion config) "zkvip-ethglobal/1.0.0" in
     client <- call (Create env appVersion) (Client_create env appVersion) ;;
     fun _ =>
       (ret client,
        mkVariables (Some client)
          (mkClientState (Some client) true (Some address))))
    (fun error =>
       xthrow (ThrownError ("Falha ao inicializar XMTP: "
                              ++ messageOr "Erro desconhecido" error))).

Definition getXMTPClient : X (option Client) :=
  fun v => (ret (xmtpClient v), v).

Definition getXMTPClientState : X XMTPClientState :=
  fun v => (ret (clientState v), v).

Definition canMessage (address : string) : X bool :=
  xtry (call (CanMessage address) (Client_canMessage address))
    (fun _ => xret false).

(** [if (!xmtpClient) throw new Error(message)], then the rest with the
    client. *)
Definition withClient {A} (message : string) (rest : Client -> X A) : X A :=
  fun v =>
    match xmtpClient v with
    | None => xthrow (ThrownError message) v
    | Some client => rest client v
    end.

Definition toXMTPConversation (conv : Conversation.t) : XMTPConversation.t :=
  XMTPConversation.mk (Conversation.topic conv) (Conversation.peerAddress conv)
    (Conversation.createdAt conv).

Definition listConversations : X (list XMTPConversation.t) :=
  withClient "Cliente XMTP não inicializado"
    (fun client =>
       xtry
         (conversations <- call List (conversations_list client) ;;
          xret (map toXMTPConversation conversations))
         (fun error => xthrow error)).

Definition createConversation (peerAddress : string) : X Conversation.t :=
  withClient "Cliente XMTP não inicializado"
    (fun client =>
       xtry
         (call (NewConversation peerAddress)
            (conversations_newConversation client peerAddress))
         (fun error => xthrow error)).

(** [conversations.find((conv) => conv.peerAddress === peerAddress) || null] *)
Definition getConversation (peerAddress : string)
  : X (option Conversation.t) :=
  withClient "Cliente XMTP não inicializado"
    (fun client =>
       xtry
         (conversations <- call List (conversations_list client) ;;
          xret (find (fun conv =>
                        String.eqb (Conversation.peerAddress conv) peerAddress)
                  conversations))
         (fun _ => xret None)).

Definition getOrCreateConversation (peerAddress : string)
  : X Conversation.t :=
  existing <- getConversation peerAddress ;;
  match existing with
  | Some conversation => xret conversation
  | None => createConversation peerAddress
  end.

Definition sendMessage (conversation : Conversation.t) (content : string)
  : X DecodedMessage.t :=
  xtry (call (Send conversation content) (conversation_send conversation content))
    (fun error => xthrow error).

(** [typeof content === 'string' ? content : String(content)] *)
Definition contentText (content : Json.JSValue) : Thrown + string :=
  match content with
  | Json.JData (Json.JString s) => inr s
  | _ =>
      Json.String_ toPrimitiveErrorMessage numberToString nativeToString
        content
  end.

(** The [XMTPMessage] made of a message of the SDK; the conversion of its
    content may throw. *)
Definition toXMTPMessage (conversation : Conversation.t)
    (msg : DecodedMessage.t) : Thrown + XMTPMessage.t :=
  match contentText (DecodedMessage.content msg) with
  | inr content =>
      inr (XMTPMessage.mk (DecodedMessage.id msg) content
             (DecodedMessage.senderAddress msg) (DecodedMessage.sent msg)
             (Conversation.topic conversation))
  | inl e => inl e
  end.

Definition listMessages (conversation : Conversation.t) (limit : option float)
  : X (list XMTPMessage.t) :=
  xtry
    (messages <- call (Messages conversation limit)
                   (conversation_messages conversation limit) ;;
     xlift (mapThrowing (toXMTPMessage conversation) messages))
    (fun error => xthrow error).

Definition formatXMTPMessage (message : XMTPMessage.t) : X Formatted.t :=
  fun v =>
    let currentAddress := address (clientState v) in
    let isOwn :=
      match currentAddress with
      | Some current =>
          String.eqb (toLowerCase (XMTPMessage.senderAddress message))
            (toLowerCase current)
      | None => false
      end in
    (ret (Formatted.mk (XMTPMessage.id message) (XMTPMessage.content message)
            (if isOwn then "You"
             else sliceStart 6 (XMTPMessage.senderAddress message) ++ "..."
                    ++ sliceEnd 4 (XMTPMessage.senderAddress message))
            (XMTPMessage.sent message) isOwn),
     v).

Definition disconnectXMTP : X unit :=
  fun v =>
    match xmtpClient v with
    | Some _ => (ret tt, mkVariables None (mkClientState None false None))
    | None => (ret tt, v)
    end.

Definition sendEncryptedMessage (peerAddress content : string)
  : X XMTPMessage.t :=
  withClient
    "Cliente XMTP não inicializado. Chame initializeXMTPClient primeiro."
    (fun _ =>
       xtry
         (canReceive <- canMessage peerAddress ;;
          if negb canReceive
          then xthrow (ThrownError ("O endereço " ++ peerAddress
                                      ++ " não está registrado no XMTP"))
          else
            conversation <- getOrCreateConversation peerAddress ;;
            message <- sendMessage conversation content ;;
            xlift (toXMTPMessage conversation message))
         (fun error => xthrow error)).

Definition receiveMessages (peerAddress : string) (limit : option float)
  : X (list XMTPMessage.t) :=
  withClient
    "Cliente XMTP não inicializado. Chame initializeXMTPClient primeiro."
    (fun _ =>
       xtry
         (conversation <- getConversation peerAddress ;;
          match conversation with
          | None => xret []
          | Some conversation => listMessages conversation limit
          end)
         (fun error => xthrow error)).

End Sdk.

Arguments xret {Client A}.
Arguments xthrow {Client A}.
Arguments xbind {Client A B}.
Arguments xtry {Client A}.
Arguments call {Client A}.
Arguments xlift {Client A}.
Arguments calls {Client A}.
Arguments answer {Client A}.
Arguments variables {Client A}.
Arguments withClient {Client A}.
Arguments xmtpClient {Client}.
Arguments clientState {Client}.
Arguments client {Client}.
Arguments isInitialized {Client}.
Arguments address {Client}.
Arguments mkVariables {Client}.
Arguments mkClientState {Client}.

End Xmtp.

(* ------------------------------------------------------------------ *)
(** * Reading the calls of a run of the pipeline *)

Module VLayerTrace.

Import VLayer.

(** The events other than the reports to the progress callback: the calls a
    run makes to the outside. *)
Definition withoutProgress {Nonce} (trace : list (Event Nonce))
  : list (Event Nonce) :=
  flat_map (fun ev => match ev with Progress _ _ => [] | _ => [ev] end) trace.

End VLayerTrace.

(* ------------------------------------------------------------------ *)
(** * The pipeline with collaborators that may throw

    [vlayerGenerateProof] once more, with its three collaborators as free as
    the source leaves them: a progress callback that returns or throws each
    time it is called, a [generateRandomNonce] that may throw, and a
    [generateProof] that goes on according to what its callback did.  A
    computation takes the trace of the run so far and answers with its
    outcome and the trace then. *)

Module Callbacks.

Import Exec JSNum VLayer VLayerTrace.
Open Scope string_scope.

Definition Run (Event A : Type) : Type :=
  list Event -> (Thrown + A) * list Event.

Definition rret {Event A} (a : A) : Run Event A := fun trace => (inr a, trace).

Definition rthrow {Event A} (e : Thrown) : Run Event A :=
  fun trace => (inl e, trace).

Definition rbind {Event A B} (m : Run Event A) (f : A -> Run Event B)
  : Run Event B :=
  fun trace =>
    match m trace with
    | (inl e, trace') => (inl e, trace')
    | (inr a, trace') => f a trace'
    end.

(** [try { m } catch (error) { handler error }] *)
Definition rtry {Event A} (m : Run Event A) (handler : Thrown -> Run Event A)
  : Run Event A :=
  fun trace =>
    match m trace with
    | (inl e, trace') => handler e trace'
    | (inr a, trace') => (inr a, trace')
    end.

(** A computation that reads nothing of the trace: its events come after
    the trace so far. *)
Definition exec {Event A} (m : M Event A) : Run Event A :=
  fun trace => (outcome m, (trace ++ events m)%list).

Definition result {Event A} (r : (Thrown + A) * list Event) : Thrown + A :=
  fst r.

Definition traceAfter {Event A} (r : (Thrown + A) * list Event)
  : list Event :=
  snd r.

Declare Scope run_scope.
Delimit Scope run_scope with run.
Notation "x <- m ;; k" := (rbind m (fun x => k))
  (at level 61, m at next level, right associativity) : run_scope.
Notation "m ;;; k" := (rbind m (fun _ => k))
  (at level 61, right associativity) : run_scope.
Open Scope run_scope.

(** [generateProof] as its caller sees it: it calls its callback with a
    progress and goes on according to whether the call returned ([None]) or
    threw, or it settles, with a proof or with a thrown value. *)
Inductive ProofRun (ProofResult : Type) : Type :=
| Reports (progress_ : float) (text : string)
    (next : option Thrown -> ProofRun ProofResult)
| Settles (settled : Thrown + ProofResult).
Arguments Reports {ProofResult}.
Arguments Settles {ProofResult}.

(** A [generateProof] that pays no attention to what its callback does:
    the reports, then the outcome. *)
Fixpoint reportsThen {ProofResult} (reports : list (float * string))
    (settled : Thrown + ProofResult) : ProofRun ProofResult :=
  match reports with
  | [] => Settles settled
  | (progress_, text) :: rest =>
      Reports progress_ text (fun _ => reportsThen rest settled)
  end.

(** A progress callback, when there is one, that returns from every call. *)
Definition returning (onProgress : bool)
  : option (list (float * string) -> float -> string -> option Thrown) :=
  if onProgress then Some (fun _ _ _ => None) else None.

(** The calls made to the progress callback, read off a trace. *)
Definition reported {Nonce} (events : list (Event Nonce))
  : list (float * string) :=
  flat_map (fun ev => match ev with Progress p text => [(p, text)] | _ => [] end)
    events.

Section Pipeline.

(** ** What the module is given

    As in [VLayer], but for the collaborators: [generateRandomNonce()]
    returns a nonce or throws; [generateProof(inputs, callback)] is a
    [ProofRun]; and the progress callback, when the caller passed one, is
    given by what each of its calls does, knowing the calls made to it
    before: it returns ([None]) or it throws. *)
Variable ProofResult : Type.
Variable isValid : ProofResult -> bool.
Variable Nonce : Type.
Variable generateRandomNonce : Thrown + Nonce.
Variable generateProof : ProofInputs.t Nonce -> ProofRun ProofResult.
Variable fetch : string -> list (string * string) -> Thrown + Response.t.
Variable Date_now : float.
Variable numberToString : float -> string.
Variable toFixed : float -> nat -> string.
Variable responseData : NubankBankData.t.
Variable onProgress :
  option (list (float * string) -> float -> string -> option Thrown).

Local Abbreviation Ev := (Event Nonce).

(** [onProgress?.(percent, text)] *)
Definition progress (percent : float) (text : string) : Run Ev unit :=
  fun trace =>
    match onProgress with
    | Some callback =>
        (match callback (reported trace) percent text with
         | Some e => inl e
         | None => inr tt
         end,
         (trace ++ [Progress percent text])%list)
    | None => (inr tt, trace)
    end.

(** The calls a [ProofRun] makes to its callback, and what it settles
    with. *)
Fixpoint proofRun (run : ProofRun ProofResult)
    (callback : float -> string -> Run Ev unit) : Run Ev ProofResult :=
  match run with
  | Settles settled => fun trace => (settled, trace)
  | Reports progress_ text next =>
      fun trace =>
        match callback progress_ text trace with
        | (inl e, trace') => proofRun (next (Some e)) callback trace'
        | (inr _, trace') => proofRun (next None) callback trace'
        end
  end.

(** [await generateProof(inputs, callback)] *)
Definition callGenerateProof (inputs : ProofInputs.t Nonce)
    (callback : float -> string -> Run Ev unit) : Run Ev ProofResult :=
  exec (emit (GenerateProof inputs)) ;;;
  proofRun (generateProof inputs) callback.

Definition vlayerGenerateProof (threshold : float)
    (accessToken : option string) : Run Ev (VLayerResult.t ProofResult) :=
  rtry
    (progress 0 "Iniciando VLayer..." ;;;
     progress 10 "Criando WebProof..." ;;;
     webProof <-
       exec (createWebProof Nonce fetch Date_now numberToString responseData
               NUBANK_DATA_URL accessToken) ;;
     progress 20 "Verificando WebProof..." ;;;
     web <- exec (verifyWebProof webProof) ;;
     progress 30 "Extraindo dados bancários..." ;;;
     let bankData := Web.json web in
     if (List.length (NubankBankData.accounts bankData) =? 0)%nat
     then rthrow (ThrownError "Nenhuma conta encontrada no Nubank")
     else
     progress 40 "Selecionando conta..." ;;;
     selectedAccount <-
       exec (Array_reduce higherBalance (NubankBankData.accounts bankData)) ;;
     let balanceBRL := NubankAccount.balance selectedAccount in
     progress 50 "Convertendo saldo..." ;;;
     let balanceInWLD := convertBRLToWLD balanceBRL defaultExchangeRate in
     if (balanceInWLD <? threshold)%float
     then rthrow (ThrownError
                    (insufficientBalanceMessage numberToString toFixed
                       threshold balanceInWLD))
     else
     progress 60 "Gerando nonce..." ;;;
     exec (emit GenerateRandomNonce) ;;;
     nonce <- exec (lift generateRandomNonce) ;;
     progress 70 "Preparando prova ZK..." ;;;
     let proofInputs :=
       ProofInputs.mk (toMicro threshold) nonce (toMicro balanceInWLD) nonce in
     let proofProgressCallback := fun (progress_ : float) (text : string) =>
       progress (mappedProgress progress_) text in
     progress 70 "Gerando prova zero-knowledge..." ;;;
     proof <- callGenerateProof proofInputs proofProgressCallback ;;
     if negb (isValid proof)
     then rthrow (ThrownError "A prova gerada não é válida")
     else
     progress 100 "Prova gerada com sucesso!" ;;;
     rret (VLayerResult.mk webProof web bankData selectedAccount proof
             threshold balanceInWLD))
    (fun error =>
       rthrow (ThrownError
                 (messageOr "Erro desconhecido ao gerar prova com VLayer"
                    error))).

(** ** Reading a run *)

(** The progress callback threw the value, at one of its calls. *)
Definition thrownByCallback (e : Thrown) : Prop :=
  exists callback calls percent text,
    onProgress = Some callback /\ callback calls percent text = Some e.

(** One of the ways a [ProofRun] can go settles with the thrown value. *)
Fixpoint maySettleThrowing (run : ProofRun ProofResult) (e : Thrown) : Prop :=
  match run with
  | Settles (inl e') => e' = e
  | Settles (inr _) => False
  | Reports _ _ next => exists answer, maySettleThrowing (next answer) e
  end.

(** The value was thrown by one of the collaborators: the progress
    callback, [generateRandomNonce] or [generateProof]. *)
Definition thrownByCollaborator (e : Thrown) : Prop :=
  thrownByCallback e
  \/ generateRandomNonce = inl e
  \/ (exists inputs, maySettleThrowing (generateProof inputs) e).

(** Two computations with the same outcome and the same calls to the
    outside, from traces with the same calls: they differ in their reports
    only. *)
Definition sameCalls {A} (m1 m2 : Run Ev A) : Prop :=
  forall t1 t2,
    withoutProgress t1 = withoutProgress t2 ->
    result (m1 t1) = result (m2 t2)
    /\ withoutProgress (traceAfter (m1 t1))
       = withoutProgress (traceAfter (m2 t2)).

End Pipeline.

End Callbacks.

(* ------------------------------------------------------------------ *)
(** * Sample browsers, stores and SDKs *)

Module GroupsSample.

Import Exec Groups.
Open Scope string_scope.

(** [toLowerCase] on the letters of ASCII. *)
Definition lowerChar (c : ascii) : ascii :=
  let n := nat_of_ascii c in
  if ((65 <=? n) && (n <=? 90))%nat then ascii_of_nat (n + 32) else c.

Fixpoint toLowerCase (s : string) : string :=
  match s with
  | EmptyString => EmptyString
  | String c rest => String (lowerChar c) (toLowerCase rest)
  end.

(** A storage that can be read, one that takes every write and one that
    takes none. *)
Definition readable (key : string) : option Thrown := None.

Definition writable (key value : string) : option Thrown := None.

Definition quotaExceeded : Thrown := ThrownError "QuotaExceededError".

Definition full (key value : string) : option Thrown := Some quotaExceeded.

Definition now : string := "2025-11-22T12:00:00.000Z".

Definition builders : AvailableGroup.t :=
  AvailableGroup.mk "zk-builders" "ZK Builders"
    "Discussões diárias sobre ZK, provas e tooling." 0.5%float
    "bg-gradient-to-br from-indigo-600 via-purple-500 to-pink-500"
    124%float.

Definition joinedBuilders : Group.t := newJoinedGroup builders now.

(** A stand-in for JSON on arrays of groups: the text of an array names,
    for each group, its id, its last message and sender and whether it has
    unread messages; the parser knows the arrays of the examples and throws
    on any other text. *)
Definition groupText (g : Group.t) : string :=
  Group.id g ++ "|" ++ Group.lastMessage g ++ "|" ++ Group.lastSender g
    ++ "|" ++ (if PrimFloat.eqb (Group.unread g) 0%float then "0" else "+").

Definition stringifyGroups (l : list Group.t) : string :=
  "[" ++ String.concat "," (map groupText l) ++ "]".

Definition knownGroups : list (list Group.t) :=
  [ [];
    [joinedBuilders];
    [Group.withLastMessage "gm" "Você" joinedBuilders];
    [Group.withUnread 1%float joinedBuilders] ].

Definition parseGroups (text : string) : Thrown + list Group.t :=
  match find (fun l => String.eqb (stringifyGroups l) text) knownGroups with
  | Some l => inr l
  | None => inl (ThrownError "Unexpected token")
  end.

Definition created : AvailableGroup.t :=
  AvailableGroup.mk "builders-sp" "Builders SP" "Grupo criado por você"
    2.5%float "bg-gradient-to-br from-teal-500 via-emerald-500 to-lime-500"
    0%float.

Definition availableText (g : AvailableGroup.t) : string :=
  AvailableGroup.id g ++ "|" ++ AvailableGroup.name g.

Definition stringifyAvailable (l : list AvailableGroup.t) : string :=
  "[" ++ String.concat "," (map availableText l) ++ "]".

Definition knownAvailable : list (list AvailableGroup.t) :=
  [ DEFAULT_AVAILABLE_GROUPS; (DEFAULT_AVAILABLE_GROUPS ++ [created])%list ].

Definition parseAvailable (text : string) : Thrown + list AvailableGroup.t :=
  match find (fun l => String.eqb (stringifyAvailable l) text)
          knownAvailable with
  | Some l => inr l
  | None => inl (ThrownError "Unexpected token")
  end.

(** A browser that has joined "ZK Builders". *)
Definition joinedWorld : World :=
  mkWorld [(STORAGE_KEY, stringifyGroups [joinedBuilders])]
    DEFAULT_AVAILABLE_GROUPS [].

(** The store in a browser with a storage that works. *)
Definition joined : World -> list Group.t :=
  Groups.joined true readable parseGroups.

Definition addJoinedGroup :=
  Groups.addJoinedGroup true readable writable parseGroups stringifyGroups.

Definition updateGroupLastMessage :=
  Groups.updateGroupLastMessage true readable writable parseGroups
    stringifyGroups.

Definition incrementUnread :=
  Groups.incrementUnread true readable writable parseGroups stringifyGroups.

Definition clearUnread :=
  Groups.clearUnread true readable writable parseGroups stringifyGroups.

Definition getAvailableGroups :=
  Groups.getAvailableGroups true readable writable parseAvailable
    stringifyAvailable.

Definition createAvailableGroup :=
  Groups.createAvailableGroup true readable writable parseAvailable
    stringifyAvailable toLowerCase.

(** The same with a storage that is full. *)
Definition createAvailableGroupFull :=
  Groups.createAvailableGroup true readable full parseAvailable
    stringifyAvailable toLowerCase.

End GroupsSample.

Module XmtpSample.

Import Exec Xmtp.
Open Scope string_scope.

Definition peer : string := "0x70997970C51812dc3A010C7d01b50e0d17dc79C8".

Definition conversation : Conversation.t :=
  Conversation.mk "/xmtp/0/m-1/proto" peer 1700000000000%float.

Definition reply : DecodedMessage.t :=
  DecodedMessage.mk "msg-1" (Json.JData (Json.JString "gm")) peer
    1700000001000%float.

(** An SDK with one client, whose only conversation is the one with
    [peer]. *)
Definition canMessage (address : string) : Thrown + bool := inr true.

Definition listed (client : unit) : Thrown + list Conversation.t :=
  inr [conversation].

Definition newConversation (client : unit) (peerAddress : string)
  : Thrown + Conversation.t :=
  inr (Conversation.mk "/xmtp/0/m-2/proto" peerAddress 1700000002000%float).

Definition send (conv : Conversation.t) (content : string)
  : Thrown + DecodedMessage.t :=
  inr (DecodedMessage.mk "msg-2" (Json.JData (Json.JString content)) "0xme"
         1700000003000%float).

Definition messages (conv : Conversation.t) (limit : option float)
  : Thrown + list DecodedMessage.t :=
  inr [reply].

Definition connected : Variables unit :=
  mkVariables (Some tt) (mkClientState (Some tt) true (Some "0xme")).

Definition sendEncryptedMessage :=
  Xmtp.sendEncryptedMessage unit canMessage listed newConversation send
    Sample.toPrimitiveErrorMessage Sample.numberToString Sample.nativeToString.

Definition receiveMessages :=
  Xmtp.receiveMessages unit listed messages Sample.toPrimitiveErrorMessage
    Sample.numberToString Sample.nativeToString.

End XmtpSample.

Module CallbacksSample.

Import Exec VLayer Callbacks.
Open Scope string_scope.

(** A progress callback that throws from its fourth call on. *)
Definition closedPanel : Thrown := ThrownError "O painel foi fechado".

Definition callback (calls : list (float * string)) (percent : float)
    (text : string) : option Thrown :=
  if (3 <=? List.length calls)%nat then Some closedPanel else None.

(** A [generateProof] that reports one step and gives up when its callback
    throws. *)
Definition proves (inputs : ProofInputs.t string)
  : ProofRun Sample.Proof :=
  Reports 50%float "constraints"
    (fun answer =>
       match answer with
       | Some e => Settles (inl e)
       | None => Settles (inr (Sample.mkProof true "0xproof"))
       end).

Definition run (threshold : float) :=
  Callbacks.vlayerGenerateProof Sample.Proof Sample.valid string
    (inr Sample.nonce) proves Sample.fetchOk Sample.now Sample.numberToString
    Sample.toFixed mockNubankResponse (Some callback) threshold None [].

End CallbacksSample.

(* ================================================================== *)
(** * Properties *)

(* ------------------------------------------------------------------ *)
(** ** Order of binary64 numbers *)

Module JSNumFacts.

Import JSNum.

Ltac sf_order :=
  repeat match goal with
    | s : bool |- _ => destruct s
    | |- context [Z.compare ?a ?b] => destruct (Z.compare_spec a b)
    | |- context [Pos.compare_cont Eq ?a ?b] =>
        change (Pos.compare_cont Eq a b) with (Pos.compare a b);
        destruct (Pos.compare_spec a b)
    | H : context [Z.compare ?a ?b] |- _ => destruct (Z.compare_spec a b)
    | H : context [Pos.compare_cont Eq ?a ?b] |- _ =>
        change (Pos.compare_cont Eq a b) with (Pos.compare a b) in H;
        destruct (Pos.compare_spec a b)
    end; simpl in *; try reflexivity; try discriminate; try lia.

Lemma SFltb_false_leb x y :
  SFisNaN x = false -> SFisNaN y = false ->
  SFltb x y = false -> SFleb y x = true.
Proof.
  unfold SFltb, SFleb.
  destruct x, y; simpl; intros; try discriminate; try reflexivity; sf_order.
Qed.

Lemma SFltb_leb x y : SFltb x y = true -> SFleb x y = true.
Proof.
  unfold SFltb, SFleb. destruct (SFcompare x y) as [[]|]; easy.
Qed.

Lemma SFleb_ltb_trans x y z :
  SFleb x y = true -> SFltb y z = true -> SFltb x z = true.
Proof.
  unfold SFltb, SFleb.
  destruct x, y, z; simpl; intros; try discriminate; try reflexivity; sf_order.
Qed.

Lemma SFleb_refl x : SFisNaN x = false -> SFleb x x = true.
Proof.
  unfold SFleb.
  destruct x as [s|s| |s m e]; simpl; intros; try discriminate;
    try (destruct s; reflexivity).
  destruct s; rewrite Z.compare_refl;
    change (Pos.compare_cont Eq m m) with (Pos.compare m m);
    rewrite Pos.compare_refl; reflexivity.
Qed.

(** A number that is not NaN is not the NaN of the specification. *)
Lemma Prim2SF_not_nan x : isNaN x = false -> SFisNaN (Prim2SF x) = false.
Proof.
  unfold isNaN, Prim2SF. intros ->.
  destruct (is_zero x); [reflexivity|].
  destruct (is_infinity x); [reflexivity|].
  destruct (Z.frexp x) as [r ex].
  destruct (shr_fexp _ _ _ _ _) as [mrs e'].
  destruct (shr_m mrs); reflexivity.
Qed.

Lemma ltb_false_leb x y :
  isNaN x = false -> isNaN y = false ->
  (x <? y)%float = false -> (y <=? x)%float = true.
Proof.
  intros Hx Hy. rewrite ltb_spec, leb_spec.
  apply SFltb_false_leb; now apply Prim2SF_not_nan.
Qed.

Lemma ltb_leb x y : (x <? y)%float = true -> (x <=? y)%float = true.
Proof. rewrite ltb_spec, leb_spec. apply SFltb_leb. Qed.

Lemma leb_ltb_trans x y z :
  (x <=? y)%float = true -> (y <? z)%float = true -> (x <? z)%float = true.
Proof. rewrite !ltb_spec, leb_spec. apply SFleb_ltb_trans. Qed.

Lemma leb_refl x : isNaN x = false -> (x <=? x)%float = true.
Proof. intros H. rewrite leb_spec. now apply SFleb_refl, Prim2SF_not_nan. Qed.

(** *** The sign of a rounded product *)

Lemma iter_pos_invariant {A} (P : A -> Prop) (f : A -> A) :
  (forall x, P x -> P (f x)) -> forall n x, P x -> P (iter_pos f n x).
Proof.
  intros Hf. induction n as [n IH|n IH|]; intros x Hx; simpl; auto.
Qed.

Lemma shr_1_nonneg mrs : (0 <= shr_m mrs)%Z -> (0 <= shr_m (shr_1 mrs))%Z.
Proof.
  destruct mrs as [m r s]. simpl.
  destruct m as [|[p|p|]|[p|p|]]; simpl; lia.
Qed.

Lemma shr_fexp_nonneg prec emax m e l :
  (0 <= m)%Z -> (0 <= shr_m (fst (shr_fexp prec emax m e l)))%Z.
Proof.
  intros Hm. unfold shr_fexp, shr.
  assert (H0 : (0 <= shr_m (shr_record_of_loc m l))%Z)
    by (destruct l as [|[]]; exact Hm).
  destruct (_ - e)%Z; simpl; auto.
  apply iter_pos_invariant; auto using shr_1_nonneg.
Qed.

Lemma round_nearest_even_nonneg m l :
  (0 <= m)%Z -> (0 <= round_nearest_even m l)%Z.
Proof.
  intros Hm. destruct l as [|[]]; simpl; try lia.
  destruct (Z.even m); lia.
Qed.

(** Rounding keeps the sign and never yields NaN. *)
Lemma binary_round_aux_sign prec emax sx mx ex lx :
  (0 <= mx)%Z -> SFsignIs sx (binary_round_aux prec emax sx mx ex lx).
Proof.
  intros Hm. unfold binary_round_aux.
  pose proof (shr_fexp_nonneg prec emax mx ex lx Hm) as H1.
  destruct (shr_fexp prec emax mx ex lx) as [mrs' e']. simpl in H1.
  pose proof (shr_fexp_nonneg prec emax _ e' loc_Exact
                (round_nearest_even_nonneg _ (loc_of_shr_record mrs') H1))
    as H2.
  destruct (shr_fexp prec emax _ e' loc_Exact) as [mrs'' e'']. simpl in H2.
  destruct (shr_m mrs''); simpl; try lia; auto.
  destruct (e'' <=? emax - prec)%Z; reflexivity.
Qed.

Lemma SFmul_neg_pos_lt x c t :
  SFltb x (S754_zero false) = true ->
  SFltb (S754_zero false) c = true ->
  SFltb (S754_zero false) t = true ->
  SFltb (SF64mul x c) t = true.
Proof.
  unfold SF64mul.
  destruct x as [sx|sx| |sx mx ex]; try discriminate;
    destruct c as [sc|sc| |sc mc ec]; try discriminate;
    destruct sx; try discriminate; destruct sc; try discriminate;
    intros _ _.
  1-3: destruct t as [st|st| |st mt et]; try discriminate;
    destruct st; try discriminate; reflexivity.
  simpl SFmul.
  pose proof (binary_round_aux_sign prec emax (xorb true false)
                (Zpos (mx * mc)) (ex + ec) loc_Exact ltac:(lia)) as H.
  destruct (binary_round_aux _ _ _ _ _ _) as [s|s| |s m e];
    simpl in H; try contradiction; subst s;
    destruct t as [st|st| |st mt et]; try discriminate;
    destruct st; try discriminate; reflexivity.
Qed.

(** A negative number times a positive one is below every positive number
    (the product may be [-0] or minus infinity, never NaN or positive). *)
Lemma mul_neg_pos_lt x c t :
  (x <? 0)%float = true -> (0 <? c)%float = true -> (0 <? t)%float = true ->
  (x * c <? t)%float = true.
Proof.
  rewrite !ltb_spec, mul_spec.
  change (Prim2SF 0) with (S754_zero false).
  apply SFmul_neg_pos_lt.
Qed.

(** *** [Math.floor] takes the integer part of the exact value *)

Lemma floorZ_bounds (s : bool) (m : positive) (e : Z) :
  (e < 0)%Z ->
  (floorZ s m e * 2 ^ (- e) <= signedMantissa s m
   < (floorZ s m e + 1) * 2 ^ (- e))%Z.
Proof.
  intros He. unfold floorZ.
  destruct (Z.ltb_spec e 0) as [_|]; [|lia].
  rewrite Z.shiftr_div_pow2 by lia.
  assert (Hpos : (0 < 2 ^ (- e))%Z) by (apply Z.pow_pos_nonneg; lia).
  pose proof (Z.mul_div_le (signedMantissa s m) _ Hpos).
  pose proof (Z.mul_succ_div_gt (signedMantissa s m) _ Hpos).
  lia.
Qed.

Lemma Math_floor_finite (x : float) (s : bool) (m : positive) (e : Z) :
  Prim2SF x = S754_finite s m e ->
  Math_floor x = if (e <? 0)%Z then Z2float (floorZ s m e) else x.
Proof. unfold Math_floor. now intros ->. Qed.

(** Two numbers with different images are different. *)
Lemma float_neq (x y : float) : Prim2SF x <> Prim2SF y -> x <> y.
Proof. congruence. Qed.

End JSNumFacts.

(* ------------------------------------------------------------------ *)
(** ** Rounding, products and [Math.floor] keep the order *)

Module Binary64Facts.

Import JSNum Binary64.
Open Scope Z_scope.

(** *** Binary digits *)

Lemma digits2_size p : digits2_pos p = Pos.size p.
Proof. induction p; simpl; congruence. Qed.

Lemma D_pos p : 0 < D p.
Proof. unfold D. lia. Qed.

Lemma D_upper p : Zpos p < 2 ^ D p.
Proof.
  unfold D. rewrite digits2_size.
  pose proof (Pos.size_gt p) as H.
  assert (H' : Zpos p < Zpos (2 ^ Pos.size p)) by lia.
  now rewrite Pos2Z.inj_pow in H'.
Qed.

Lemma D_lower p : 2 ^ (D p - 1) <= Zpos p.
Proof.
  unfold D. rewrite digits2_size.
  pose proof (Pos.size_le p) as H.
  assert (H2 : 2 ^ Zpos (Pos.size p) <= 2 * Zpos p).
  { rewrite <- Pos2Z.inj_pow. lia. }
  replace (Zpos (Pos.size p)) with (Z.succ (Zpos (Pos.size p) - 1)) in H2 by lia.
  rewrite Z.pow_succ_r in H2 by lia. lia.
Qed.

Lemma D_unique p d : 2 ^ (d - 1) <= Zpos p < 2 ^ d -> D p = d.
Proof.
  intros [Hl Hu].
  pose proof (D_lower p). pose proof (D_upper p). pose proof (D_pos p).
  assert (d - 1 < D p).
  { apply (Z.pow_lt_mono_r_iff 2); lia. }
  assert (0 < d).
  { destruct (Z.ltb_spec 0 d); auto. rewrite Z.pow_neg_r in Hl by lia.
    assert (d = 0 \/ d < 0) as [->|] by lia; simpl in *; try lia.
    rewrite Z.pow_neg_r in Hu by lia. lia. }
  assert (D p - 1 < d).
  { apply (Z.pow_lt_mono_r_iff 2); lia. }
  lia.
Qed.

Lemma D_mono p q : (p <= q)%positive -> D p <= D q.
Proof.
  intros H.
  pose proof (D_lower p). pose proof (D_upper q). pose proof (D_pos p). pose proof (D_pos q).
  assert (D p - 1 < D q).
  { apply (Z.pow_lt_mono_r_iff 2); lia. }
  lia.
Qed.

(** *** Right shifts and round-to-nearest-even *)

(** [iter_pos] is plain iteration. *)
Lemma iter_pos_nat {A} (f : A -> A) p x :
  iter_pos f p x = Nat.iter (Pos.to_nat p) f x.
Proof.
  revert x. induction p as [p IH|p IH|]; intros x; simpl iter_pos.
  - rewrite !IH. rewrite Pos2Nat.inj_xI.
    rewrite <- Nat.iter_add. rewrite <- Nat.iter_succ_r. f_equal. lia.
  - rewrite !IH. rewrite Pos2Nat.inj_xO.
    rewrite <- Nat.iter_add. f_equal. lia.
  - reflexivity.
Qed.

Lemma shr_1_nonneg_eq q r s :
  0 <= q ->
  shr_1 (Build_shr_record q r s) = Build_shr_record (Z.div2 q) (Z.odd q) (r || s).
Proof.
  intros Hq. destruct q as [|[p|p|]|p]; try lia; reflexivity.
Qed.

(** [k] right shifts of a non-negative mantissa, in closed form. *)
Lemma shr_iter k m :
  0 <= m ->
  Nat.iter k shr_1 (Build_shr_record m false false) = shifted m (Z.of_nat k).
Proof.
  intros Hm. induction k as [|k IH].
  - unfold shifted. simpl. rewrite Z.div_1_r, Z.mod_1_r. reflexivity.
  - rewrite Nat.iter_succ, IH. unfold shifted.
    rewrite Nat2Z.inj_succ.
    set (K := Z.of_nat k).
    assert (HK : 0 <= K) by lia.
    assert (HP : 0 < 2 ^ K) by (apply Z.pow_pos_nonneg; lia).
    rewrite shr_1_nonneg_eq by (apply Z.div_pos; lia).
    rewrite Z.pow_succ_r by lia.
    rewrite Z.div2_div, Z.div_div by lia.
    rewrite (Z.mul_comm (2 ^ K) 2).
    assert (E3 : m mod (2 * 2 ^ K) = (m / 2 ^ K) mod 2 * 2 ^ K + m mod 2 ^ K).
    { pose proof (Z.div_mod m (2 ^ K) ltac:(lia)) as E1.
      pose proof (Z.mod_pos_bound m (2 ^ K) HP) as B1.
      pose proof (Z.div_mod (m / 2 ^ K) 2 ltac:(discriminate)) as E2.
      pose proof (Z.mod_pos_bound (m / 2 ^ K) 2 eq_refl) as B2.
      symmetry. apply Z.mod_unique_pos with (q := m / 2 ^ K / 2).
      - nia.
      - rewrite E1 at 1. rewrite E2 at 1. ring. }
    rewrite E3, Zmod_odd. clear E3.
    pose proof (Z.mod_pos_bound m (2 ^ K) HP) as B1.
    set (rem := m mod 2 ^ K) in *.
    set (b := Z.odd (m / 2 ^ K)) in *.
    set (P := 2 ^ K) in *.
    clearbody rem b P.
    f_equal.
    + destruct b, (Z.leb_spec (2 * P) (2 * (1 * P + rem))),
        (Z.leb_spec (2 * P) (2 * (0 * P + rem))); try reflexivity; nia.
    + destruct b;
      destruct (Z.leb_spec P (2 * rem)), (Z.eqb_spec rem 0), (Z.eqb_spec (2 * rem) P),
        (Z.eqb_spec (1 * P + rem) 0), (Z.eqb_spec (2 * (1 * P + rem)) (2 * P)),
        (Z.eqb_spec (0 * P + rem) 0), (Z.eqb_spec (2 * (0 * P + rem)) (2 * P));
        simpl; try reflexivity; nia.
Qed.

(** Rounding the shifted record to nearest-even is [RNE]. *)
Lemma round_shifted m k :
  0 <= k ->
  round_nearest_even (shr_m (shifted m k)) (loc_of_shr_record (shifted m k)) = RNE k m.
Proof.
  intros Hk. unfold shifted, RNE. cbv zeta. simpl shr_m.
  set (rem := m mod 2 ^ k). set (P := 2 ^ k). set (q := m / P).
  assert (HP : 0 < P) by (apply Z.pow_pos_nonneg; lia).
  pose proof (Z.mod_pos_bound m P HP) as B1. fold rem in B1.
  unfold loc_of_shr_record.
  destruct (Z.leb_spec P (2 * rem)), (Z.eqb_spec rem 0), (Z.eqb_spec (2 * rem) P),
    (Z.ltb_spec P (2 * rem)), (Z.eqb_spec P (2 * rem)); simpl; try lia; try reflexivity.
  rewrite <- Z.negb_odd. destruct (Z.odd q); reflexivity.
Qed.

Lemma shr_shape m e n :
  0 <= m -> 0 <= n ->
  shr (Build_shr_record m false false) e n = (shifted m n, e + n).
Proof.
  intros Hm Hn. unfold shr. destruct n as [|p|p]; try lia.
  - unfold shifted. simpl. rewrite Z.div_1_r, Z.mod_1_r, Z.add_0_r. reflexivity.
  - rewrite iter_pos_nat, shr_iter by lia. rewrite positive_nat_Z. reflexivity.
Qed.

Lemma RNE_bounds k m : 0 <= k -> m / 2 ^ k <= RNE k m <= m / 2 ^ k + 1.
Proof.
  intros Hk. unfold RNE. cbv zeta.
  destruct (_ || _); lia.
Qed.

Lemma RNE_upper k j m :
  0 <= k -> 0 <= j -> 0 <= m < 2 ^ (k + j) -> 0 <= RNE k m <= 2 ^ j.
Proof.
  intros Hk Hj [Hm Hu].
  pose proof (RNE_bounds k m Hk) as [Hl Hr].
  assert (HP : 0 < 2 ^ k) by (apply Z.pow_pos_nonneg; lia).
  assert (0 <= m / 2 ^ k) by (apply Z.div_pos; lia).
  assert (m / 2 ^ k < 2 ^ j).
  { apply Z.div_lt_upper_bound; auto. rewrite <- Z.pow_add_r by lia. exact Hu. }
  lia.
Qed.

Lemma RNE_lower k j m :
  0 <= k -> 0 <= j -> 2 ^ (k + j) <= m -> 2 ^ j <= RNE k m.
Proof.
  intros Hk Hj Hm.
  pose proof (RNE_bounds k m Hk) as [Hl Hr].
  assert (HP : 0 < 2 ^ k) by (apply Z.pow_pos_nonneg; lia).
  assert (2 ^ j <= m / 2 ^ k).
  { apply Z.div_le_lower_bound; auto. rewrite <- Z.pow_add_r by lia. exact Hm. }
  lia.
Qed.

(** [RNE] is monotone, and unchanged when numerator and denominator are
    scaled together. *)
Lemma RNE_mono k m m' : 0 <= k -> m <= m' -> RNE k m <= RNE k m'.
Proof.
  intros Hk Hm.
  assert (HP : 0 < 2 ^ k) by (apply Z.pow_pos_nonneg; lia).
  pose proof (Z.div_le_mono m m' (2 ^ k) HP Hm) as Hq.
  pose proof (RNE_bounds k m Hk) as [Hl Hr].
  pose proof (RNE_bounds k m' Hk) as [Hl' Hr'].
  destruct (Z.eq_dec (m / 2 ^ k) (m' / 2 ^ k)) as [Heq|Hne]; [|lia].
  unfold RNE. cbv zeta. rewrite <- Heq.
  pose proof (Z.div_mod m (2 ^ k) ltac:(lia)) as E1.
  pose proof (Z.div_mod m' (2 ^ k) ltac:(lia)) as E2.
  rewrite <- Heq in E2.
  assert (Hrem : m mod 2 ^ k <= m' mod 2 ^ k) by lia.
  destruct (Z.ltb_spec (2 ^ k) (2 * (m mod 2 ^ k))),
    (Z.eqb_spec (2 ^ k) (2 * (m mod 2 ^ k))),
    (Z.ltb_spec (2 ^ k) (2 * (m' mod 2 ^ k))),
    (Z.eqb_spec (2 ^ k) (2 * (m' mod 2 ^ k)));
    simpl; destruct (Z.odd (m / 2 ^ k)); simpl; lia.
Qed.

Lemma RNE_scale k j m : 0 <= k -> 0 <= j -> RNE (k + j) (m * 2 ^ j) = RNE k m.
Proof.
  intros Hk Hj. unfold RNE. cbv zeta.
  assert (HP : 0 < 2 ^ k) by (apply Z.pow_pos_nonneg; lia).
  assert (HQ : 0 < 2 ^ j) by (apply Z.pow_pos_nonneg; lia).
  rewrite Z.pow_add_r by lia.
  rewrite Z.div_mul_cancel_r by lia.
  rewrite Z.mul_mod_distr_r by lia.
  set (rem := m mod 2 ^ k). set (P := 2 ^ k) in *. set (Q := 2 ^ j) in *.
  replace (P * Q <? 2 * (rem * Q)) with (P <? 2 * rem).
  2:{ destruct (Z.ltb_spec P (2 * rem)), (Z.ltb_spec (P * Q) (2 * (rem * Q))); try reflexivity; nia. }
  replace (P * Q =? 2 * (rem * Q)) with (P =? 2 * rem).
  2:{ destruct (Z.eqb_spec P (2 * rem)), (Z.eqb_spec (P * Q) (2 * (rem * Q))); try reflexivity; nia. }
  reflexivity.
Qed.

(** *** The shape of a rounding *)

Lemma cexp_spec m e : cexp m e = Z.max (D m + e - 53) (-1074).
Proof. reflexivity. Qed.

(** The rounding of SpecFloat, for an exact positive mantissa at least as
    fine as the format asks: one shift to the format's exponent, nearest-even,
    and at most a carry. *)
Lemma binary_round_aux_shape s m e :
  e <= cexp m e ->
  binary_round_aux prec emax s (Zpos m) e loc_Exact
  = roundResult s (RNE (cexp m e - e) (Zpos m)) (cexp m e).
Proof.
  intros HP. unfold binary_round_aux, shr_fexp.
  change (Zdigits2 (Zpos m)) with (D m).
  change (fexp prec emax (D m + e)) with (cexp m e).
  set (E := cexp m e) in *.
  change (shr_record_of_loc (Zpos m) loc_Exact)
    with (Build_shr_record (Zpos m) false false).
  rewrite shr_shape by lia.
  rewrite round_shifted by lia.
  replace (e + (E - e)) with E by lia.
  assert (HE : -1074 <= E) by (unfold E; rewrite cexp_spec; lia).
  assert (HM : 0 <= RNE (E - e) (Zpos m) <= 2 ^ 53).
  { apply RNE_upper; try lia. split; [lia|].
    pose proof (D_upper m) as Hu. pose proof (D_pos m).
    eapply Z.lt_le_trans; [exact Hu|].
    apply Z.pow_le_mono_r; [lia|]. unfold E. rewrite cexp_spec. lia. }
  set (M := RNE (E - e) (Zpos m)) in *. clearbody M.
  change (shr_record_of_loc M loc_Exact) with (Build_shr_record M false false).
  unfold roundResult.
  destruct M as [|p|p]; [| |lia].
  - (* zero *)
    change (Zdigits2 0) with 0. unfold fexp, SpecFloat.emin.
    change prec with 53. change emax with 1024.
    unfold shr. destruct (Z.max (0 + E - 53) (3 - 1024 - 53) - E) eqn:Hn; try reflexivity; lia.
  - destruct (Z.eqb_spec (Zpos p) (2 ^ prec)) as [Heq|Hne].
    + (* carry *)
      change (2 ^ prec) with (Zpos (2 ^ 53)%positive) in Heq. injection Heq as ->.
      change (Zdigits2 (Zpos (2 ^ 53))) with 54.
      unfold fexp, SpecFloat.emin. change prec with 53. change emax with 1024.
      replace (Z.max (54 + E - 53) (3 - 1024 - 53) - E) with 1 by lia.
      reflexivity.
    + change (2 ^ prec) with (2 ^ 53) in Hne.
      assert (Hd : D p <= 53).
      { pose proof (D_lower p). pose proof (D_pos p).
        assert (D p - 1 < 53) by (apply (Z.pow_lt_mono_r_iff 2); lia). lia. }
      change (Zdigits2 (Zpos p)) with (D p).
      unfold fexp, SpecFloat.emin. change prec with 53. change emax with 1024.
      unfold shr. destruct (Z.max (D p + E - 53) (3 - 1024 - 53) - E) eqn:Hn; try reflexivity; lia.
Qed.

(** *** Rounding is monotone *)

Lemma vle_base b m1 e1 m2 e2 :
  b <= e1 -> b <= e2 ->
  (vle m1 e1 m2 e2 <-> Zpos m1 * 2 ^ (e1 - b) <= Zpos m2 * 2 ^ (e2 - b)).
Proof.
  intros H1 H2. unfold vle.
  set (c := Z.min e1 e2).
  assert (Hc : b <= c) by (unfold c; lia).
  assert (Hc1 : c <= e1) by (unfold c; lia).
  assert (Hc2 : c <= e2) by (unfold c; lia).
  replace (e1 - b) with ((e1 - c) + (c - b)) by lia.
  replace (e2 - b) with ((e2 - c) + (c - b)) by lia.
  rewrite !Z.pow_add_r by lia.
  assert (HQ : 0 < 2 ^ (c - b)) by (apply Z.pow_pos_nonneg; lia).
  rewrite !Z.mul_assoc.
  split; intros H.
  - apply Z.mul_le_mono_nonneg_r; lia.
  - apply Z.mul_le_mono_pos_r in H; lia.
Qed.

Lemma vle_digits m1 e1 m2 e2 : vle m1 e1 m2 e2 -> D m1 + e1 <= D m2 + e2.
Proof.
  unfold vle. set (b := Z.min e1 e2). intros H.
  assert (Hb1 : b <= e1) by (unfold b; lia).
  assert (Hb2 : b <= e2) by (unfold b; lia).
  pose proof (D_lower m1) as L1. pose proof (D_upper m2) as U2.
  pose proof (D_pos m1). pose proof (D_pos m2).
  assert (HQ1 : 0 < 2 ^ (e1 - b)) by (apply Z.pow_pos_nonneg; lia).
  assert (HQ2 : 0 < 2 ^ (e2 - b)) by (apply Z.pow_pos_nonneg; lia).
  assert (2 ^ (D m1 - 1 + (e1 - b)) < 2 ^ (D m2 + (e2 - b))).
  { rewrite !Z.pow_add_r by lia. nia. }
  assert (D m1 - 1 + (e1 - b) < D m2 + (e2 - b)).
  { apply (Z.pow_lt_mono_r_iff 2); lia. }
  lia.
Qed.

Lemma cexp_mono m1 e1 m2 e2 : vle m1 e1 m2 e2 -> cexp m1 e1 <= cexp m2 e2.
Proof.
  intros H. apply vle_digits in H. rewrite !cexp_spec. lia.
Qed.

Lemma rndM_bounds m e : e <= cexp m e -> 0 <= rndM m e <= 2 ^ 53.
Proof.
  intros HP. unfold rndM. apply RNE_upper; try lia. split; [lia|].
  pose proof (D_upper m) as Hu. pose proof (D_pos m).
  eapply Z.lt_le_trans; [exact Hu|].
  apply Z.pow_le_mono_r; [lia|]. rewrite cexp_spec. lia.
Qed.

(** Of two exact values in order, the roundings are in order: at the same
    exponent by [RNE_mono], at different exponents because the larger one is
    normal. *)
Lemma rnd_ordered m1 e1 m2 e2 :
  e1 <= cexp m1 e1 -> e2 <= cexp m2 e2 -> vle m1 e1 m2 e2 ->
  ordered (rndM m1 e1) (cexp m1 e1) (rndM m2 e2) (cexp m2 e2).
Proof.
  intros P1 P2 Hv.
  pose proof (rndM_bounds m1 e1 P1). pose proof (rndM_bounds m2 e2 P2).
  pose proof (cexp_mono _ _ _ _ Hv) as HE.
  split; [assumption|]. split; [assumption|].
  destruct (Z.eq_dec (cexp m1 e1) (cexp m2 e2)) as [Heq|Hne].
  - left. split; [assumption|].
    set (b := Z.min e1 e2).
    assert (Hb1 : b <= e1) by (unfold b; lia).
    assert (Hb2 : b <= e2) by (unfold b; lia).
    unfold rndM.
    rewrite <- (RNE_scale (cexp m1 e1 - e1) (e1 - b)) by lia.
    rewrite <- (RNE_scale (cexp m2 e2 - e2) (e2 - b)) by lia.
    replace (cexp m1 e1 - e1 + (e1 - b)) with (cexp m2 e2 - b) by lia.
    replace (cexp m2 e2 - e2 + (e2 - b)) with (cexp m2 e2 - b) by lia.
    apply RNE_mono; [lia|]. exact Hv.
  - right. split; [lia|].
    unfold rndM.
    assert (Hc2 : cexp m2 e2 = D m2 + e2 - 53).
    { pose proof (cexp_spec m1 e1). pose proof (cexp_spec m2 e2). lia. }
    apply RNE_lower; try lia.
    replace (cexp m2 e2 - e2 + 52) with (D m2 - 1) by lia.
    apply D_lower.
Qed.

Lemma finOrInf_le p1 E1 p2 E2 :
  E1 < E2 \/ (E1 = E2 /\ (p1 <= p2)%positive) ->
  SFleb (finOrInf false p1 E1) (finOrInf false p2 E2) = true
  /\ SFleb (finOrInf true p2 E2) (finOrInf true p1 E1) = true.
Proof.
  intros H. unfold finOrInf.
  destruct (Z.leb_spec E1 (emax - prec)), (Z.leb_spec E2 (emax - prec));
    unfold SFleb; simpl; try (split; reflexivity); try lia.
  destruct (Z.compare_spec E1 E2), (Z.compare_spec E2 E1); try lia;
    try (split; reflexivity).
  change (Pos.compare_cont Eq p1 p2) with (Pos.compare p1 p2).
  change (Pos.compare_cont Eq p2 p1) with (Pos.compare p2 p1).
  destruct (Pos.compare_spec p1 p2), (Pos.compare_spec p2 p1); simpl;
    try (split; reflexivity); lia.
Qed.

Lemma finOrInf_zero s p E :
  SFleb (S754_zero false) (finOrInf false p E) = true
  /\ SFleb (finOrInf true p E) (S754_zero s) = true.
Proof.
  unfold finOrInf. destruct (E <=? emax - prec); split; reflexivity.
Qed.

(** Ordered mantissas give ordered floats, in the order of the floats for
    the positive sign and in the reverse order for the negative one. *)
Lemma roundResult_le M1 E1 M2 E2 :
  ordered M1 E1 M2 E2 ->
  SFleb (roundResult false M1 E1) (roundResult false M2 E2) = true
  /\ SFleb (roundResult true M2 E2) (roundResult true M1 E1) = true.
Proof.
  intros (B1 & B2 & H).
  unfold roundResult. change (2 ^ prec) with (2 ^ 53).
  destruct M1 as [|p1|p1], M2 as [|p2|p2]; try lia.
  - split; reflexivity.
  - destruct (Zpos p2 =? 2 ^ 53); split; apply (finOrInf_zero true).
  - assert (C53 : 2 ^ 53 = 9007199254740992) by reflexivity.
    assert (C52 : 2 ^ 52 = 4503599627370496) by reflexivity.
    assert (P52 : Zpos (2 ^ 52)%positive = 4503599627370496) by reflexivity.
    destruct (Z.eqb_spec (Zpos p1) (2 ^ 53)), (Z.eqb_spec (Zpos p2) (2 ^ 53));
      apply finOrInf_le; lia.
Qed.

(** *** Valid finite numbers are their own rounding *)

Lemma valid_finite s m e :
  valid_binary (S754_finite s m e) = true -> cexp m e = e /\ e <= 971.
Proof.
  unfold SpecFloat.valid_binary, bounded, canonical_mantissa.
  intros H. apply andb_true_iff in H as [H1 H2].
  apply Z.eqb_eq in H1. apply Z.leb_le in H2.
  split; [exact H1|exact H2].
Qed.

Lemma valid_digits s m e :
  valid_binary (S754_finite s m e) = true ->
  D m <= 53 /\ -1074 <= e /\ (-1074 < e -> D m = 53).
Proof.
  intros H. apply valid_finite in H as [H _]. rewrite cexp_spec in H. lia.
Qed.

Lemma RNE_0 m : RNE 0 m = m.
Proof.
  unfold RNE. cbv zeta. change (2 ^ 0) with 1.
  rewrite Z.div_1_r, Z.mod_1_r. reflexivity.
Qed.

(** A valid finite number is the rounding of its own value. *)
Lemma valid_round s m e :
  valid_binary (S754_finite s m e) = true ->
  S754_finite s m e = roundResult s (rndM m e) (cexp m e).
Proof.
  intros H. pose proof (valid_digits s m e H) as (Hd & _ & _).
  apply valid_finite in H as [Hc He].
  unfold rndM. rewrite Hc, Z.sub_diag, RNE_0.
  unfold roundResult, finOrInf.
  pose proof (D_upper m) as Hu.
  assert (Zpos m < 2 ^ 53).
  { eapply Z.lt_le_trans; [exact Hu|]. apply Z.pow_le_mono_r; lia. }
  destruct (Z.eqb_spec (Zpos m) (2 ^ prec)) as [Heq|_].
  { change (2 ^ prec) with (2 ^ 53) in Heq. lia. }
  destruct (Z.leb_spec e (emax - prec)) as [_|Hgt]; [reflexivity|].
  change (emax - prec) with 971 in Hgt. lia.
Qed.

(** On valid numbers the order of the floats is the order of the values. *)
Lemma valid_vle m1 e1 m2 e2 :
  valid_binary (S754_finite false m1 e1) = true ->
  valid_binary (S754_finite false m2 e2) = true ->
  SFleb (S754_finite false m1 e1) (S754_finite false m2 e2) = true ->
  vle m1 e1 m2 e2.
Proof.
  intros V1 V2.
  pose proof (valid_digits _ _ _ V1) as (Hd1 & Hm1 & Hn1).
  pose proof (valid_digits _ _ _ V2) as (Hd2 & Hm2 & Hn2).
  unfold SFleb. simpl.
  destruct (Z.compare_spec e1 e2) as [->|Hlt|Hgt].
  - change (Pos.compare_cont Eq m1 m2) with (Pos.compare m1 m2).
    destruct (Pos.compare_spec m1 m2); try discriminate; intros _;
      unfold vle; rewrite Z.min_id, Z.sub_diag; simpl; lia.
  - intros _. unfold vle. rewrite Z.min_l by lia. rewrite Z.sub_diag.
    change (2 ^ 0) with 1. rewrite Z.mul_1_r.
    pose proof (D_upper m1) as U1. pose proof (D_lower m2) as L2.
    rewrite Hn2 in L2 by lia. change (2 ^ (53 - 1)) with (2 ^ 52) in L2.
    assert (Zpos m1 < 2 ^ 53).
    { eapply Z.lt_le_trans; [exact U1|]. apply Z.pow_le_mono_r; lia. }
    assert (2 ^ 1 <= 2 ^ (e2 - e1)) by (apply Z.pow_le_mono_r; lia).
    change (2 ^ 1) with 2 in *.
    change (2 ^ 53) with (2 * 2 ^ 52) in *.
    assert (0 < 2 ^ 52) by reflexivity.
    nia.
  - discriminate.
Qed.

Lemma valid_vle_neg m1 e1 m2 e2 :
  valid_binary (S754_finite true m1 e1) = true ->
  valid_binary (S754_finite true m2 e2) = true ->
  SFleb (S754_finite true m1 e1) (S754_finite true m2 e2) = true ->
  vle m2 e2 m1 e1.
Proof.
  intros V1 V2 H. apply valid_vle; auto.
  revert H. unfold SFleb. simpl.
  rewrite (Z.compare_antisym e1 e2).
  change (Pos.compare_cont Eq m2 m1) with (Pos.compare m2 m1).
  change (Pos.compare_cont Eq m1 m2) with (Pos.compare m1 m2).
  rewrite (Pos.compare_antisym m1 m2).
  destruct (e1 ?= e2); simpl; auto;
    destruct (m1 ?= m2)%positive; simpl; auto.
Qed.

(** *** Signs and order *)

Lemma SFleb_signs a b : SFsignIs true a -> SFsignIs false b -> SFleb a b = true.
Proof.
  destruct a as [s|s| |s m e], b as [s'|s'| |s' m' e']; simpl;
    intros; try contradiction; subst; reflexivity.
Qed.

Lemma SFleb_zero_l s b : SFsignIs false b -> SFleb (S754_zero s) b = true.
Proof. destruct b as [s'|s'| |s' m' e']; simpl; intros; try contradiction; subst; reflexivity. Qed.

Lemma SFleb_zero_r s a : SFsignIs true a -> SFleb a (S754_zero s) = true.
Proof. destruct a as [s'|s'| |s' m' e']; simpl; intros; try contradiction; subst; reflexivity. Qed.

Lemma SFleb_inf_l s b : SFsignIs s b -> SFleb (S754_infinity true) b = true.
Proof. destruct b as [s'|s'| |s' m' e']; simpl; intros; try contradiction; subst; try reflexivity; destruct s; reflexivity. Qed.

Lemma SFleb_inf_r s a : SFsignIs s a -> SFleb a (S754_infinity false) = true.
Proof. destruct a as [s'|s'| |s' m' e']; simpl; intros; try contradiction; subst; try reflexivity; destruct s; reflexivity. Qed.

Lemma roundResult_sign s M E : 0 <= M -> SFsignIs s (roundResult s M E).
Proof.
  intros HM. unfold roundResult, finOrInf.
  destruct M as [|p|p]; [reflexivity| |lia].
  destruct (Zpos p =? 2 ^ prec);
    match goal with |- context [if ?c then _ else _] => destruct c end;
    reflexivity.
Qed.

(** *** Products by a positive normal number *)

Lemma mul_precondition mx ex mc ec :
  D mc = 53 -> ex + ec <= cexp (mx * mc) (ex + ec).
Proof.
  intros HD. rewrite cexp_spec.
  assert (D mc <= D (mx * mc)) by (apply D_mono; nia).
  lia.
Qed.

Lemma SFmul_finite sx mx ex mc ec :
  D mc = 53 ->
  SFmul prec emax (S754_finite sx mx ex) (S754_finite false mc ec)
  = roundResult sx (rndM (mx * mc) (ex + ec)) (cexp (mx * mc) (ex + ec)).
Proof.
  intros HD. simpl SFmul. rewrite xorb_false_r.
  apply binary_round_aux_shape. now apply mul_precondition.
Qed.

Lemma vle_mul m1 e1 m2 e2 mc ec :
  vle m1 e1 m2 e2 -> vle (m1 * mc) (e1 + ec) (m2 * mc) (e2 + ec).
Proof.
  unfold vle. rewrite Z.add_min_distr_r.
  replace (e1 + ec - (Z.min e1 e2 + ec)) with (e1 - Z.min e1 e2) by lia.
  replace (e2 + ec - (Z.min e1 e2 + ec)) with (e2 - Z.min e1 e2) by lia.
  rewrite !Pos2Z.inj_mul. intros H.
  assert (0 < Zpos mc) by lia. nia.
Qed.

Lemma mul_ordered m1 e1 m2 e2 mc ec :
  D mc = 53 -> vle m1 e1 m2 e2 ->
  ordered (rndM (m1 * mc) (e1 + ec)) (cexp (m1 * mc) (e1 + ec))
          (rndM (m2 * mc) (e2 + ec)) (cexp (m2 * mc) (e2 + ec)).
Proof.
  intros HD Hv. apply rnd_ordered; auto using mul_precondition, vle_mul.
Qed.

Lemma mul_result_sign s m e mc ec :
  D mc = 53 ->
  SFsignIs s (roundResult s (rndM (m * mc) (e + ec)) (cexp (m * mc) (e + ec))).
Proof.
  intros HD. apply roundResult_sign.
  apply rndM_bounds. now apply mul_precondition.
Qed.

(** Multiplying by a positive normal number keeps [<=]. *)
Lemma SFmul_mono x y mc ec :
  valid_binary x = true -> valid_binary y = true -> D mc = 53 ->
  SFleb x y = true ->
  SFleb (SFmul prec emax x (S754_finite false mc ec))
        (SFmul prec emax y (S754_finite false mc ec)) = true.
Proof.
  intros Vx Vy HD H.
  destruct x as [sx|sx| |sx mx ex], y as [sy|sy| |sy my ey];
    try discriminate H;
    rewrite ?SFmul_finite by exact HD;
    try (destruct sx; try discriminate H);
    try (destruct sy; try discriminate H);
    cbn [SFmul xorb];
    try reflexivity;
    try solve [apply SFleb_signs; auto using mul_result_sign];
    try solve [apply SFleb_zero_l; auto using mul_result_sign];
    try solve [apply SFleb_zero_r; auto using mul_result_sign];
    try solve [eapply SFleb_inf_l; eauto using mul_result_sign];
    try solve [eapply SFleb_inf_r; eauto using mul_result_sign].
  - apply roundResult_le, mul_ordered; auto. now apply valid_vle_neg.
  - apply roundResult_le, mul_ordered; auto. now apply valid_vle.
Qed.

(** *** Integers as binary64 numbers *)

Lemma represents_vle a1 b1 N1 a2 b2 N2 :
  represents a1 b1 N1 -> represents a2 b2 N2 -> N1 <= N2 -> vle a1 b1 a2 b2.
Proof.
  unfold represents. intros R1 R2 HN.
  set (c := Z.min (Z.min b1 0) (Z.min b2 0)).
  assert (c <= Z.min b1 0) by (unfold c; lia).
  assert (c <= Z.min b2 0) by (unfold c; lia).
  apply (vle_base c); try lia.
  replace (b1 - c) with ((b1 - Z.min b1 0) + (Z.min b1 0 - c)) by lia.
  replace (b2 - c) with ((b2 - Z.min b2 0) + (Z.min b2 0 - c)) by lia.
  rewrite !Z.pow_add_r by lia.
  rewrite !Z.mul_assoc, R1, R2.
  rewrite <- !Z.mul_assoc, <- !Z.pow_add_r by lia.
  replace (- Z.min b1 0 + (Z.min b1 0 - c)) with (- c) by lia.
  replace (- Z.min b2 0 + (Z.min b2 0 - c)) with (- c) by lia.
  apply Z.mul_le_mono_nonneg_r; [|exact HN].
  apply Z.pow_nonneg. lia.
Qed.

Lemma iter_xO_value d p : Zpos (Pos.iter xO p d) = Zpos p * 2 ^ Zpos d.
Proof.
  induction d as [|d IH] using Pos.peano_ind.
  - simpl. lia.
  - rewrite Pos.iter_succ, Pos2Z.inj_xO, IH, Pos2Z.inj_succ, Z.pow_succ_r by lia.
    ring.
Qed.

Lemma D_shift p d : D (Pos.iter xO p d) = D p + Zpos d.
Proof.
  apply D_unique. rewrite iter_xO_value.
  pose proof (D_lower p). pose proof (D_upper p). pose proof (D_pos p).
  replace (D p + Zpos d - 1) with ((D p - 1) + Zpos d) by lia.
  rewrite !Z.pow_add_r by lia.
  assert (0 < 2 ^ Zpos d) by (apply Z.pow_pos_nonneg; lia).
  nia.
Qed.

(** An integer below 2^53 is rounded from a mantissa aligned on 53 bits that
    represents it exactly. *)
Lemma binary_round_int s p :
  Zpos p < 2 ^ 53 ->
  exists a b,
    binary_round prec emax s p 0 = roundResult s (rndM a b) (cexp a b)
    /\ b <= cexp a b
    /\ represents a b (Zpos p).
Proof.
  intros Hp.
  assert (Hd : D p <= 53).
  { pose proof (D_lower p). pose proof (D_pos p).
    assert (D p - 1 < 53) by (apply (Z.pow_lt_mono_r_iff 2); lia). lia. }
  pose proof (D_pos p) as Hd0.
  unfold binary_round.
  change (fexp prec emax (Zpos (digits2_pos p) + 0)) with (cexp p 0).
  assert (Hc : cexp p 0 = D p - 53) by (rewrite cexp_spec; lia).
  rewrite Hc. unfold shl_align.
  destruct (D p - 53 - 0) as [|d|d] eqn:Hshift; try lia.
  - exists p, 0. split; [|split].
    + apply binary_round_aux_shape. lia.
    + lia.
    + unfold represents. simpl. lia.
  - exists (Pos.iter xO p d), (D p - 53).
    assert (Hc' : cexp (Pos.iter xO p d) (D p - 53) = D p - 53).
    { rewrite cexp_spec, D_shift. lia. }
    split; [|split].
    + apply binary_round_aux_shape. lia.
    + lia.
    + unfold represents. rewrite Z.min_l by lia.
      rewrite Z.sub_diag, iter_xO_value. change (2 ^ 0) with 1.
      replace (- (D p - 53)) with (Zpos d) by lia. lia.
Qed.

Lemma valid_represents s m e :
  valid_binary (S754_finite s m e) = true -> 0 <= e ->
  S754_finite s m e = roundResult s (rndM m e) (cexp m e)
  /\ e <= cexp m e
  /\ represents m e (Zpos m * 2 ^ e).
Proof.
  intros V He. split; [now apply valid_round|].
  apply valid_finite in V as [Hc _]. split; [lia|].
  unfold represents. rewrite Z.min_r by lia. simpl.
  rewrite Z.sub_0_r. lia.
Qed.

(** *** Floor and ceiling of [m * 2^e] *)

Lemma scaled_div m e c :
  c <= e -> c <= 0 ->
  (Zpos m * 2 ^ (e - c)) / 2 ^ (- c) = Nfloor m e
  /\ - (- (Zpos m * 2 ^ (e - c)) / 2 ^ (- c)) = Nceil m e.
Proof.
  intros H1 H2. unfold Nfloor, Nceil.
  destruct (Z.ltb_spec e 0).
  - replace (- c) with ((- e) + (e - c)) by lia.
    rewrite Z.pow_add_r by lia.
    assert (0 < 2 ^ (e - c)) by (apply Z.pow_pos_nonneg; lia).
    assert (0 < 2 ^ (- e)) by (apply Z.pow_pos_nonneg; lia).
    rewrite <- Z.mul_opp_l.
    rewrite !Z.div_mul_cancel_r by lia. auto.
  - replace (e - c) with (e + (- c)) by lia.
    rewrite Z.pow_add_r by lia.
    assert (0 < 2 ^ (- c)) by (apply Z.pow_pos_nonneg; lia).
    rewrite Z.mul_assoc, <- Z.mul_opp_l.
    rewrite !Z.div_mul by lia. split; lia.
Qed.

(** Floor and ceiling are monotone in the value. *)
Lemma Nfloor_Nceil_mono m1 e1 m2 e2 :
  vle m1 e1 m2 e2 -> Nfloor m1 e1 <= Nfloor m2 e2 /\ Nceil m1 e1 <= Nceil m2 e2.
Proof.
  intros Hv.
  set (c := Z.min (Z.min e1 e2) 0).
  assert (c <= e1) by (unfold c; lia).
  assert (c <= e2) by (unfold c; lia).
  assert (c <= 0) by (unfold c; lia).
  apply (vle_base c) in Hv; try lia.
  destruct (scaled_div m1 e1 c) as [<- <-]; try lia.
  destruct (scaled_div m2 e2 c) as [<- <-]; try lia.
  assert (0 < 2 ^ (- c)) by (apply Z.pow_pos_nonneg; lia).
  split.
  - apply Z.div_le_mono; lia.
  - assert (- (Zpos m2 * 2 ^ (e2 - c)) / 2 ^ (- c)
            <= - (Zpos m1 * 2 ^ (e1 - c)) / 2 ^ (- c))
      by (apply Z.div_le_mono; lia).
    lia.
Qed.

Lemma Nfloor_bounds m e : e < 0 -> 0 <= Nfloor m e <= Zpos m.
Proof.
  intros He. unfold Nfloor. destruct (Z.ltb_spec e 0); [|lia].
  assert (0 < 2 ^ (- e)) by (apply Z.pow_pos_nonneg; lia).
  split; [apply Z.div_pos; lia|].
  apply Z.div_le_upper_bound; nia.
Qed.

Lemma Nceil_bounds m e : e < 0 -> 1 <= Nceil m e <= Zpos m.
Proof.
  intros He. unfold Nceil. destruct (Z.ltb_spec e 0); [|lia].
  assert (HP : 0 < 2 ^ (- e)) by (apply Z.pow_pos_nonneg; lia).
  assert (- Zpos m / 2 ^ (- e) < 0) by (apply Z.div_lt_upper_bound; lia).
  assert (- Zpos m <= - Zpos m / 2 ^ (- e)).
  { apply Z.div_le_lower_bound; try lia. nia. }
  lia.
Qed.

(** *** [Math.floor] on the specification *)

Lemma floorZ_pos m e : e < 0 -> floorZ false m e = Nfloor m e.
Proof.
  intros He. unfold floorZ, Nfloor. destruct (Z.ltb_spec e 0); [|lia].
  simpl signedMantissa. apply Z.shiftr_div_pow2. lia.
Qed.

Lemma floorZ_neg m e : e < 0 -> floorZ true m e = - Nceil m e.
Proof.
  intros He. unfold floorZ, Nceil. destruct (Z.ltb_spec e 0); [|lia].
  simpl signedMantissa. rewrite Z.shiftr_div_pow2 by lia.
  change (Z.neg m) with (- Zpos m). lia.
Qed.

Lemma SFopp_roundResult M E :
  SFopp (roundResult false M E) = roundResult true M E.
Proof.
  unfold roundResult, finOrInf. destruct M; try reflexivity.
  destruct (_ =? _); match goal with |- context [if ?c then _ else _] => destruct c end;
    reflexivity.
Qed.

Lemma SFfloor_pos m e :
  valid_binary (S754_finite false m e) = true ->
  (Nfloor m e = 0 /\ SFfloor (S754_finite false m e) = S754_zero false)
  \/ (exists a b,
        SFfloor (S754_finite false m e)
        = roundResult false (rndM a b) (cexp a b)
        /\ b <= cexp a b /\ represents a b (Nfloor m e) /\ 0 < Nfloor m e).
Proof.
  intros V. pose proof (valid_digits _ _ _ V) as (Hd & _ & _).
  assert (Hm : Zpos m < 2 ^ 53).
  { pose proof (D_upper m). eapply Z.lt_le_trans; [eassumption|].
    apply Z.pow_le_mono_r; lia. }
  unfold SFfloor. destruct (Z.ltb_spec e 0) as [He|He].
  - rewrite floorZ_pos by exact He.
    pose proof (Nfloor_bounds m e He) as HN.
    destruct (Nfloor m e) as [|p|p] eqn:EN; try lia.
    + left. split; reflexivity.
    + right. destruct (binary_round_int false p ltac:(lia)) as (a & b & H1 & H2 & H3).
      exists a, b. simpl SFofZ. repeat split; auto; lia.
  - right. exists m, e.
    destruct (valid_represents _ _ _ V He) as (H1 & H2 & H3).
    unfold Nfloor. destruct (Z.ltb_spec e 0); [lia|].
    repeat split; auto.
    assert (0 < 2 ^ e) by (apply Z.pow_pos_nonneg; lia). nia.
Qed.

Lemma SFfloor_neg m e :
  valid_binary (S754_finite true m e) = true ->
  exists a b,
    SFfloor (S754_finite true m e) = roundResult true (rndM a b) (cexp a b)
    /\ b <= cexp a b /\ represents a b (Nceil m e).
Proof.
  intros V. pose proof (valid_digits _ _ _ V) as (Hd & _ & _).
  assert (Hm : Zpos m < 2 ^ 53).
  { pose proof (D_upper m). eapply Z.lt_le_trans; [eassumption|].
    apply Z.pow_le_mono_r; lia. }
  unfold SFfloor. destruct (Z.ltb_spec e 0) as [He|He].
  - rewrite floorZ_neg by exact He.
    pose proof (Nceil_bounds m e He) as HN.
    destruct (Nceil m e) as [|p|p] eqn:EN; try lia.
    destruct (binary_round_int false p ltac:(lia)) as (a & b & H1 & H2 & H3).
    exists a, b. simpl. rewrite H1, SFopp_roundResult. auto.
  - exists m, e.
    destruct (valid_represents _ _ _ V He) as (H1 & H2 & H3).
    unfold Nceil. destruct (Z.ltb_spec e 0); [lia|]. auto.
Qed.

Lemma SFfloor_sign s m e :
  valid_binary (S754_finite s m e) = true ->
  SFsignIs s (SFfloor (S754_finite s m e)).
Proof.
  intros V. destruct s.
  - destruct (SFfloor_neg m e V) as (a & b & -> & HP & _).
    apply roundResult_sign. now apply rndM_bounds.
  - destruct (SFfloor_pos m e V) as [[_ ->]|(a & b & -> & HP & _)].
    + reflexivity.
    + apply roundResult_sign. now apply rndM_bounds.
Qed.

(** [Math.floor] keeps [<=]. *)
Lemma SFfloor_mono x y :
  valid_binary x = true -> valid_binary y = true ->
  SFleb x y = true -> SFleb (SFfloor x) (SFfloor y) = true.
Proof.
  intros Vx Vy H.
  destruct x as [sx|sx| |sx mx ex], y as [sy|sy| |sy my ey];
    try discriminate H;
    try (destruct sx; try discriminate H);
    try (destruct sy; try discriminate H);
    try exact H;
    try solve [apply SFleb_signs; auto using SFfloor_sign];
    try solve [apply SFleb_zero_l; auto using SFfloor_sign];
    try solve [apply SFleb_zero_r; auto using SFfloor_sign];
    try solve [eapply SFleb_inf_l; eauto using SFfloor_sign];
    try solve [eapply SFleb_inf_r; eauto using SFfloor_sign].
  - (* both negative *)
    pose proof (valid_vle_neg _ _ _ _ Vx Vy H) as Hv.
    apply Nfloor_Nceil_mono in Hv as [_ Hc].
    destruct (SFfloor_neg mx ex Vx) as (a & b & -> & HP & HR).
    destruct (SFfloor_neg my ey Vy) as (a' & b' & -> & HP' & HR').
    apply roundResult_le, rnd_ordered; auto.
    eapply represents_vle; eauto.
  - (* both positive *)
    pose proof (valid_vle _ _ _ _ Vx Vy H) as Hv.
    apply Nfloor_Nceil_mono in Hv as [Hf _].
    destruct (SFfloor_pos mx ex Vx) as [[_ ->]|(a & b & -> & HP & HR & HN)].
    + apply SFleb_zero_l. now apply SFfloor_sign.
    + destruct (SFfloor_pos my ey Vy) as [[H0 _]|(a' & b' & -> & HP' & HR' & _)];
        [lia|].
      apply roundResult_le, rnd_ordered; auto.
      eapply represents_vle; eauto.
Qed.

(** *** The primitive operations *)

Lemma Prim2SF_Z2float n : Z.abs n < 2 ^ 53 -> Prim2SF (Z2float n) = SFofZ n.
Proof.
  intros Hn.
  assert (Hw : forall p, Zpos p < 2 ^ 53 ->
                 Prim2SF (of_uint63 (Uint63.of_Z (Zpos p)))
                 = binary_round prec emax false p 0).
  { intros p Hp. rewrite of_uint63_spec, Uint63.of_Z_spec.
    rewrite Z.mod_small; [reflexivity|].
    split; [lia|]. eapply Z.lt_trans; [exact Hp|]. reflexivity. }
  destruct n as [|p|p]; simpl.
  - reflexivity.
  - apply Hw. lia.
  - rewrite opp_spec. f_equal. apply Hw. lia.
Qed.

(** [Math_floor], computed on the primitive floats, is [SFfloor] on their
    specification. *)
Lemma Prim2SF_Math_floor x : Prim2SF (Math_floor x) = SFfloor (Prim2SF x).
Proof.
  unfold Math_floor. pose proof (Prim2SF_valid x) as V.
  destruct (Prim2SF x) as [s|s| |s m e] eqn:E; simpl SFfloor; auto.
  destruct (Z.ltb_spec e 0) as [He|He]; [|exact E].
  apply Prim2SF_Z2float.
  pose proof (valid_digits _ _ _ V) as (Hd & _ & _).
  assert (Hm : Zpos m < 2 ^ 53).
  { pose proof (D_upper m). eapply Z.lt_le_trans; [eassumption|].
    apply Z.pow_le_mono_r; lia. }
  destruct s.
  - rewrite floorZ_neg by exact He. pose proof (Nceil_bounds m e He). lia.
  - rewrite floorZ_pos by exact He. pose proof (Nfloor_bounds m e He). lia.
Qed.

Lemma Math_floor_mono x y :
  (x <=? y)%float = true -> (Math_floor x <=? Math_floor y)%float = true.
Proof.
  rewrite !leb_spec, !Prim2SF_Math_floor.
  apply SFfloor_mono; apply Prim2SF_valid.
Qed.

Lemma mul_mono x y c mc ec :
  Prim2SF c = S754_finite false mc ec -> D mc = 53 ->
  (x <=? y)%float = true -> (x * c <=? y * c)%float = true.
Proof.
  intros Hc HD. rewrite !leb_spec, !mul_spec, Hc.
  apply SFmul_mono; auto; apply Prim2SF_valid.
Qed.
(** *** [Math.floor] never exceeds its argument *)

Lemma represents_below a b N m e :
  represents a b N -> e < 0 -> N * 2 ^ (- e) <= Zpos m -> vle a b m e.
Proof.
  unfold represents. intros R He HN.
  set (c := Z.min (Z.min b 0) e).
  assert (c <= Z.min b 0) by (unfold c; lia).
  assert (c <= e) by (unfold c; lia).
  apply (vle_base c); try lia.
  replace (b - c) with ((b - Z.min b 0) + (Z.min b 0 - c)) by lia.
  rewrite Z.pow_add_r, Z.mul_assoc, R by lia.
  rewrite <- Z.mul_assoc, <- Z.pow_add_r by lia.
  replace (- Z.min b 0 + (Z.min b 0 - c)) with ((- e) + (e - c)) by lia.
  rewrite Z.pow_add_r, Z.mul_assoc by lia.
  apply Z.mul_le_mono_nonneg_r; [|exact HN].
  apply Z.pow_nonneg. lia.
Qed.

Lemma represents_above a b N m e :
  represents a b N -> e < 0 -> Zpos m <= N * 2 ^ (- e) -> vle m e a b.
Proof.
  unfold represents. intros R He HN.
  set (c := Z.min (Z.min b 0) e).
  assert (c <= Z.min b 0) by (unfold c; lia).
  assert (c <= e) by (unfold c; lia).
  apply (vle_base c); try lia.
  replace (b - c) with ((b - Z.min b 0) + (Z.min b 0 - c)) by lia.
  rewrite Z.pow_add_r, Z.mul_assoc, R by lia.
  rewrite <- Z.mul_assoc, <- Z.pow_add_r by lia.
  replace (- Z.min b 0 + (Z.min b 0 - c)) with ((- e) + (e - c)) by lia.
  rewrite Z.pow_add_r, Z.mul_assoc by lia.
  apply Z.mul_le_mono_nonneg_r; [|exact HN].
  apply Z.pow_nonneg. lia.
Qed.

Lemma SFleb_same x : x <> S754_nan -> SFleb x x = true.
Proof.
  unfold SFleb. destruct x as [s|s| |s m e]; simpl; try congruence;
    intros _; try (destruct s; reflexivity).
  destruct s; rewrite Z.compare_refl;
    change (Pos.compare_cont Eq m m) with (Pos.compare m m);
    rewrite Pos.compare_refl; reflexivity.
Qed.

Lemma SFfloor_le x :
  valid_binary x = true -> x <> S754_nan -> SFleb (SFfloor x) x = true.
Proof.
  intros V Hx. destruct x as [s|s| |s m e]; try (now apply SFleb_same).
  destruct (Z.ltb_spec e 0) as [He|He].
  2:{ unfold SFfloor. destruct (Z.ltb_spec e 0); [lia|]. now apply SFleb_same. }
  assert (HP : 0 < 2 ^ (- e)) by (apply Z.pow_pos_nonneg; lia).
  pose proof (valid_finite _ _ _ V) as [Hc _].
  rewrite (valid_round s m e V) at 2.
  destruct s.
  - destruct (SFfloor_neg m e V) as (a & b & -> & Hab & HR).
    apply roundResult_le, rnd_ordered; auto; [lia|].
    eapply represents_above; eauto.
    unfold Nceil. destruct (Z.ltb_spec e 0); [|lia].
    pose proof (Z.mul_succ_div_gt (- Zpos m) _ HP).
    pose proof (Z.mul_div_le (- Zpos m) _ HP). nia.
  - destruct (SFfloor_pos m e V) as [[_ ->]|(a & b & -> & Hab & HR & _)].
    + rewrite <- (valid_round false m e V). reflexivity.
    + apply roundResult_le, rnd_ordered; auto; [lia|].
      eapply represents_below; eauto.
      unfold Nfloor. destruct (Z.ltb_spec e 0); [|lia].
      pose proof (Z.mul_div_le (Zpos m) _ HP). lia.
Qed.

(** The result of [Math.floor] is never above its argument. *)
Lemma Math_floor_le (x : float) :
  isNaN x = false -> (Math_floor x <=? x)%float = true.
Proof.
  intros Hx. rewrite leb_spec, Prim2SF_Math_floor.
  apply SFfloor_le; [apply Prim2SF_valid|].
  apply JSNumFacts.Prim2SF_not_nan in Hx.
  destruct (Prim2SF x); discriminate.
Qed.

(** *** Scaling to micro-units keeps the order *)

Lemma SFleb_not_ltb x y : SFleb y x = true -> SFltb x y = false.
Proof.
  unfold SFleb, SFltb.
  destruct x as [sx|sx| |sx mx ex], y as [sy|sy| |sy my ey]; simpl;
    try discriminate; try reflexivity;
    try (destruct sx; try discriminate; try reflexivity);
    try (destruct sy; try discriminate; try reflexivity);
    rewrite (Z.compare_antisym ex ey);
    change (Pos.compare_cont Eq my mx) with (Pos.compare my mx);
    change (Pos.compare_cont Eq mx my) with (Pos.compare mx my);
    rewrite (Pos.compare_antisym mx my);
    destruct (ex ?= ey); simpl; try discriminate; try reflexivity;
    destruct (mx ?= my)%positive; simpl; try discriminate; reflexivity.
Qed.

Lemma Prim2SF_nan x : isNaN x = true -> Prim2SF x = S754_nan.
Proof. unfold isNaN, Prim2SF. now intros ->. Qed.

Lemma toMicro_nan x : isNaN x = true -> Prim2SF (VLayer.toMicro x) = S754_nan.
Proof.
  intros H. unfold VLayer.toMicro.
  rewrite Prim2SF_Math_floor, mul_spec, (Prim2SF_nan x H). reflexivity.
Qed.

(** [x -> Math.floor(x * 1e6)] never reverses a comparison: when [b < t] is
    false, so is [toMicro b < toMicro t], NaN included. *)
Lemma toMicro_monotone (b t : float) :
  (b <? t)%float = false ->
  (VLayer.toMicro b <? VLayer.toMicro t)%float = false.
Proof.
  intros H.
  destruct (isNaN b) eqn:Nb.
  { rewrite ltb_spec, (toMicro_nan b Nb). reflexivity. }
  destruct (isNaN t) eqn:Nt.
  { rewrite ltb_spec, (toMicro_nan t Nt).
    destruct (Prim2SF (VLayer.toMicro b)); reflexivity. }
  assert (Hle : (t <=? b)%float = true)
    by (now apply JSNumFacts.ltb_false_leb).
  rewrite ltb_spec. apply SFleb_not_ltb. rewrite <- leb_spec.
  unfold VLayer.toMicro. apply Math_floor_mono.
  apply (mul_mono t b 1e6%float 8589934592000000%positive (-33));
    [reflexivity|reflexivity|exact Hle].
Qed.

End Binary64Facts.

(* ------------------------------------------------------------------ *)
(** ** The dot-path accessors *)

Module JsonFacts.

Import Exec Json.
Open Scope string_scope.

(** Induction on JSON data, with the elements of an array at hand. *)
Lemma JSON_elements_ind (P : JSON -> Prop) :
  P JNull ->
  (forall b, P (JBool b)) ->
  (forall n, P (JNumber n)) ->
  (forall s, P (JString s)) ->
  (forall elems, Forall P elems -> P (JArray elems)) ->
  (forall props, P (JObject props)) ->
  forall data, P data.
Proof.
  intros Hnull Hbool Hnumber Hstring Harray Hobject.
  fix IH 1. intros [ |b|n|s|elems|props].
  - exact Hnull.
  - apply Hbool.
  - apply Hnumber.
  - apply Hstring.
  - apply Harray. revert elems. fix IHelems 1.
    intros [|x elems]; constructor; [apply IH|apply IHelems].
  - apply Hobject.
Qed.

Section Accessors.

Variable builtin : JSValue -> string -> JSValue.
Variable typeErrorMessage : JSValue -> string -> string.
Variable toPrimitiveErrorMessage : string.
Variable numberToString : float -> string.
Variable stringToNumber : string -> float.
Variable nativeToString : string -> string.

Local Abbreviation getProp := (Json.getProp builtin typeErrorMessage).
Local Abbreviation walk := (Json.walk builtin typeErrorMessage).
Local Abbreviation answeredByData := (Json.answeredByData builtin).
Local Abbreviation dataToString :=
  (Json.dataToString toPrimitiveErrorMessage numberToString).
Local Abbreviation String_ :=
  (Json.String_ toPrimitiveErrorMessage numberToString nativeToString).
Local Abbreviation Number_ :=
  (Json.Number_ toPrimitiveErrorMessage numberToString stringToNumber
     nativeToString).
Local Abbreviation jsonGetString :=
  (Json.jsonGetString builtin typeErrorMessage toPrimitiveErrorMessage
     numberToString nativeToString).
Local Abbreviation jsonGetNumber :=
  (Json.jsonGetNumber builtin typeErrorMessage toPrimitiveErrorMessage
     numberToString stringToNumber nativeToString).

(** The conversion to a string throws exactly on the data that are not
    convertible, and then the TypeError of the language. *)
Lemma dataToString_convertible (data : JSON) :
  if convertible data
  then exists text, dataToString data = inr text
  else dataToString data = inl (ThrownError toPrimitiveErrorMessage).
Proof.
  induction data as [ |b|n|s|elems IH|props] using JSON_elements_ind;
    cbn [convertible Json.dataToString]; eauto.
  - destruct b; eauto.
  - induction IH as [|x rest Hx Hrest IHrest]; [eauto|].
    destruct (convertible x).
    + cbn [andb].
      assert (Hsx : exists sx,
                 match x with
                 | JNull => inr ""
                 | _ => dataToString x
                 end = inr sx)
        by (destruct Hx as [sx Hx]; destruct x; eauto).
      destruct Hsx as [sx ->].
      destruct rest as [|y rest]; [eauto|].
      match goal with
      | |- context [if ?c then _ else _] => destruct c
      end.
      * destruct IHrest as [srest ->]. eauto.
      * now rewrite IHrest.
    + cbn [andb]. destruct x; try discriminate; now rewrite Hx.
  - destruct (ownProperty "toString" props); eauto.
Qed.

(** [String] and [Number] convert a value together or throw together, and
    then the same error. *)
Lemma conversions_together (value : JSValue) :
  (exists text number, String_ value = inr text /\ Number_ value = inr number)
  \/ (String_ value = inl (ThrownError toPrimitiveErrorMessage)
      /\ Number_ value = inl (ThrownError toPrimitiveErrorMessage)).
Proof.
  destruct value as [ |data|tag]; [left; cbn; eauto| |left; cbn; eauto].
  pose proof (dataToString_convertible data) as H.
  destruct (convertible data).
  - left. destruct H as [text H]. unfold Json.String_, Json.Number_.
    rewrite H. destruct data as [ |[|]| | | | ]; eauto.
  - right. unfold Json.String_, Json.Number_.
    destruct data as [ |[|]| | | | ]; try discriminate; now rewrite H.
Qed.

(** The loop of the accessors against the path read in the data. *)
Lemma walk_data (path : string) (keys : list string) (value : JSON) :
  answeredByData keys value = true ->
  match valueAt keys value with
  | Some v => walk path keys value = inr (JData v)
  | None =>
      exists message,
        (message = "Path " ++ path ++ " not found in JSON"
         \/ exists v k, message = typeErrorMessage v k)
        /\ walk path keys value = inl (ThrownError message)
  end.
Proof.
  revert value. induction keys as [|key keys IH]; intros value Hdata.
  - reflexivity.
  - cbn [valueAt Json.walk Json.answeredByData] in *.
    unfold Json.getProp.
    destruct (ownField value key) as [v|] eqn:Hown.
    + assert (Hget : match value with
                     | JNull => inl (ThrownError (typeErrorMessage value key))
                     | _ => inr (JData v)
                     end = @inr Thrown JSValue (JData v))
        by (destruct value; try reflexivity; discriminate).
      destruct value; try discriminate; cbn [isUndefined]; now apply IH.
    + destruct value; cbn [isUndefined];
        try (eexists; split; [right; eauto|reflexivity]);
        rewrite Hdata; eexists; split; try (left; reflexivity); reflexivity.
Qed.


End Accessors.


(** The conversions on the sample document: the object at ["owner"] has an
    own property [toString] and both accessors throw the TypeError of the
    conversion; the array at ["accounts"] is converted by its [toString]. *)
Lemma conversions_of_the_sample_document :
  Sample.jsonGetString Sample.document "owner"
  = inl (ThrownError
           "Erro ao extrair string do JSON: Cannot convert object to primitive value")
  /\ Sample.jsonGetNumber Sample.document "owner"
     = inl (ThrownError
              "Erro ao extrair número do JSON: Cannot convert object to primitive value")
  /\ Sample.jsonGetString Sample.document "accounts"
     = inr "[object Object]"
  /\ Sample.jsonGetString Sample.document "accounts.length"
     = inr (Sample.numberToString 1%float).
Proof. repeat split. Qed.


End JsonFacts.

(* ------------------------------------------------------------------ *)
(** ** The run of the pipeline, stage by stage *)

Module VLayerFacts.

Import Exec JSNum VLayer.
Open Scope string_scope.
Open Scope list_scope.

Abbreviation bal := NubankAccount.balance.

(** The invariant of the selection loop: after the accounts [pre] the
    accumulator [m] sits at index [i] of [pre], nothing in [pre] exceeds it
    and everything before [i] is strictly below it. *)
Lemma higherBalance_invariant (l pre : list NubankAccount.t)
    (m : NubankAccount.t) (i : nat) :
  nth_error pre i = Some m ->
  (forall x, In x pre -> (bal x <=? bal m)%float = true) ->
  (forall j x, (j < i)%nat -> nth_error pre j = Some x ->
               (bal x <? bal m)%float = true) ->
  (forall x, In x (pre ++ l) -> isNaN (bal x) = false) ->
  exists i',
    nth_error (pre ++ l) i' = Some (fold_left higherBalance l m)
    /\ (forall x, In x (pre ++ l) ->
                  (bal x <=? bal (fold_left higherBalance l m))%float = true)
    /\ (forall j x, (j < i')%nat -> nth_error (pre ++ l) j = Some x ->
                    (bal x <? bal (fold_left higherBalance l m))%float = true).
Proof.
  revert pre m i.
  induction l as [|c l IH]; intros pre m i Hm Hle Hlt Hnan.
  - exists i. rewrite app_nil_r. auto.
  - simpl fold_left.
    replace (pre ++ c :: l) with ((pre ++ [c]) ++ l) in *
      by (rewrite <- app_assoc; reflexivity).
    assert (Hc : isNaN (bal c) = false)
      by (apply Hnan; rewrite !in_app_iff; simpl; auto).
    assert (Hmn : isNaN (bal m) = false).
    { apply Hnan. rewrite !in_app_iff. left; left.
      eapply nth_error_In; eauto. }
    assert (Hi : (i < List.length pre)%nat)
      by (apply nth_error_Some; congruence).
    unfold higherBalance, gtb.
    destruct (bal m <? bal c)%float eqn:Hcmp.
    + (* the new account is strictly higher: it becomes the maximum *)
      apply (IH (pre ++ [c]) c (List.length pre)); auto.
      * rewrite nth_error_app2, Nat.sub_diag by lia. reflexivity.
      * intros x Hx. apply in_app_iff in Hx as [Hx|[<-|[]]].
        -- apply JSNumFacts.ltb_leb.
           eapply JSNumFacts.leb_ltb_trans; eauto.
        -- now apply JSNumFacts.leb_refl.
      * intros j x Hj Hx. rewrite nth_error_app1 in Hx by lia.
        eapply JSNumFacts.leb_ltb_trans; [|exact Hcmp].
        apply Hle. eapply nth_error_In; eauto.
    + (* otherwise the maximum so far stays, ties included *)
      apply (IH (pre ++ [c]) m i); auto.
      * rewrite nth_error_app1 by lia. exact Hm.
      * intros x Hx. apply in_app_iff in Hx as [Hx|[<-|[]]]; auto.
        now apply JSNumFacts.ltb_false_leb.
      * intros j x Hj Hx. rewrite nth_error_app1 in Hx by lia. eauto.
Qed.

(** [reduce] with [higherBalance] returns the first account, in the order
    of the array, whose balance is the maximum. *)
Lemma higherBalance_first_maximum (a : NubankAccount.t)
    (l : list NubankAccount.t) :
  (forall x, In x (a :: l) -> isNaN (bal x) = false) ->
  exists i,
    nth_error (a :: l) i = Some (fold_left higherBalance l a)
    /\ (forall x, In x (a :: l) ->
                  (bal x <=? bal (fold_left higherBalance l a))%float = true)
    /\ (forall j x, (j < i)%nat -> nth_error (a :: l) j = Some x ->
                    (bal x <? bal (fold_left higherBalance l a))%float = true).
Proof.
  intros Hnan.
  apply (higherBalance_invariant l [a] a 0); auto.
  - intros x [<-|[]]. apply JSNumFacts.leb_refl. apply Hnan. now left.
  - intros j x Hj. lia.
Qed.

Lemma firstn_incl {A} (k : nat) (l : list A) (x : A) :
  In x (firstn k l) -> In x l.
Proof.
  intros H. rewrite <- (firstn_skipn k l). apply in_or_app. now left.
Qed.

(** Reading the calls of [generateProof] and the percents off a trace. *)
Lemma proofCalls_app {Nonce} (t1 t2 : list (Event Nonce)) :
  proofCalls (t1 ++ t2) = proofCalls t1 ++ proofCalls t2.
Proof. apply flat_map_app. Qed.

Lemma proofCalls_progressEvents {Nonce} onProgress steps :
  proofCalls (progressEvents (Nonce := Nonce) onProgress steps) = [].
Proof.
  destruct onProgress; [|reflexivity].
  induction steps; simpl; auto.
Qed.

Lemma proofCalls_In {Nonce} (inputs : ProofInputs.t Nonce) trace :
  In (GenerateProof inputs) trace <-> In inputs (proofCalls trace).
Proof.
  unfold proofCalls. rewrite in_flat_map. split.
  - intros H. exists (GenerateProof inputs). simpl. auto.
  - intros (ev & Hev & Hin). destruct ev; simpl in Hin; try tauto.
    destruct Hin as [->|[]]. exact Hev.
Qed.

Lemma percents_app {Nonce} (t1 t2 : list (Event Nonce)) :
  percents (t1 ++ t2) = percents t1 ++ percents t2.
Proof. apply flat_map_app. Qed.

Lemma percents_progressEvents {Nonce} steps :
  percents (progressEvents (Nonce := Nonce) true steps) = map fst steps.
Proof.
  induction steps as [|x steps IH]; [reflexivity|].
  simpl. f_equal. exact IH.
Qed.

Section Run.

Variable ProofResult : Type.
Variable isValid : ProofResult -> bool.
Variable Nonce : Type.
Variable generateRandomNonce : Nonce.
Variable generateProof :
  ProofInputs.t Nonce -> list (float * string) * (Thrown + ProofResult).
Variable fetch : string -> list (string * string) -> Thrown + Response.t.
Variable Date_now : float.
Variable numberToString : float -> string.
Variable toFixed : float -> nat -> string.
Variable responseData : NubankBankData.t.

Local Abbreviation Ev := (Event Nonce).
Local Abbreviation run :=
  (vlayerGenerateProof ProofResult isValid Nonce generateRandomNonce
     generateProof fetch Date_now numberToString toFixed responseData).

(** Callbacks that only report: the reports, one after the other. *)
Lemma invokeEach_reports (callback : float -> string -> M Ev unit)
    (f : float -> string -> list Ev) (calls : list (float * string)) :
  (forall p text, callback p text = (f p text, inr tt)) ->
  invokeEach calls callback
  = (flat_map (fun c => f (fst c) (snd c)) calls, inr tt).
Proof.
  intros Hf. induction calls as [|[p text] calls IH]; simpl.
  - reflexivity.
  - rewrite Hf, IH. reflexivity.
Qed.

Lemma flat_map_singleton {A B} (g : A -> B) (l : list A) :
  flat_map (fun x => [g x]) l = map g l.
Proof. induction l; simpl; congruence. Qed.

Lemma flat_map_nil {A B} (l : list A) :
  flat_map (fun _ : A => @nil B) l = [].
Proof. induction l; simpl; congruence. Qed.

Local Abbreviation proofInputs := (VLayer.proofInputs generateRandomNonce).
Local Abbreviation traceToProof :=
  (VLayer.traceToProof generateRandomNonce generateProof).

Ltac stage :=
  cbn -[toMicro mappedProgress convertBRLToWLD insufficientBalanceMessage
        String.append fold_left invokeEach].

(** The whole pipeline as one case analysis: which stage ends the run,
    with what outcome, after which events. *)
Lemma run_stages (threshold : float) (accessToken : option string)
    (onProgress : bool) :
  run threshold accessToken onProgress =
  let headers := requestHeaders accessToken in
  match fetch NUBANK_DATA_URL headers with
  | inl e =>
      (progressEvents onProgress (firstn 2 checkpoints)
         ++ [Fetch NUBANK_DATA_URL headers],
       inl (ThrownError ("Falha ao criar WebProof: "
                           ++ messageOr "Erro desconhecido" e)%string))
  | inr response =>
      match NubankBankData.accounts responseData with
      | [] =>
          (progressEvents onProgress (firstn 2 checkpoints)
             ++ [Fetch NUBANK_DATA_URL headers]
             ++ progressEvents onProgress (firstn 2 (skipn 2 checkpoints)),
           inl (ThrownError "Nenhuma conta encontrada no Nubank"))
      | a :: l =>
          if (balanceInWLD a l <? threshold)%float
          then
            (progressEvents onProgress (firstn 2 checkpoints)
               ++ [Fetch NUBANK_DATA_URL headers]
               ++ progressEvents onProgress (firstn 4 (skipn 2 checkpoints)),
             inl (ThrownError
                    (insufficientBalanceMessage numberToString toFixed
                       threshold (balanceInWLD a l))))
          else
            match snd (generateProof (proofInputs threshold a l)) with
            | inl e =>
                (traceToProof threshold headers onProgress a l,
                 inl (ThrownError
                        (messageOr
                           "Erro desconhecido ao gerar prova com VLayer" e)))
            | inr proof =>
                if isValid proof
                then
                  (traceToProof threshold headers onProgress a l
                     ++ progressEvents onProgress
                          [(100%float, "Prova gerada com sucesso!")],
                   inr (VLayerResult.mk
                          (WebProof.mk NUBANK_DATA_URL response responseData
                             Date_now)
                          (Web.mk NUBANK_DATA_URL responseData responseData)
                          responseData (selected a l) proof threshold
                          (balanceInWLD a l)))
                else
                  (traceToProof threshold headers onProgress a l,
                   inl (ThrownError "A prova gerada não é válida"))
            end
      end
  end.
Proof.
  unfold vlayerGenerateProof, createWebProof, verifyWebProof,
    callGenerateProof, VLayer.traceToProof, VLayer.proofInputs, balanceInWLD,
    selected.
  cbv zeta.
  destruct (fetch NUBANK_DATA_URL (requestHeaders accessToken)) as [e|response].
  { destruct onProgress, e; reflexivity. }
  assert (Hsimpl : forall b : bool,
             (negb b && negb (truthy responseData))%bool = false)
    by (intros []; reflexivity).
  destruct onProgress;
    stage; rewrite Hsimpl; stage;
    (destruct (NubankBankData.accounts responseData) as [|a l];
     [ reflexivity | ]);
    stage;
    (destruct (convertBRLToWLD _ _ <? threshold)%float; [ reflexivity | ]);
    stage;
    (destruct (generateProof _) as [calls result]);
    first
      [ rewrite (invokeEach_reports _
                   (fun p text => [Progress (mappedProgress p) text]))
          by reflexivity
      | rewrite (invokeEach_reports _ (fun _ _ => [])) by reflexivity ];
    rewrite ?flat_map_singleton, ?flat_map_nil;
    stage;
    (destruct result as [[msg|]|proof]; [ | | destruct (isValid proof) ]);
    stage;
    rewrite ?map_map, ?app_nil_r, <- ?app_assoc; stage;
    reflexivity.
Qed.

Local Abbreviation highest :=
  (getNubankAccountWithHighestBalance Nonce fetch Date_now numberToString
     responseData).

Lemma highest_outcome (accessToken : option string) :
  outcome (highest accessToken) =
  match fetch NUBANK_DATA_URL (requestHeaders accessToken) with
  | inl e =>
      inl (ThrownError
             ("Falha ao buscar dados do Nubank: "
                ++ ("Falha ao criar WebProof: "
                      ++ messageOr "Erro desconhecido" e))%string)
  | inr _ =>
      match NubankBankData.accounts responseData with
      | [] => inl (ThrownError "Nenhuma conta encontrada no Nubank")
      | a :: l => inr (selected a l)
      end
  end.
Proof.
  unfold getNubankAccountWithHighestBalance, fetchNubankData, createWebProof,
    verifyWebProof, selected.
  destruct (fetch NUBANK_DATA_URL (requestHeaders accessToken)) as [e|response].
  { destruct e; reflexivity. }
  assert (Hsimpl : forall b : bool,
             (negb b && negb (truthy responseData))%bool = false)
    by (intros []; reflexivity).
  stage. rewrite Hsimpl. stage.
  destruct (NubankBankData.accounts responseData) as [|a l]; reflexivity.
Qed.

(** The calls of [generateProof] in a run: none, or the single call made
    once the comparison has passed. *)
Lemma run_proofCalls (threshold : float) (accessToken : option string)
    (onProgress : bool) :
  proofCalls (events (run threshold accessToken onProgress)) =
  match fetch NUBANK_DATA_URL (requestHeaders accessToken) with
  | inl _ => []
  | inr _ =>
      match NubankBankData.accounts responseData with
      | [] => []
      | a :: l =>
          if (balanceInWLD a l <? threshold)%float then []
          else [proofInputs threshold a l]
      end
  end.
Proof.
  rewrite run_stages. cbv zeta.
  destruct (fetch _ _) as [e|response];
    [|destruct (NubankBankData.accounts responseData) as [|a l];
      [|destruct (balanceInWLD a l <? threshold)%float;
        [|destruct (snd (generateProof _)) as [e|proof];
          [|destruct (isValid proof)]]]];
    unfold events, VLayer.traceToProof; cbn [fst];
    rewrite ?proofCalls_app, ?proofCalls_progressEvents; reflexivity.
Qed.

(** The percents a run hands to its progress callback. *)
Lemma run_percents (threshold : float) (accessToken : option string) :
  percents (events (run threshold accessToken true)) =
  match fetch NUBANK_DATA_URL (requestHeaders accessToken) with
  | inl _ => map fst (firstn 2 checkpoints)
  | inr _ =>
      match NubankBankData.accounts responseData with
      | [] => map fst (firstn 4 checkpoints)
      | a :: l =>
          if (balanceInWLD a l <? threshold)%float
          then map fst (firstn 6 checkpoints)
          else
            map fst checkpoints
              ++ map mappedProgress
                   (map fst (fst (generateProof (proofInputs threshold a l))))
              ++ match snd (generateProof (proofInputs threshold a l)) with
                 | inr proof => if isValid proof then [100%float] else []
                 | inl _ => []
                 end
      end
  end.
Proof.
  rewrite run_stages. cbv zeta.
  destruct (fetch _ _) as [e|response];
    [|destruct (NubankBankData.accounts responseData) as [|a l];
      [|destruct (balanceInWLD a l <? threshold)%float;
        [|destruct (snd (generateProof _)) as [e|proof];
          [|destruct (isValid proof)]]]];
    unfold events, VLayer.traceToProof; cbn [fst];
    rewrite ?percents_app, ?percents_progressEvents, ?map_map;
    simpl; rewrite ?app_nil_r; reflexivity.
Qed.

(** C6 -- Account selection.  With the payload fetched: when the accounts
    list is empty, both [getNubankAccountWithHighestBalance] and the pipeline
    throw "Nenhuma conta encontrada no Nubank" and return no record; when it
    is not empty (its balances being numbers, not NaN, as JSON numbers are),
    the function returns, and the pipeline selects, the first account in
    source order whose balance is the maximum: no balance of the list exceeds
    it and every balance before it is strictly below it.  The pipeline goes on
    with that account whichever way the run ends: its balance is the one the
    "Saldo insuficiente" error quotes, the one handed, scaled, to
    [generateProof], and the account is the [selectedAccount] of the result,
    which the run does return when the proof that comes back has its flag
    set. *)
Theorem selects_first_maximum (accessToken : option string)
    (response : Response.t) :
  fetch NUBANK_DATA_URL (requestHeaders accessToken) = inr response ->
  (NubankBankData.accounts responseData = [] ->
   outcome (highest accessToken)
     = inl (ThrownError "Nenhuma conta encontrada no Nubank")
   /\ forall threshold onProgress,
        outcome (run threshold accessToken onProgress)
          = inl (ThrownError "Nenhuma conta encontrada no Nubank"))
  /\
  (forall a l,
     NubankBankData.accounts responseData = a :: l ->
     (forall x, In x (a :: l) -> isNaN (bal x) = false) ->
     exists i s,
       outcome (highest accessToken) = inr s
       /\ nth_error (a :: l) i = Some s
       /\ (forall x, In x (a :: l) -> (bal x <=? bal s)%float = true)
       /\ (forall j x, (j < i)%nat -> nth_error (a :: l) j = Some x ->
                       (bal x <? bal s)%float = true)
       /\ forall threshold onProgress,
            let balanceWLD := convertBRLToWLD (bal s) defaultExchangeRate in
            let inputs :=
              ProofInputs.mk (toMicro threshold) generateRandomNonce
                (toMicro balanceWLD) generateRandomNonce in
            ((balanceWLD <? threshold)%float = true ->
             outcome (run threshold accessToken onProgress)
             = inl (ThrownError
                      (insufficientBalanceMessage numberToString toFixed
                         threshold balanceWLD)))
            /\ ((balanceWLD <? threshold)%float = false ->
                proofCalls (events (run threshold accessToken onProgress))
                = [inputs]
                /\ (forall proof,
                      snd (generateProof inputs) = inr proof ->
                      isValid proof = true ->
                      exists r,
                        outcome (run threshold accessToken onProgress) = inr r
                        /\ VLayerResult.selectedAccount r = s))
            /\ (forall r,
                  outcome (run threshold accessToken onProgress) = inr r ->
                  VLayerResult.selectedAccount r = s)).
Proof.
  intros Hfetch. split.
  - intros Hacc. split.
    + rewrite highest_outcome, Hfetch, Hacc. reflexivity.
    + intros threshold onProgress.
      rewrite run_stages. cbv zeta. rewrite Hfetch, Hacc. reflexivity.
  - intros a l Hacc Hnan.
    destruct (higherBalance_first_maximum a l Hnan) as (i & Hi & Hmax & Hfirst).
    exists i, (selected a l).
    split; [rewrite highest_outcome, Hfetch, Hacc; reflexivity|].
    split; [exact Hi|]. split; [exact Hmax|]. split; [exact Hfirst|].
    intros threshold onProgress. cbv zeta.
    change (convertBRLToWLD (bal (selected a l)) defaultExchangeRate)
      with (balanceInWLD a l).
    split; [|split].
    + intros Hcmp. rewrite run_stages. cbv zeta.
      rewrite Hfetch, Hacc, Hcmp. reflexivity.
    + intros Hcmp. split.
      * rewrite run_proofCalls, Hfetch, Hacc, Hcmp. reflexivity.
      * intros proof Hproof Hvalid. rewrite run_stages. cbv zeta.
        rewrite Hfetch, Hacc, Hcmp. unfold VLayer.proofInputs.
        rewrite Hproof, Hvalid. eexists. split; reflexivity.
    + intros r. rewrite run_stages. cbv zeta. rewrite Hfetch, Hacc.
      destruct (balanceInWLD a l <? threshold)%float; [discriminate|].
      destruct (snd (generateProof _)) as [e|proof]; [discriminate|].
      destruct (isValid proof); [|discriminate].
      unfold outcome. simpl. intros [= <-]. reflexivity.
Qed.

(** C1, as amended -- What the caller receives.  On every successful run the
    returned [VLayerResult] holds, next to the proof (whose [isValid] flag is
    set) and the threshold as given, the WebProof and the Web with the whole
    bank payload, the payload itself, the selected account record, and the
    selected balance converted to WLD. *)
Theorem result_holds_bank_data (threshold : float)
    (accessToken : option string) (onProgress : bool)
    (r : VLayerResult.t ProofResult) :
  outcome (run threshold accessToken onProgress) = inr r ->
  exists response a l,
    fetch NUBANK_DATA_URL (requestHeaders accessToken) = inr response
    /\ NubankBankData.accounts responseData = a :: l
    /\ r = VLayerResult.mk
             (WebProof.mk NUBANK_DATA_URL response responseData Date_now)
             (Web.mk NUBANK_DATA_URL responseData responseData)
             responseData (selected a l) (VLayerResult.proof r) threshold
             (convertBRLToWLD (NubankAccount.balance (selected a l))
                defaultExchangeRate)
    /\ isValid (VLayerResult.proof r) = true.
Proof.
  rewrite run_stages. cbv zeta.
  destruct (fetch _ _) as [e|response]; [discriminate|].
  destruct (NubankBankData.accounts responseData) as [|a l]; [discriminate|].
  destruct (balanceInWLD a l <? threshold)%float; [discriminate|].
  destruct (snd (generateProof _)) as [e|proof]; [discriminate|].
  destruct (isValid proof) eqn:Hvalid; [|discriminate].
  unfold outcome. simpl. intros [= <-].
  exists response, a, l. simpl. auto.
Qed.


(** C3 -- When the comparison [balanceInWLD < threshold] holds, the run
    throws the error "Saldo insuficiente", whose message carries the amount
    required (the threshold) and the amount available (the balance in WLD,
    to two decimals), and [generateProof] is not called at all. *)
Theorem insufficient_balance_aborts_before_proof (threshold : float)
    (accessToken : option string) (onProgress : bool)
    (response : Response.t) (a : NubankAccount.t)
    (l : list NubankAccount.t) :
  fetch NUBANK_DATA_URL (requestHeaders accessToken) = inr response ->
  NubankBankData.accounts responseData = a :: l ->
  (balanceInWLD a l <? threshold)%float = true ->
  outcome (run threshold accessToken onProgress)
    = inl (ThrownError
             ("Saldo insuficiente. Necessário: " ++ numberToString threshold
                ++ " WLD, Disponível: " ++ toFixed (balanceInWLD a l) 2
                ++ " WLD")%string)
  /\ List.length (proofCalls (events (run threshold accessToken onProgress)))
     = 0%nat.
Proof.
  intros Hfetch Hacc Hcmp. split.
  - rewrite run_stages. cbv zeta. rewrite Hfetch, Hacc, Hcmp. reflexivity.
  - rewrite run_proofCalls, Hfetch, Hacc, Hcmp. reflexivity.
Qed.

(** C10 -- Whenever [generateProof] is called, its inputs have
    [secret_nonce] equal to [nonce], both being the one value obtained from
    [generateRandomNonce]; a run calls [generateProof] at most once. *)
Theorem blinding_is_the_public_nonce (threshold : float)
    (accessToken : option string) (onProgress : bool)
    (inputs : ProofInputs.t Nonce) :
  In (GenerateProof inputs)
     (events (run threshold accessToken onProgress)) ->
  ProofInputs.secret_nonce inputs = ProofInputs.nonce inputs
  /\ ProofInputs.nonce inputs = generateRandomNonce
  /\ (List.length
        (proofCalls (events (run threshold accessToken onProgress))) <= 1)%nat.
Proof.
  rewrite proofCalls_In, run_proofCalls.
  destruct (fetch _ _) as [e|response]; [intros []|].
  destruct (NubankBankData.accounts responseData) as [|a l]; [intros []|].
  destruct (balanceInWLD a l <? threshold)%float; [intros []|].
  intros [<-|[]]. simpl. auto.
Qed.


(** C5, as amended -- Normalization.  When the run reaches
    [generateProof], the balance among the inputs is [Math.floor] of the
    selected balance times 0.18 (the pipeline passes no rate of its own) times
    1e6, both products being those of JavaScript numbers, each rounded to the
    nearest binary64 value before the floor is taken; the threshold is scaled
    the same way.  [Math.floor] itself truncates: of a number with a
    fractional part it is the integer n with n <= x < n + 1 on the exact value
    of x, a number without one is left as it is, and the result is never above
    the argument.  In particular a balance of 10.999999 at rate 1.0 gives
    10999999 and not 11000000. *)
Theorem normalization_truncates (threshold : float)
    (accessToken : option string) (onProgress : bool)
    (response : Response.t) (a : NubankAccount.t)
    (l : list NubankAccount.t) :
  fetch NUBANK_DATA_URL (requestHeaders accessToken) = inr response ->
  NubankBankData.accounts responseData = a :: l ->
  (balanceInWLD a l <? threshold)%float = false ->
  proofCalls (events (run threshold accessToken onProgress))
  = [ProofInputs.mk (Math_floor (threshold * 1e6)%float) generateRandomNonce
       (Math_floor ((bal (selected a l) * 0.18) * 1e6)%float)
       generateRandomNonce]
  /\ (forall x s m e,
        Prim2SF x = S754_finite s m e ->
        ((e < 0)%Z ->
         Math_floor x = Z2float (floorZ s m e)
         /\ (floorZ s m e * 2 ^ (- e) <= signedMantissa s m
             < (floorZ s m e + 1) * 2 ^ (- e))%Z)
        /\ ((0 <= e)%Z -> Math_floor x = x))
  /\ (forall x, isNaN x = false -> (Math_floor x <=? x)%float = true)
  /\ toMicro (convertBRLToWLD 10.999999%float 1.0%float) = 10999999%float
  /\ toMicro (convertBRLToWLD 10.999999%float 1.0%float) <> 11000000%float.
Proof.
  intros Hfetch Hacc Hcmp. split; [|split; [|split; [|split]]].
  - rewrite run_proofCalls, Hfetch, Hacc, Hcmp. reflexivity.
  - intros x s m e Hx. rewrite (JSNumFacts.Math_floor_finite x s m e Hx).
    split; intros He.
    + destruct (Z.ltb_spec e 0); [|lia].
      split; [reflexivity|]. now apply JSNumFacts.floorZ_bounds.
    + destruct (Z.ltb_spec e 0); [lia|]. reflexivity.
  - apply Binary64Facts.Math_floor_le.
  - vm_compute. reflexivity.
  - apply JSNumFacts.float_neq. vm_compute. discriminate.
Qed.


End Run.

(** C7, as amended -- [verifyWebProof] validates nothing and never throws:
    for every WebProof, whatever its data, it causes no event and returns
    the Web made of the WebProof's url and of its data, unchanged, as both
    [data] and [json]. *)
Theorem verifyWebProof_accepts_everything {Ev A : Type}
    (webProof : WebProof.t A) :
  verifyWebProof (Ev := Ev) webProof
  = ([], inr (Web.mk (WebProof.url webProof) (WebProof.data webProof)
                (WebProof.data webProof))).
Proof. unfold verifyWebProof, tryCatch, ret. reflexivity. Qed.

(** C7 as stated fails: a WebProof whose data is the text of an error page,
    not structured data, is verified without error. *)
Lemma verifier_accepts_unstructured_payload :
  Json.isStructured (Json.JString "<html>502 Bad Gateway</html>") = false
  /\ outcome
       (verifyWebProof (Ev := Event string)
          (WebProof.mk NUBANK_DATA_URL (Response.mk false 502%float)
             (Json.JString "<html>502 Bad Gateway</html>") Sample.now))
     = inr (Web.mk NUBANK_DATA_URL
              (Json.JString "<html>502 Bad Gateway</html>")
              (Json.JString "<html>502 Bad Gateway</html>")).
Proof. split; reflexivity. Qed.

(** ** The claims on the sample environment *)

(** C1 as stated fails: two successful runs with the same threshold, the
    same nonce and the same proof return different values, because the
    returned value holds the bank payload, the selected account and its
    balance in WLD (here 2250.0899999999997). *)
Lemma result_discloses_balance :
  exists r1 r2,
    outcome (Sample.run Sample.proves mockNubankResponse 1%float) = inr r1
    /\ outcome (Sample.run Sample.proves Sample.otherResponse 1%float) = inr r2
    /\ VLayerResult.proof r1 = VLayerResult.proof r2
    /\ VLayerResult.threshold r1 = VLayerResult.threshold r2
    /\ r1 <> r2
    /\ VLayerResult.bankData r1 = mockNubankResponse
    /\ NubankAccount.id (VLayerResult.selectedAccount r1) = "acc-002"
    /\ VLayerResult.balance r1 = 2250.0899999999997%float.
Proof.
  eexists. eexists.
  split; [vm_compute; reflexivity|].
  split; [vm_compute; reflexivity|].
  repeat split.
  intros H. apply (f_equal VLayerResult.balance) in H.
  revert H. apply JSNumFacts.float_neq. vm_compute. discriminate.
Qed.

(** A witness of C1 as amended: the run on the mock payload. *)
Lemma result_holds_bank_data_witness :
  exists r,
    outcome (Sample.run Sample.proves mockNubankResponse 1%float) = inr r
    /\ VLayerResult.bankData r = mockNubankResponse
    /\ Sample.valid (VLayerResult.proof r) = true.
Proof.
  eexists. split; [vm_compute; reflexivity|].
  destruct (result_holds_bank_data Sample.Proof Sample.valid string
              Sample.nonce Sample.proves Sample.fetchOk Sample.now
              Sample.numberToString Sample.toFixed mockNubankResponse
              1%float None true _ eq_refl)
    as (response & a & l & _ & _ & _ & Hvalid).
  split; [reflexivity|exact Hvalid].
Defined.


(** A witness of C3: the mock payload against a threshold of 3000 WLD. *)
Lemma insufficient_balance_aborts_before_proof_witness :
  (balanceInWLD
     (NubankAccount.mk "acc-001" "Conta Corrente" NubankAccount.checking
        5000.75%float "BRL")
     [NubankAccount.mk "acc-002" "NuConta" NubankAccount.savings
        12500.50%float "BRL"] <? 3000)%float = true
  /\ List.length
       (proofCalls
          (events (Sample.run Sample.proves mockNubankResponse 3000%float)))
     = 0%nat.
Proof.
  split; [vm_compute; reflexivity|].
  exact (proj2 (insufficient_balance_aborts_before_proof Sample.Proof
                  Sample.valid string Sample.nonce Sample.proves
                  Sample.fetchOk Sample.now Sample.numberToString
                  Sample.toFixed mockNubankResponse 3000%float None true
                  (Response.mk true 200%float) _ _ eq_refl eq_refl eq_refl)).
Defined.


(** A witness of C6: with two accounts tied at the highest balance, the
    first of them is the one the function returns and the one the run of the
    pipeline selects and returns. *)
Lemma selects_first_maximum_witness :
  exists s r,
    outcome
      (getNubankAccountWithHighestBalance string Sample.fetchOk Sample.now
         Sample.numberToString Sample.tiedResponse None) = inr s
    /\ NubankAccount.id s = "acc-002"
    /\ outcome (Sample.run Sample.proves Sample.tiedResponse 1%float) = inr r
    /\ VLayerResult.selectedAccount r = s.
Proof.
  destruct (proj2 (selects_first_maximum Sample.Proof Sample.valid string
                     Sample.nonce Sample.proves Sample.fetchOk Sample.now
                     Sample.numberToString Sample.toFixed
                     Sample.tiedResponse None (Response.mk true 200%float)
                     eq_refl)
              _ _ eq_refl)
    as (i & s & Hs & _ & _ & _ & Hrun).
  { intros x [<-|[<-|[<-|[]]]]; reflexivity. }
  vm_compute in Hs. injection Hs as <-.
  destruct (Hrun 1%float true) as (_ & Hproof & _).
  destruct (proj2 (Hproof eq_refl) _ eq_refl eq_refl) as (r & Hr & Hselected).
  eexists _, r. split; [reflexivity|]. split; [reflexivity|].
  split; [exact Hr|exact Hselected].
Defined.

(** A witness of C5 as amended: the call made on the mock payload. *)
Lemma normalization_truncates_witness :
  (balanceInWLD
     (NubankAccount.mk "acc-001" "Conta Corrente" NubankAccount.checking
        5000.75%float "BRL")
     [NubankAccount.mk "acc-002" "NuConta" NubankAccount.savings
        12500.50%float "BRL"] <? 1)%float = false
  /\ proofCalls (events (Sample.run Sample.proves mockNubankResponse 1%float))
     = [ProofInputs.mk (Math_floor (1 * 1e6)%float) Sample.nonce
          (Math_floor ((12500.50 * 0.18) * 1e6)%float) Sample.nonce].
Proof.
  split; [vm_compute; reflexivity|].
  exact (proj1 (normalization_truncates Sample.Proof Sample.valid string
                  Sample.nonce Sample.proves Sample.fetchOk Sample.now
                  Sample.numberToString Sample.toFixed mockNubankResponse
                  1%float None true (Response.mk true 200%float) _ _
                  eq_refl eq_refl eq_refl)).
Defined.



(** A witness of C10: the call made on the mock payload. *)
Lemma blinding_is_the_public_nonce_witness :
  In (GenerateProof
        (ProofInputs.mk 1000000%float Sample.nonce 2250089999%float
           Sample.nonce))
     (events (Sample.run Sample.proves mockNubankResponse 1%float))
  /\ ProofInputs.secret_nonce
       (ProofInputs.mk 1000000%float Sample.nonce 2250089999%float
          Sample.nonce) = Sample.nonce.
Proof.
  assert (H : In (GenerateProof
                    (ProofInputs.mk 1000000%float Sample.nonce
                       2250089999%float Sample.nonce))
                 (events (Sample.run Sample.proves mockNubankResponse
                            1%float))).
  { vm_compute. do 11 right. left. reflexivity. }
  split; [exact H|].
  destruct (blinding_is_the_public_nonce Sample.Proof Sample.valid string
              Sample.nonce Sample.proves Sample.fetchOk Sample.now
              Sample.numberToString Sample.toFixed mockNubankResponse
              1%float None true _ H) as (H1 & H2 & _).
  exact (eq_trans H1 H2).
Defined.

End VLayerFacts.

(* ------------------------------------------------------------------ *)
(** ** The normalization against the product without rounding *)

Module ExactFacts.

Import Exec JSNum VLayer.
Import QArith.
Open Scope list_scope.

(** C5 as stated fails, whichever numbers the product is read on.  On the
    amounts as written: the run on the mock payload selects the balance
    12500.50 and hands 2250089999 to [generateProof], one below
    floor(12500.5 x 0.18 x 10^6) = 2250090000.  On the numbers the binary64
    values stand for: the balance 5000.75 is scaled to 900135000, one above
    the integer part 900134999 of the product of 5000.75, the binary64 value
    of 0.18 and 10^6. *)
Lemma normalization_differs_from_exact_floor :
  proofCalls (events (Sample.run Sample.proves mockNubankResponse 1%float))
  = [ProofInputs.mk 1000000%float Sample.nonce 2250089999%float Sample.nonce]
  /\ Exact.normalize 12500.5%Q 0.18%Q = 2250090000%Z
  /\ toMicro (convertBRLToWLD 5000.75%float defaultExchangeRate)
     = 900135000%float
  /\ (exists balance rate,
        Exact.exactValue 5000.75%float = Some balance
        /\ Exact.exactValue defaultExchangeRate = Some rate
        /\ Exact.normalize balance rate = 900134999%Z).
Proof.
  split; [vm_compute; reflexivity|].
  split; [vm_compute; reflexivity|].
  split; [vm_compute; reflexivity|].
  eexists _, _. split; [vm_compute; reflexivity|].
  split; [vm_compute; reflexivity|]. vm_compute. reflexivity.
Qed.

End ExactFacts.

(* ------------------------------------------------------------------ *)
(** ** The groups store: ids *)

Module SlugFacts.

Import Groups.
Open Scope string_scope.

Lemma isDash_eq (c : ascii) : isDash c = true -> c = "-"%char.
Proof. unfold isDash. apply Ascii.eqb_eq. Qed.

Lemma isDash_not_alnum (c : ascii) : isDash c = true -> isAlnum c = false.
Proof. intros H. apply isDash_eq in H. subst. reflexivity. Qed.

(** The first replacement leaves words joined by single dashes. *)
Lemma replaceRuns_dashSeparated (inRun : bool) (s : string) :
  dashSeparated inRun (replaceRuns inRun s) = true.
Proof.
  revert inRun. induction s as [|c s IH]; intros inRun; [reflexivity|].
  cbn [replaceRuns]. destruct (isAlnum c) eqn:Hc.
  - cbn [dashSeparated]. rewrite Hc. apply IH.
  - destruct inRun.
    + apply IH.
    + cbn [dashSeparated]. rewrite (IH true). reflexivity.
Qed.

(** Once the leading dashes are gone the text opens with a word. *)
Lemma dropLeadingDashes_dashSeparated (previousDash : bool) (s : string) :
  dashSeparated previousDash s = true ->
  dashSeparated true (dropLeadingDashes s) = true.
Proof.
  revert previousDash. induction s as [|c s IH]; intros p H; [reflexivity|].
  cbn [dropLeadingDashes]. cbn [dashSeparated] in H.
  destruct (isDash c) eqn:Hd.
  - rewrite (isDash_not_alnum c Hd) in H.
    apply andb_true_iff in H as [_ H]. exact (IH true H).
  - cbn [dashSeparated]. destruct (isAlnum c); [exact H|discriminate].
Qed.

(** Dropping the trailing dashes keeps the shape and leaves no dash at the
    end. *)
Lemma dropTrailingDashes_shape (previousDash : bool) (s : string) :
  dashSeparated previousDash s = true ->
  dashSeparated previousDash (dropTrailingDashes s) = true
  /\ endsWithDash (dropTrailingDashes s) = false.
Proof.
  revert previousDash. induction s as [|c s IH]; intros p H; [now split|].
  cbn [dashSeparated] in H. cbn [dropTrailingDashes].
  destruct (isAlnum c) eqn:Hc.
  - destruct (IH false H) as [IH1 IH2].
    assert (Hd : isDash c = false).
    { destruct (isDash c) eqn:Hd; [|reflexivity].
      rewrite (isDash_not_alnum c Hd) in Hc. discriminate. }
    destruct (dropTrailingDashes s) as [|c' t].
    + rewrite Hd. cbn [dashSeparated endsWithDash]. rewrite Hc, Hd. now split.
    + cbn [dashSeparated endsWithDash]. rewrite Hc. now split.
  - apply andb_true_iff in H as [H Hs]. apply andb_true_iff in H as [Hd Hp].
    destruct (IH true Hs) as [IH1 IH2].
    destruct (dropTrailingDashes s) as [|c' t].
    + rewrite Hd. now split.
    + cbn [dashSeparated endsWithDash]. rewrite Hc, Hd, Hp. now split.
Qed.

(** On words joined by single dashes the first replacement changes
    nothing. *)
Lemma replaceRuns_fixes (previousDash : bool) (s : string) :
  dashSeparated previousDash s = true -> replaceRuns previousDash s = s.
Proof.
  revert previousDash. induction s as [|c s IH]; intros p H; [reflexivity|].
  cbn [dashSeparated] in H. cbn [replaceRuns].
  destruct (isAlnum c).
  - now rewrite (IH false H).
  - apply andb_true_iff in H as [H Hs]. apply andb_true_iff in H as [Hd Hp].
    destruct p; [discriminate|].
    rewrite (IH true Hs). now rewrite (isDash_eq c Hd).
Qed.

Lemma dropLeadingDashes_fixes (s : string) :
  dashSeparated true s = true -> dropLeadingDashes s = s.
Proof.
  destruct s as [|c s]; [reflexivity|]. cbn [dashSeparated dropLeadingDashes].
  destruct (isAlnum c) eqn:Hc.
  - destruct (isDash c) eqn:Hd; [|reflexivity].
    rewrite (isDash_not_alnum c Hd) in Hc. discriminate.
  - rewrite andb_false_r. discriminate.
Qed.

Lemma dropTrailingDashes_fixes (s : string) :
  endsWithDash s = false -> dropTrailingDashes s = s.
Proof.
  induction s as [|c s IH]; intros H; [reflexivity|].
  cbn [dropTrailingDashes]. destruct s as [|c' s'].
  - cbn [endsWithDash] in H. cbn. now rewrite H.
  - rewrite (IH H). reflexivity.
Qed.

Lemma replaceRuns_no_alnum (inRun : bool) (s : string) :
  (forall c, In c (list_ascii_of_string s) -> isAlnum c = false) ->
  replaceRuns inRun s = (if inRun then "" else match s with
                                               | "" => ""
                                               | _ => "-"
                                               end).
Proof.
  revert inRun. induction s as [|c s IH]; intros inRun H.
  - now destruct inRun.
  - cbn [replaceRuns]. rewrite (H c) by (now left).
    rewrite (IH true) by (intros c' Hc'; apply H; now right).
    now destruct inRun.
Qed.

Section Slug.

Variable toLowerCase : string -> string.

Local Abbreviation slug := (Groups.slug toLowerCase).

(** Whatever the name and whatever [toLowerCase] makes of it, the id of
    a new group is a (possibly empty) sequence of words over [a-z0-9] joined
    by single dashes: it has no other character, no dash at either end and
    no two dashes in a row. *)
Theorem slug_is_well_formed (name : string) :
  wellFormedId (slug name) = true.
Proof.
  unfold Groups.slug, wellFormedId.
  pose proof (replaceRuns_dashSeparated false (toLowerCase name)) as H.
  apply dropLeadingDashes_dashSeparated in H.
  apply dropTrailingDashes_shape in H as [H1 H2].
  now rewrite H1, H2.
Qed.

(** A well-formed id that [toLowerCase] leaves as it is is its own id: a
    group named after the id of another one gets that very id. *)
Theorem slug_of_id (id : string) :
  wellFormedId id = true -> toLowerCase id = id -> slug id = id.
Proof.
  unfold wellFormedId, Groups.slug. intros H Hlow.
  apply andb_true_iff in H as [H1 H2]. apply negb_true_iff in H2.
  rewrite Hlow.
  assert (H0 : dashSeparated false id = true).
  { destruct id as [|c s]; [reflexivity|]. cbn [dashSeparated] in *.
    destruct (isAlnum c); [exact H1|].
    rewrite andb_false_r in H1. discriminate. }
  rewrite (replaceRuns_fixes false id H0).
  rewrite (dropLeadingDashes_fixes id H1).
  apply dropTrailingDashes_fixes, H2.
Qed.

(** A name in which [toLowerCase] leaves no character of [a-z0-9] gets the
    empty id. *)
Theorem slug_without_alnum_is_empty (name : string) :
  (forall c, In c (list_ascii_of_string (toLowerCase name)) ->
             isAlnum c = false) ->
  slug name = "".
Proof.
  intros H. unfold Groups.slug. rewrite (replaceRuns_no_alnum false _ H).
  destruct (toLowerCase name); reflexivity.
Qed.

End Slug.

End SlugFacts.

(* ------------------------------------------------------------------ *)
(** ** The groups store: joined groups *)

Module GroupsFacts.

Import Exec Groups.
Open Scope string_scope.
Open Scope list_scope.

(** *** Storage and arrays *)

Lemma lookup_store_same (key value : string) items :
  lookup key (store key value items) = Some value.
Proof.
  induction items as [|[k v] items IH]; simpl.
  - now rewrite String.eqb_refl.
  - destruct (String.eqb k key) eqn:E; simpl.
    + now rewrite String.eqb_refl.
    + now rewrite E.
Qed.

Lemma lookup_store_other (k key value : string) items :
  k <> key -> lookup k (store key value items) = lookup k items.
Proof.
  intros Hk. induction items as [|[k' v] items IH]; simpl.
  - destruct (String.eqb key k) eqn:E; [|reflexivity].
    apply String.eqb_eq in E. congruence.
  - destruct (String.eqb k' key) eqn:E; simpl.
    + apply String.eqb_eq in E. subst k'.
      destruct (String.eqb key k) eqn:E'; [|reflexivity].
      apply String.eqb_eq in E'. congruence.
    + now rewrite IH.
Qed.

Lemma store_store (key v1 v2 : string) items :
  store key v2 (store key v1 items) = store key v2 items.
Proof.
  induction items as [|[k v] items IH]; simpl.
  - now rewrite String.eqb_refl.
  - destruct (String.eqb k key) eqn:E; simpl.
    + now rewrite String.eqb_refl.
    + now rewrite E, IH.
Qed.

Lemma NoDup_snoc {A} (l : list A) (x : A) :
  NoDup l -> ~ In x l -> NoDup (l ++ [x]).
Proof.
  induction 1 as [|a l Ha Hl IH]; intros Hx; simpl.
  - constructor; [tauto|constructor].
  - constructor.
    + rewrite in_app_iff. simpl in *. intuition congruence.
    + apply IH. simpl in Hx. tauto.
Qed.

(** [findIndex] answers with the first index at which the test holds. *)
Lemma findIndex_Some {A} (p : A -> bool) (l : list A) (i : nat) :
  findIndex p l = Some i ->
  exists x, nth_error l i = Some x /\ p x = true
            /\ forall j y, (j < i)%nat -> nth_error l j = Some y -> p y = false.
Proof.
  revert i. induction l as [|a l IH]; intros i; simpl; [discriminate|].
  destruct (p a) eqn:Ha.
  - intros [= <-]. exists a. repeat split; auto. intros j y Hj. lia.
  - destruct (findIndex p l) as [k|]; [|discriminate].
    intros [= <-]. destruct (IH k eq_refl) as (x & Hx & Hp & Hfirst).
    exists x. repeat split; auto.
    intros [|j] y Hj; simpl.
    + now intros [= <-].
    + apply Hfirst. lia.
Qed.

Lemma findIndex_None {A} (p : A -> bool) (l : list A) :
  findIndex p l = None <-> existsb p l = false.
Proof.
  induction l as [|a l IH]; simpl; [tauto|].
  destruct (p a); simpl.
  - split; discriminate.
  - rewrite <- IH. destruct (findIndex p l); simpl; split; congruence.
Qed.

Lemma updateAt_length {A} (i : nat) (f : A -> A) (l : list A) :
  List.length (updateAt i f l) = List.length l.
Proof.
  revert i. induction l as [|a l IH]; intros [|i]; simpl; auto.
Qed.

Lemma updateAt_same {A} (i : nat) (f : A -> A) (l : list A) (x : A) :
  nth_error l i = Some x -> nth_error (updateAt i f l) i = Some (f x).
Proof.
  revert i. induction l as [|a l IH]; intros [|i]; simpl; try discriminate.
  - now intros [= <-].
  - apply IH.
Qed.

Lemma updateAt_other {A} (i j : nat) (f : A -> A) (l : list A) :
  j <> i -> nth_error (updateAt i f l) j = nth_error l j.
Proof.
  revert i j. induction l as [|a l IH]; intros [|i] [|j] H; simpl; auto.
  - congruence.
Qed.

Lemma updateAt_map {A B} (g : A -> B) (i : nat) (f : A -> A) (l : list A) :
  (forall x, g (f x) = g x) -> map g (updateAt i f l) = map g l.
Proof.
  intros H. revert i. induction l as [|a l IH]; intros [|i]; simpl; auto.
  - now rewrite H.
  - now rewrite IH.
Qed.

Lemma updateAt_twice {A} (i : nat) (f g : A -> A) (l : list A) :
  updateAt i f (updateAt i g l) = updateAt i (fun x => f (g x)) l.
Proof.
  revert i. induction l as [|a l IH]; intros [|i]; simpl; auto.
  now rewrite IH.
Qed.

Lemma updateAt_ext {A} (i : nat) (f g : A -> A) (l : list A) :
  (forall x, f x = g x) -> updateAt i f l = updateAt i g l.
Proof.
  intros H. revert i. induction l as [|a l IH]; intros [|i]; simpl; auto.
  - now rewrite H.
  - now rewrite IH.
Qed.

(** The index found depends on the ids only. *)
Lemma findIndex_ids (groupId : string) (l1 l2 : list Group.t) :
  joinedIds l1 = joinedIds l2 ->
  findIndex (hasId groupId) l1 = findIndex (hasId groupId) l2.
Proof.
  revert l2. induction l1 as [|a l1 IH]; intros [|b l2]; simpl;
    try discriminate; auto.
  intros [= Hab Hl]. unfold hasId at 1 3. rewrite Hab.
  now rewrite (IH l2 Hl).
Qed.

Lemma existsb_hasId (groupId : string) (l : list Group.t) :
  existsb (hasId groupId) l = false <-> ~ In groupId (joinedIds l).
Proof.
  induction l as [|a l IH]; simpl; [tauto|].
  unfold hasId at 1. destruct (String.eqb (Group.id a) groupId) eqn:E; simpl.
  - apply String.eqb_eq in E. split; [discriminate|tauto].
  - apply String.eqb_neq in E. rewrite IH. tauto.
Qed.

(** The change of the first group with the id: the array keeps its length
    and its ids, the group changed is the first one with the id, and every
    other group is left as it is. *)
Lemma changed_first_match (groupId : string) (change : Group.t -> Group.t)
    (l : list Group.t) :
  (forall g, Group.id (change g) = Group.id g) ->
  List.length (changed groupId change l) = List.length l
  /\ joinedIds (changed groupId change l) = joinedIds l
  /\ (~ In groupId (joinedIds l) -> changed groupId change l = l)
  /\ (In groupId (joinedIds l) ->
      exists i g,
        nth_error l i = Some g /\ Group.id g = groupId
        /\ (forall j g', (j < i)%nat -> nth_error l j = Some g' ->
                         Group.id g' <> groupId)
        /\ nth_error (changed groupId change l) i = Some (change g)
        /\ (forall j, j <> i ->
                      nth_error (changed groupId change l) j = nth_error l j)).
Proof.
  intros Hid. unfold changed.
  destruct (findIndex (hasId groupId) l) as [i|] eqn:Hfind.
  - destruct (findIndex_Some _ _ _ Hfind) as (g & Hg & Hp & Hfirst).
    repeat split.
    + apply updateAt_length.
    + apply updateAt_map, Hid.
    + intros Hnot. exfalso. apply Hnot. unfold joinedIds.
      apply String.eqb_eq in Hp. rewrite <- Hp.
      apply in_map. eapply nth_error_In; eauto.
    + intros _. exists i, g. repeat split; auto.
      * now apply String.eqb_eq.
      * intros j g' Hj Hg'. apply String.eqb_neq. eapply Hfirst; eauto.
      * now apply updateAt_same.
      * intros j Hj. now apply updateAt_other.
  - repeat split; auto.
    intros Hin. apply findIndex_None, existsb_hasId in Hfind. tauto.
Qed.

Lemma in_browser (window : bool) {A} (a b : A) :
  window = true -> (if window then a else b) = a.
Proof. intros ->. reflexivity. Qed.

Section Joined.

Variable window : bool.
Variable getItemError : string -> option Thrown.
Variable setItemError : string -> string -> option Thrown.
Variable parseGroups : string -> Thrown + list Group.t.
Variable stringifyGroups : list Group.t -> string.

Local Abbreviation getJoinedGroups :=
  (Groups.getJoinedGroups window getItemError parseGroups).
Local Abbreviation joined := (Groups.joined window getItemError parseGroups).
Local Abbreviation addJoinedGroup :=
  (Groups.addJoinedGroup window getItemError setItemError parseGroups
     stringifyGroups).
Local Abbreviation changeJoinedGroup :=
  (Groups.changeJoinedGroup window getItemError setItemError parseGroups
     stringifyGroups).
Local Abbreviation updateGroupLastMessage :=
  (Groups.updateGroupLastMessage window getItemError setItemError parseGroups
     stringifyGroups).
Local Abbreviation incrementUnread :=
  (Groups.incrementUnread window getItemError setItemError parseGroups
     stringifyGroups).
Local Abbreviation clearUnread :=
  (Groups.clearUnread window getItemError setItemError parseGroups
     stringifyGroups).
Local Abbreviation persists :=
  (Groups.persists getItemError setItemError parseGroups stringifyGroups).

(** The world after [setItem] took the array of joined groups. *)
Local Abbreviation saved l w :=
  (mkWorld (store STORAGE_KEY (stringifyGroups l) (localStorage w))
     (defaultGroups w) (dispatched w)).

(** Reading the joined groups never throws and changes nothing. *)
Lemma getJoinedGroups_reads (w : World) :
  getJoinedGroups w = (inr (joined w), w).
Proof.
  unfold Groups.joined, result, Groups.getJoinedGroups.
  destruct window; [|reflexivity].
  cbn [negb]. unfold stry, sbind, getItem, slift, sret.
  destruct (getItemError STORAGE_KEY); [reflexivity|].
  destruct (truthyString _); [|reflexivity].
  destruct (parseGroups s); reflexivity.
Qed.

(** What a storage that persists [l] reads once [l] was written. *)
Lemma joined_saved (l : list Group.t) (w : World) :
  window = true -> persists l -> joined (saved l w) = l.
Proof.
  intros Hwin (Hget & _ & Hne & Hparse).
  unfold Groups.joined, result, Groups.getJoinedGroups.
  rewrite Hwin. cbn [negb]. unfold stry, sbind, getItem, slift, sret.
  rewrite Hget. cbn [localStorage]. rewrite lookup_store_same.
  unfold truthyString. apply String.eqb_neq in Hne. rewrite Hne.
  now rewrite Hparse.
Qed.

(** [addJoinedGroup], outcome and world. *)
Lemma addJoinedGroup_run (group : AvailableGroup.t) (now : string)
    (w : World) :
  addJoinedGroup group now w =
  (inr tt,
   if window
   then
     if existsb (hasId (AvailableGroup.id group)) (joined w) then w
     else
       let l := joined w ++ [newJoinedGroup group now] in
       match setItemError STORAGE_KEY (stringifyGroups l) with
       | Some _ => w
       | None =>
           mkWorld (store STORAGE_KEY (stringifyGroups l) (localStorage w))
             (defaultGroups w) (dispatched w ++ ["groupsUpdated"])
       end
   else w).
Proof.
  unfold Groups.addJoinedGroup.
  destruct window eqn:Hwin; [|reflexivity].
  cbn [negb]. unfold sbind at 1.
  pose proof (getJoinedGroups_reads w) as Hread. rewrite Hwin in Hread.
  rewrite Hread.
  destruct (existsb _ _); [reflexivity|].
  cbv zeta. unfold stry, sbind, setItem, dispatchEvent, sret.
  destruct (setItemError _ _); reflexivity.
Qed.

(** The functions that change one joined group, outcome and world. *)
Lemma changeJoinedGroup_run (groupId : string) (change : Group.t -> Group.t)
    (w : World) :
  changeJoinedGroup groupId change w =
  (inr tt,
   if window
   then
     match findIndex (hasId groupId) (joined w) with
     | Some _ =>
         match setItemError STORAGE_KEY
                 (stringifyGroups (changed groupId change (joined w))) with
         | Some _ => w
         | None => saved (changed groupId change (joined w)) w
         end
     | None => w
     end
   else w).
Proof.
  unfold Groups.changeJoinedGroup, changed.
  destruct window eqn:Hwin; [|reflexivity].
  cbn [negb]. unfold sbind at 1.
  pose proof (getJoinedGroups_reads w) as Hread. rewrite Hwin in Hread.
  rewrite Hread.
  destruct (findIndex _ _); [|reflexivity].
  unfold stry, setItem, sret.
  destruct (setItemError _ _); reflexivity.
Qed.

(** The four functions that change the joined groups never throw, whether
    the storage holds an array of groups, nothing at all or text that is not
    JSON, and whether or not it can be read or written.  Without a window,
    and when the storage refuses the write, they leave the world as it is:
    the change is lost without a sign. *)
Theorem joined_groups_changes_never_throw (group : AvailableGroup.t)
    (now groupId message sender : string) (w : World) :
  (result (addJoinedGroup group now w) = inr tt
   /\ result (updateGroupLastMessage groupId message sender w) = inr tt
   /\ result (incrementUnread groupId w) = inr tt
   /\ result (clearUnread groupId w) = inr tt)
  /\ (window = false \/ (forall text, setItemError STORAGE_KEY text <> None) ->
      after (addJoinedGroup group now w) = w
      /\ after (updateGroupLastMessage groupId message sender w) = w
      /\ after (incrementUnread groupId w) = w
      /\ after (clearUnread groupId w) = w).
Proof.
  unfold Groups.updateGroupLastMessage, Groups.incrementUnread,
    Groups.clearUnread.
  rewrite addJoinedGroup_run, !changeJoinedGroup_run.
  split; [repeat split|].
  intros Hno. unfold after. cbn [snd].
  destruct window; [|repeat split].
  destruct Hno as [Hno|Hno]; [discriminate|].
  assert (Hw : forall text (w1 w2 : World),
             match setItemError STORAGE_KEY text with
             | Some _ => w1
             | None => w2
             end = w1).
  { intros text w1 w2. specialize (Hno text).
    destruct (setItemError STORAGE_KEY text); [reflexivity|congruence]. }
  cbv zeta. rewrite !Hw.
  repeat split;
    repeat match goal with
      | |- context [if ?c then _ else _] => destruct c
      | |- context [match ?x with Some _ => _ | None => _ end] => destruct x
      end; reflexivity.
Qed.

(** Joining a group: with a window and a storage that persists the array
    written, the joined groups are afterwards the ones before followed by the
    new group with [unread] 0, unless a group with the id was joined already,
    in which case nothing is written at all; ids that were distinct stay
    distinct; and joining the same group once more changes nothing. *)
Theorem addJoinedGroup_joins_once (group : AvailableGroup.t)
    (now now' : string) (w : World) :
  window = true ->
  persists (joined w ++ [newJoinedGroup group now]) ->
  let w' := after (addJoinedGroup group now w) in
  joined w' =
    (if existsb (hasId (AvailableGroup.id group)) (joined w) then joined w
     else joined w ++ [newJoinedGroup group now])
  /\ (existsb (hasId (AvailableGroup.id group)) (joined w) = true -> w' = w)
  /\ In (AvailableGroup.id group) (joinedIds (joined w'))
  /\ (NoDup (joinedIds (joined w)) -> NoDup (joinedIds (joined w')))
  /\ after (addJoinedGroup group now' w') = w'.
Proof.
  intros Hwin Hper w'.
  assert (Hw' : w' =
                if existsb (hasId (AvailableGroup.id group)) (joined w) then w
                else mkWorld
                       (store STORAGE_KEY
                          (stringifyGroups
                             (joined w ++ [newJoinedGroup group now]))
                          (localStorage w))
                       (defaultGroups w) (dispatched w ++ ["groupsUpdated"])).
  { unfold w', after. rewrite addJoinedGroup_run. cbn [snd].
    rewrite (in_browser window _ _ Hwin).
    destruct (existsb _ _); [reflexivity|]. cbv zeta.
    destruct Hper as (_ & -> & _). reflexivity. }
  assert (Hjoined : joined w' =
                    if existsb (hasId (AvailableGroup.id group)) (joined w)
                    then joined w
                    else joined w ++ [newJoinedGroup group now]).
  { rewrite Hw'. destruct (existsb _ _); [reflexivity|].
    exact (joined_saved _
             (mkWorld (localStorage w) (defaultGroups w)
                (dispatched w ++ ["groupsUpdated"])) Hwin Hper). }
  assert (Hin : existsb (hasId (AvailableGroup.id group)) (joined w') = true).
  { rewrite Hjoined.
    destruct (existsb _ (joined w)) eqn:E; [exact E|].
    assert (Hnew : hasId (AvailableGroup.id group)
                     (newJoinedGroup group now) = true)
      by apply String.eqb_refl.
    rewrite existsb_app. cbn [existsb]. rewrite Hnew. apply orb_true_r. }
  split; [exact Hjoined|]. split; [|split; [|split]].
  - intros E. rewrite Hw', E. reflexivity.
  - destruct (in_dec string_dec (AvailableGroup.id group)
                (joinedIds (joined w'))) as [Hyes|Hno]; [exact Hyes|].
    apply existsb_hasId in Hno. congruence.
  - rewrite Hjoined. destruct (existsb _ (joined w)) eqn:E; [auto|].
    intros Hnodup. unfold joinedIds. rewrite map_app. cbn.
    apply existsb_hasId in E. now apply NoDup_snoc.
  - unfold after. rewrite addJoinedGroup_run. cbn [snd].
    rewrite (in_browser window _ _ Hwin), Hin. reflexivity.
Qed.

(** The functions that change one group, in a browser whose storage
    persists the array they write. *)
Lemma changeJoinedGroup_persisted (groupId : string)
    (change : Group.t -> Group.t) (w : World) :
  window = true ->
  persists (changed groupId change (joined w)) ->
  after (changeJoinedGroup groupId change w)
  = match findIndex (hasId groupId) (joined w) with
    | Some _ => saved (changed groupId change (joined w)) w
    | None => w
    end
  /\ joined (after (changeJoinedGroup groupId change w))
     = changed groupId change (joined w).
Proof.
  intros Hwin Hper. unfold after. rewrite changeJoinedGroup_run. cbn [snd].
  rewrite (in_browser window _ _ Hwin).
  destruct (findIndex (hasId groupId) (joined w)) as [i|] eqn:Hfind.
  - destruct Hper as (Hget & Hset & Hrest). rewrite Hset. split; [reflexivity|].
    apply joined_saved; [exact Hwin|]. repeat split; tauto.
  - split; [reflexivity|]. unfold changed. now rewrite Hfind.
Qed.

(** [updateGroupLastMessage] in a browser whose storage persists the array
    written: the joined groups read afterwards are the ones before, in the
    same order and with the same ids, and they differ at one place only, the
    first group with the id, which carries the message and the sender (its
    other fields as before); with no such group nothing is written; no
    event is dispatched either way. *)
Theorem updateGroupLastMessage_changes_first_match
    (groupId message sender : string) (w : World) :
  window = true ->
  let l := joined w in
  let l' := changed groupId (Group.withLastMessage message sender) l in
  persists l' ->
  let w' := after (updateGroupLastMessage groupId message sender w) in
  joined w' = l'
  /\ (~ In groupId (joinedIds l) -> w' = w)
  /\ List.length l' = List.length l
  /\ joinedIds l' = joinedIds l
  /\ (In groupId (joinedIds l) ->
      exists i g,
        nth_error l i = Some g /\ Group.id g = groupId
        /\ (forall j g', (j < i)%nat -> nth_error l j = Some g' ->
                         Group.id g' <> groupId)
        /\ nth_error l' i = Some (Group.withLastMessage message sender g)
        /\ (forall j, j <> i -> nth_error l' j = nth_error l j))
  /\ defaultGroups w' = defaultGroups w
  /\ dispatched w' = dispatched w.
Proof.
  intros Hwin l l' Hper w'. unfold Groups.updateGroupLastMessage in w'.
  destruct (changeJoinedGroup_persisted groupId
              (Group.withLastMessage message sender) w Hwin Hper)
    as [Hafter Hjoined].
  fold w' in Hafter, Hjoined. fold l in Hafter, Hjoined. fold l' in Hjoined.
  destruct (changed_first_match groupId
              (Group.withLastMessage message sender) l (fun g => eq_refl))
    as (Hlen & Hids & Habsent & Hpresent).
  split; [exact Hjoined|]. split; [|split; [exact Hlen|split; [exact Hids|]]].
  - intros Hnot. rewrite Hafter.
    apply existsb_hasId, findIndex_None in Hnot. now rewrite Hnot.
  - split; [exact Hpresent|].
    rewrite Hafter. destruct (findIndex _ _); split; reflexivity.
Qed.

(** Unread counts, in a browser whose storage persists the arrays written:
    [incrementUnread] replaces the count of the first group with the id by
    the count plus one; [clearUnread] after it leaves the world exactly as
    [clearUnread] alone would; and when the ids of the joined groups are
    distinct, no group with the id has an unread count other than 0
    afterwards. *)
Theorem clearUnread_undoes_incrementUnread (groupId : string) (w : World) :
  window = true ->
  let l := joined w in
  persists (changed groupId
              (fun g => Group.withUnread (Group.unread g + 1)%float g) l) ->
  persists (changed groupId (Group.withUnread 0%float) l) ->
  let w1 := after (incrementUnread groupId w) in
  let w2 := after (clearUnread groupId w1) in
  joined w1
  = changed groupId (fun g => Group.withUnread (Group.unread g + 1)%float g) l
  /\ w2 = after (clearUnread groupId w)
  /\ joined w2 = changed groupId (Group.withUnread 0%float) l
  /\ (NoDup (joinedIds l) ->
      forall g, In g (joined w2) -> Group.id g = groupId ->
                Group.unread g = 0%float).
Proof.
  intros Hwin l Hinc Hclear w1 w2.
  unfold Groups.incrementUnread in w1. unfold Groups.clearUnread in w2.
  destruct (changeJoinedGroup_persisted groupId _ w Hwin Hinc)
    as [Hw1 Hj1].
  destruct (changeJoinedGroup_persisted groupId _ w Hwin Hclear)
    as [Hw0 Hj0].
  fold w1 in Hw1, Hj1. fold l in Hw1, Hj1, Hw0, Hj0.
  destruct (changed_first_match groupId
              (fun g => Group.withUnread (Group.unread g + 1)%float g) l
              (fun g => eq_refl)) as (_ & Hids1 & _).
  assert (Hagain : changed groupId (Group.withUnread 0%float) (joined w1)
                   = changed groupId (Group.withUnread 0%float) l).
  { rewrite Hj1. unfold changed at 1.
    rewrite (findIndex_ids groupId _ l Hids1). unfold changed.
    destruct (findIndex (hasId groupId) l) as [i|]; [|reflexivity].
    rewrite updateAt_twice. apply updateAt_ext. reflexivity. }
  assert (Hclear1 : persists
                      (changed groupId (Group.withUnread 0%float) (joined w1)))
    by (rewrite Hagain; exact Hclear).
  destruct (changeJoinedGroup_persisted groupId _ w1 Hwin Hclear1)
    as [Hw2 Hj2].
  fold w2 in Hw2, Hj2. rewrite Hagain in Hw2, Hj2.
  assert (Heq : w2 = after (clearUnread groupId w)).
  { unfold Groups.clearUnread. rewrite Hw0, Hw2.
    rewrite (findIndex_ids groupId (joined w1) l)
      by (rewrite Hj1; exact Hids1).
    destruct (findIndex (hasId groupId) l) as [i|]; [|].
    - rewrite Hw1. unfold changed at 2.
      destruct (findIndex (hasId groupId) l); cbn [localStorage defaultGroups
        dispatched]; now rewrite ?store_store.
    - rewrite Hw1. unfold changed.
      destruct (findIndex (hasId groupId) l); reflexivity. }
  split; [exact Hj1|]. split; [exact Heq|]. split; [exact Hj2|].
  intros Hnodup g Hg Hid. rewrite Hj2 in Hg.
  destruct (changed_first_match groupId (Group.withUnread 0%float) l
              (fun g => eq_refl)) as (_ & Hids & _ & Hpresent).
  assert (Hin : In groupId (joinedIds l)).
  { rewrite <- Hids. pose proof (in_map Group.id _ _ Hg) as Hmap.
    now rewrite Hid in Hmap. }
  destruct (Hpresent Hin) as (i & g0 & Hg0 & Hid0 & _ & Hi & Hother).
  apply In_nth_error in Hg as [j Hj].
  destruct (Nat.eq_dec j i) as [->|Hji].
  - rewrite Hi in Hj. injection Hj as <-. reflexivity.
  - exfalso. rewrite (Hother j Hji) in Hj.
    apply Hji.
    apply (proj1 (NoDup_nth_error (joinedIds l)) Hnodup).
    + unfold joinedIds. rewrite length_map.
      apply nth_error_Some. congruence.
    + unfold joinedIds. rewrite !nth_error_map, Hj, Hg0. cbn.
      congruence.
Qed.

End Joined.

(** *** Available groups *)

Section Available.

Variable window : bool.
Variable getItemError : string -> option Thrown.
Variable setItemError : string -> string -> option Thrown.
Variable parseAvailable : string -> Thrown + list AvailableGroup.t.
Variable stringifyAvailable : list AvailableGroup.t -> string.
Variable toLowerCase : string -> string.

Local Abbreviation initializeAvailableGroups :=
  (Groups.initializeAvailableGroups window getItemError setItemError
     stringifyAvailable).
Local Abbreviation getAvailableGroups :=
  (Groups.getAvailableGroups window getItemError setItemError parseAvailable
     stringifyAvailable).
Local Abbreviation createAvailableGroup :=
  (Groups.createAvailableGroup window getItemError setItemError
     parseAvailable stringifyAvailable toLowerCase).
Local Abbreviation persistsAvailable :=
  (Groups.persistsAvailable getItemError setItemError parseAvailable
     stringifyAvailable).
Local Abbreviation slug := (Groups.slug toLowerCase).

(** The world after [setItem] took the array of available groups. *)
Local Abbreviation savedAvailable l w :=
  (mkWorld (store AVAILABLE_GROUPS_KEY (stringifyAvailable l) (localStorage w))
     (defaultGroups w) (dispatched w)).

(** What the storage holds for the available groups, when it can be read
    and holds a text that is not empty. *)
Local Abbreviation storedAvailable w :=
  (match getItemError AVAILABLE_GROUPS_KEY with
   | Some _ => None
   | None => truthyString (lookup AVAILABLE_GROUPS_KEY (localStorage w))
   end).

Lemma initializeAvailableGroups_run (w : World) :
  initializeAvailableGroups w =
  (inr tt,
   if window
   then
     match getItemError AVAILABLE_GROUPS_KEY with
     | Some _ => w
     | None =>
         match truthyString (lookup AVAILABLE_GROUPS_KEY (localStorage w)) with
         | Some _ => w
         | None =>
             match setItemError AVAILABLE_GROUPS_KEY
                     (stringifyAvailable (defaultGroups w)) with
             | Some _ => w
             | None => savedAvailable (defaultGroups w) w
             end
         end
     end
   else w).
Proof.
  unfold Groups.initializeAvailableGroups.
  destruct window; [|reflexivity].
  cbn [negb]. unfold stry, sbind, getItem, setItem, elements, sret.
  destruct (getItemError AVAILABLE_GROUPS_KEY); [reflexivity|].
  destruct (truthyString _); [reflexivity|]. cbn [groupsAt].
  destruct (setItemError _ _); reflexivity.
Qed.

Lemma getAvailableGroups_run (w : World) :
  getAvailableGroups w =
  if window
  then
    match getItemError AVAILABLE_GROUPS_KEY with
    | Some _ => (inr TheDefault, w)
    | None =>
        match truthyString (lookup AVAILABLE_GROUPS_KEY (localStorage w)) with
        | Some text =>
            match parseAvailable text with
            | inr l => (inr (Parsed l), w)
            | inl _ => (inr TheDefault, w)
            end
        | None =>
            (inr TheDefault,
             match setItemError AVAILABLE_GROUPS_KEY
                     (stringifyAvailable (defaultGroups w)) with
             | Some _ => w
             | None => savedAvailable (defaultGroups w) w
             end)
        end
    end
  else (inr TheDefault, w).
Proof.
  unfold Groups.getAvailableGroups.
  destruct window eqn:Hwin; [|reflexivity].
  cbn [negb]. unfold stry at 1. unfold sbind at 1. unfold getItem at 1.
  destruct (getItemError AVAILABLE_GROUPS_KEY) eqn:Hget; [reflexivity|].
  destruct (truthyString _) eqn:Htruthy.
  - unfold sbind, slift, sret. destruct (parseAvailable s); reflexivity.
  - unfold sbind.
    pose proof (initializeAvailableGroups_run w) as Hinit.
    rewrite Hwin, Hget, Htruthy in Hinit. rewrite Hinit. reflexivity.
Qed.

(** Reading the available groups leaves the default array and the events
    as they are. *)
Lemma getAvailableGroups_frame (w w1 : World) (array : ArrayRef) :
  getAvailableGroups w = (inr array, w1) ->
  defaultGroups w1 = defaultGroups w /\ dispatched w1 = dispatched w.
Proof.
  rewrite getAvailableGroups_run.
  destruct window; [|now intros [= _ <-]].
  destruct (getItemError AVAILABLE_GROUPS_KEY); [now intros [= _ <-]|].
  destruct (truthyString _).
  - destruct (parseAvailable s); now intros [= _ <-].
  - destruct (setItemError _ _); now intros [= _ <-].
Qed.

(** Reading the available groups never throws.  It answers with an array
    parsed from the storage when the storage can be read and holds text that
    parses, and with the array [DEFAULT_AVAILABLE_GROUPS] itself otherwise.
    The one thing it may write is the text of that default array, and only
    when the storage can be read and holds nothing under the key; text that
    does not parse stays where it is. *)
Theorem getAvailableGroups_falls_back_to_defaults (w : World) :
  exists array w',
    getAvailableGroups w = (inr array, w')
    /\ defaultGroups w' = defaultGroups w
    /\ dispatched w' = dispatched w
    /\ (forall key, key <> AVAILABLE_GROUPS_KEY ->
                    lookup key (localStorage w') = lookup key (localStorage w))
    /\ (window = false -> array = TheDefault /\ w' = w)
    /\ (window = true ->
        match storedAvailable w with
        | Some text =>
            w' = w
            /\ array = match parseAvailable text with
                       | inr l => Parsed l
                       | inl _ => TheDefault
                       end
        | None =>
            array = TheDefault
            /\ (getItemError AVAILABLE_GROUPS_KEY <> None -> w' = w)
            /\ (getItemError AVAILABLE_GROUPS_KEY = None ->
                w' = match setItemError AVAILABLE_GROUPS_KEY
                             (stringifyAvailable (defaultGroups w)) with
                     | Some _ => w
                     | None => savedAvailable (defaultGroups w) w
                     end)
        end).
Proof.
  rewrite getAvailableGroups_run.
  destruct window.
  2:{ exists TheDefault, w. repeat split; auto; discriminate. }
  destruct (getItemError AVAILABLE_GROUPS_KEY) as [e|] eqn:Hget.
  { exists TheDefault, w. repeat split; auto; discriminate. }
  destruct (truthyString _) as [text|] eqn:Htruthy.
  - destruct (parseAvailable text) as [e|l] eqn:Hparse.
    + exists TheDefault, w. repeat split; auto; discriminate.
    + exists (Parsed l), w. repeat split; auto; discriminate.
  - eexists TheDefault, _. split; [reflexivity|].
    destruct (setItemError _ _); repeat split; auto; try discriminate;
      try congruence.
    intros key Hkey. cbn [localStorage]. now apply lookup_store_other.
Qed.

Lemma find_hasAvailableId (id : string) (l : list AvailableGroup.t) :
  find (hasAvailableId id) l = None <-> ~ In id (availableIds l).
Proof.
  induction l as [|a l IH]; simpl; [tauto|].
  unfold hasAvailableId at 1.
  destruct (String.eqb (AvailableGroup.id a) id) eqn:E.
  - apply String.eqb_eq in E. split; [discriminate|tauto].
  - apply String.eqb_neq in E. rewrite IH. tauto.
Qed.

(** [createAvailableGroup] after the groups were read as [array], leaving
    the world [w1]. *)
Lemma createAvailableGroup_run (name description : string) (minWld : float)
    (avatarBg : string) (w w1 : World) (array : ArrayRef) :
  window = true ->
  getAvailableGroups w = (inr array, w1) ->
  createAvailableGroup name description minWld avatarBg w =
  let newGroup :=
    AvailableGroup.mk (slug name) name description minWld avatarBg 0%float in
  match find (hasAvailableId (slug name)) (groupsAt array w1) with
  | Some _ => (inl (ThrownError "Já existe um grupo com esse nome"), w1)
  | None =>
      let w2 :=
        match array with
        | Parsed _ => w1
        | TheDefault =>
            mkWorld (localStorage w1) (defaultGroups w1 ++ [newGroup])
              (dispatched w1)
        end in
      let current := groupsAt array w1 ++ [newGroup] in
      match setItemError AVAILABLE_GROUPS_KEY (stringifyAvailable current) with
      | Some e => (inl e, w2)
      | None =>
          (inr newGroup,
           mkWorld
             (store AVAILABLE_GROUPS_KEY (stringifyAvailable current)
                (localStorage w2))
             (defaultGroups w2)
             (dispatched w2 ++ ["availableGroupsUpdated"]))
      end
  end.
Proof.
  intros Hwin Hread. unfold Groups.createAvailableGroup.
  rewrite Hwin. cbn [negb]. unfold sbind at 1.
  rewrite Hwin in Hread. rewrite Hread.
  cbv zeta. unfold sbind at 1. unfold elements at 1.
  destruct (find _ _); [reflexivity|].
  unfold sbind at 1.
  destruct array as [elems|]; cbn [push groupsAt];
    unfold stry, sbind, elements, setItem, dispatchEvent, sret, sthrow;
    cbn [groupsAt defaultGroups localStorage dispatched];
    destruct (setItemError _ _); reflexivity.
Qed.

(** [createAvailableGroup] refuses to run without a window, and then
    leaves everything as it is.  In a browser it refuses a name whose id is
    the id of a group it has just read, whatever the other arguments are: it
    throws before it pushes anything onto an array, before it writes the
    array and before it dispatches the event.  What the call has done by then
    is what reading the groups did: the default array and the events are as
    they were, and so is the storage, but for the text of the default array,
    which is in the storage under the key of the available groups when the
    key held nothing (or the empty text), the groups read being the default
    array then. *)
Theorem createAvailableGroup_refusals (name description : string)
    (minWld : float) (avatarBg : string) (w : World) :
  (window = false ->
   createAvailableGroup name description minWld avatarBg w
   = (inl (ThrownError "Não é possível criar grupo no servidor"), w))
  /\ (window = true ->
      forall array w1,
        getAvailableGroups w = (inr array, w1) ->
        In (slug name) (availableIds (groupsAt array w1)) ->
        createAvailableGroup name description minWld avatarBg w
        = (inl (ThrownError "Já existe um grupo com esse nome"), w1)
        /\ defaultGroups w1 = defaultGroups w
        /\ dispatched w1 = dispatched w
        /\ (w1 = w
            \/ (storedAvailable w = None
                /\ array = TheDefault
                /\ w1 = savedAvailable (defaultGroups w) w))).
Proof.
  split.
  - intros Hwin. unfold Groups.createAvailableGroup. rewrite Hwin. reflexivity.
  - intros Hwin array w1 Hread Hin.
    destruct (getAvailableGroups_frame w w1 array Hread)
      as [Hdefault Hdispatched].
    split; [|split; [exact Hdefault|split; [exact Hdispatched|]]].
    + rewrite (createAvailableGroup_run _ _ _ _ w w1 array Hwin Hread).
      cbv zeta.
      destruct (find _ _) eqn:Hfind; [reflexivity|].
      apply find_hasAvailableId in Hfind. tauto.
    + clear Hin Hdefault Hdispatched. revert Hread.
      rewrite getAvailableGroups_run, Hwin.
      destruct (getItemError AVAILABLE_GROUPS_KEY); [intros [= _ <-]; now left|].
      destruct (truthyString _).
      * destruct (parseAvailable s); intros [= _ <-]; now left.
      * destruct (setItemError _ _); intros [= <- <-]; [now left|].
        right. auto.
Qed.

Lemma getAvailableGroups_storage_only (w w' : World) :
  localStorage w = localStorage w' ->
  result (getAvailableGroups w) = result (getAvailableGroups w').
Proof.
  intros Hst. rewrite !getAvailableGroups_run, Hst.
  destruct window; [|reflexivity].
  destruct (getItemError AVAILABLE_GROUPS_KEY); [reflexivity|].
  destruct (truthyString _); [|reflexivity].
  destruct (parseAvailable s); reflexivity.
Qed.

Lemma getAvailableGroups_refused (e : Thrown) (w : World) :
  (forall text, setItemError AVAILABLE_GROUPS_KEY text = Some e) ->
  after (getAvailableGroups w) = w.
Proof.
  intros Hset. rewrite getAvailableGroups_run.
  destruct window; [|reflexivity].
  destruct (getItemError AVAILABLE_GROUPS_KEY); [reflexivity|].
  destruct (truthyString _).
  - destruct (parseAvailable s); reflexivity.
  - unfold after. cbn [snd]. now rewrite Hset.
Qed.

(** Creating a group, in a browser whose storage persists the array
    written, under a name whose id no group read has: the call returns the
    new group, with that id and no member; the groups read afterwards are
    the ones read before followed by the new one; the event
    "availableGroupsUpdated" is dispatched; ids that were distinct stay
    distinct; and when the groups read were the default array, the new group
    has been pushed onto that array as well. *)
Theorem createAvailableGroup_appends (name description : string)
    (minWld : float) (avatarBg : string) (w w1 : World) (array : ArrayRef) :
  window = true ->
  getAvailableGroups w = (inr array, w1) ->
  let current := groupsAt array w1 in
  let newGroup :=
    AvailableGroup.mk (slug name) name description minWld avatarBg 0%float in
  ~ In (slug name) (availableIds current) ->
  persistsAvailable (current ++ [newGroup]) ->
  let r := createAvailableGroup name description minWld avatarBg w in
  result r = inr newGroup
  /\ getAvailableGroups (after r)
     = (inr (Parsed (current ++ [newGroup])), after r)
  /\ dispatched (after r) = dispatched w ++ ["availableGroupsUpdated"]
  /\ (NoDup (availableIds current) ->
      NoDup (availableIds (current ++ [newGroup])))
  /\ (array = TheDefault ->
      defaultGroups (after r) = defaultGroups w ++ [newGroup]).
Proof.
  intros Hwin Hread current newGroup Hfresh Hper r.
  destruct (getAvailableGroups_frame w w1 array Hread)
    as [Hdefault Hdispatched].
  assert (Hr : r =
               (inr newGroup,
                let w2 := match array with
                          | Parsed _ => w1
                          | TheDefault =>
                              mkWorld (localStorage w1)
                                (defaultGroups w1 ++ [newGroup]) (dispatched w1)
                          end in
                mkWorld
                  (store AVAILABLE_GROUPS_KEY
                     (stringifyAvailable (current ++ [newGroup]))
                     (localStorage w2))
                  (defaultGroups w2)
                  (dispatched w2 ++ ["availableGroupsUpdated"]))).
  { unfold r.
    rewrite (createAvailableGroup_run _ _ _ _ w w1 array Hwin Hread).
    cbv zeta. fold current. fold newGroup.
    apply find_hasAvailableId in Hfresh. rewrite Hfresh.
    destruct Hper as (_ & -> & _). reflexivity. }
  rewrite Hr. unfold result, after. cbn [fst snd]. cbv zeta.
  split; [reflexivity|]. split; [|split; [|split]].
  - rewrite getAvailableGroups_run. rewrite (in_browser window _ _ Hwin).
    destruct Hper as (-> & _ & Hne & Hparse).
    cbn [localStorage]. rewrite lookup_store_same.
    unfold truthyString. apply String.eqb_neq in Hne. rewrite Hne.
    now rewrite Hparse.
  - destruct array; cbn [dispatched]; now rewrite Hdispatched.
  - intros Hnodup. unfold availableIds. rewrite map_app. cbn.
    now apply NoDup_snoc.
  - intros ->. cbn [defaultGroups]. now rewrite Hdefault.
Qed.

(** The default array is shared.  In a browser where no write to the
    storage is accepted and the groups are read as the default array, creating
    a group under a fresh name throws the error of the storage, and yet the
    group has been pushed onto [DEFAULT_AVAILABLE_GROUPS]: it is among the
    groups read from then on, and its name cannot be used again. *)
Theorem createAvailableGroup_refused_write_extends_defaults
    (name description : string) (minWld : float) (avatarBg : string)
    (e : Thrown) (w : World) :
  window = true ->
  (forall text, setItemError AVAILABLE_GROUPS_KEY text = Some e) ->
  result (getAvailableGroups w) = inr TheDefault ->
  ~ In (slug name) (availableIds (defaultGroups w)) ->
  let newGroup :=
    AvailableGroup.mk (slug name) name description minWld avatarBg 0%float in
  let r := createAvailableGroup name description minWld avatarBg w in
  r = (inl e,
       mkWorld (localStorage w) (defaultGroups w ++ [newGroup]) (dispatched w))
  /\ getAvailableGroups (after r) = (inr TheDefault, after r)
  /\ In newGroup (groupsAt TheDefault (after r))
  /\ (forall description' minWld' avatarBg',
        result (createAvailableGroup name description' minWld' avatarBg'
                  (after r))
        = inl (ThrownError "Já existe um grupo com esse nome")).
Proof.
  intros Hwin Hset Hdefault Hfresh newGroup r.
  assert (Hread : getAvailableGroups w = (inr TheDefault, w)).
  { pose proof (getAvailableGroups_refused e w Hset) as Hafter.
    unfold result in Hdefault. unfold after in Hafter.
    destruct (getAvailableGroups w) as [res w']. cbn in *. congruence. }
  assert (Hr : r = (inl e,
                    mkWorld (localStorage w) (defaultGroups w ++ [newGroup])
                      (dispatched w))).
  { unfold r.
    rewrite (createAvailableGroup_run _ _ _ _ w w TheDefault Hwin Hread).
    cbv zeta. cbn [groupsAt]. fold newGroup.
    apply find_hasAvailableId in Hfresh. rewrite Hfresh.
    now rewrite Hset. }
  split; [exact Hr|]. rewrite Hr. unfold after. cbn [snd].
  set (w2 := mkWorld (localStorage w) (defaultGroups w ++ [newGroup])
               (dispatched w)).
  assert (Hread2 : getAvailableGroups w2 = (inr TheDefault, w2)).
  { pose proof (getAvailableGroups_refused e w2 Hset) as Hafter.
    pose proof (getAvailableGroups_storage_only w2 w eq_refl) as Hres.
    rewrite Hdefault in Hres. unfold result in Hres. unfold after in Hafter.
    destruct (getAvailableGroups w2) as [res w']. cbn in *. congruence. }
  split; [exact Hread2|]. split.
  - cbn [groupsAt w2 defaultGroups]. apply in_or_app. right. now left.
  - intros description' minWld' avatarBg'.
    rewrite (createAvailableGroup_run _ _ _ _ w2 w2 TheDefault Hwin Hread2).
    cbv zeta. cbn [groupsAt].
    destruct (find _ _) eqn:Hfind; [reflexivity|].
    apply find_hasAvailableId in Hfind. exfalso. apply Hfind.
    unfold w2, availableIds. cbn [defaultGroups]. rewrite map_app.
    apply in_or_app. right. now left.
Qed.

End Available.

End GroupsFacts.

(* ------------------------------------------------------------------ *)
(** ** The groups page *)

Module GroupsPageFacts.

Import Exec JSNum Groups GroupsPage.
Open Scope string_scope.
Open Scope list_scope.

(** A number that is not NaN and not at most 0 is above 0. *)
Lemma leb_false_ltb (x y : float) :
  isNaN x = false -> isNaN y = false ->
  (x <=? y)%float = false -> (y <? x)%float = true.
Proof.
  intros Hx Hy. rewrite ltb_spec, leb_spec.
  apply JSNumFacts.Prim2SF_not_nan in Hx, Hy. revert Hx Hy.
  unfold SFltb, SFleb.
  destruct (Prim2SF x), (Prim2SF y); simpl; intros; try discriminate;
    try reflexivity; JSNumFacts.sf_order.
Qed.

Section Handlers.

Variable window : bool.
Variable getItemError : string -> option Thrown.
Variable setItemError : string -> string -> option Thrown.
Variable parseGroups : string -> Thrown + list Group.t.
Variable stringifyGroups : list Group.t -> string.
Variable parseAvailable : string -> Thrown + list AvailableGroup.t.
Variable stringifyAvailable : list AvailableGroup.t -> string.
Variable toLowerCase : string -> string.
Variable trim : string -> string.
Variable stringToNumber : string -> float.
Variable username : option string.
Variable randomIndex : nat.

Local Abbreviation addJoinedGroup :=
  (Groups.addJoinedGroup window getItemError setItemError parseGroups
     stringifyGroups).
Local Abbreviation handleJoinGroup :=
  (GroupsPage.handleJoinGroup window getItemError setItemError parseGroups
     stringifyGroups).
Local Abbreviation createAvailableGroup :=
  (Groups.createAvailableGroup window getItemError setItemError
     parseAvailable stringifyAvailable toLowerCase).
Local Abbreviation getAvailableGroups :=
  (Groups.getAvailableGroups window getItemError setItemError parseAvailable
     stringifyAvailable).
Local Abbreviation handleCreate :=
  (GroupsPage.handleCreate window getItemError setItemError parseAvailable
     stringifyAvailable toLowerCase trim stringToNumber username randomIndex).

(** The run of the proof on the groups page is a run of timers.  From
    [startProof] on a selected group, whatever the group and its minimum,
    the timer fires four times and the proof is a success; each firing moves
    the one active step forward, the step left behind showing as pending
    until the firing after; further firings change nothing.  Until the
    fourth firing [handleJoinGroup] does nothing at all; after it, it calls
    [addJoinedGroup] on the selected group, closes the sheet and pushes the
    route of the group's chat. *)
Theorem joining_waits_for_four_timers (group : AvailableGroup.t) (s : Sheet)
    (now : string) (w : World) :
  let ticks := fun k => Nat.iter k timerFires (startProof (select group s)) in
  map (fun k => stepsStatus (ticks k)) [0; 1; 2; 3; 4]%nat
  = [ [active; pending; pending; pending];
      [pending; active; pending; pending];
      [done; pending; active; pending];
      [done; done; pending; active];
      [done; done; done; done] ]
  /\ map (fun k => proofState (ticks k)) [0; 1; 2; 3; 4]%nat
     = [running; running; running; running; success]
  /\ (forall k, (4 <= k)%nat -> ticks k = ticks 4%nat)
  /\ (forall k, (k < 4)%nat ->
                handleJoinGroup now (ticks k) w = (inr (ticks k, []), w))
  /\ handleJoinGroup now (ticks 4%nat) w
     = (inr (initialSheet, [("/chat/" ++ AvailableGroup.id group)%string]),
        after (addJoinedGroup group now w)).
Proof.
  intros ticks. split; [reflexivity|]. split; [reflexivity|]. split; [|split].
  - intros k Hk. replace k with ((k - 4) + 4)%nat by lia.
    generalize (k - 4)%nat as n. clear k Hk. unfold ticks.
    induction n as [|n IH]; [reflexivity|].
    cbn [Nat.add]. rewrite Nat.iter_succ, IH. reflexivity.
  - intros k Hk.
    destruct k as [|[|[|[|k]]]]; [reflexivity..|lia].
  - unfold ticks, GroupsPage.handleJoinGroup. cbn -[Groups.addJoinedGroup].
    unfold sbind. rewrite GroupsFacts.addJoinedGroup_run. reflexivity.
Qed.

(** [handleCreate] never throws, and it reaches the store only with a name
    that is not blank once trimmed and a minimum that is a number above 0:
    with a blank name, a minimum that is not a number or one that is at most
    0, it sets its error message and leaves the storage, the default array
    and the events as they are.  Otherwise it calls [createAvailableGroup]
    with the trimmed name and that minimum; a failure of that call becomes
    the error of the form. *)
Theorem handleCreate_validates_its_input (f : Form) (w : World) :
  let name := trim (newGroupName f) in
  let min := stringToNumber (newGroupMinWld f) in
  (exists f', result (handleCreate f w) = inr f')
  /\ (name = "" ->
      handleCreate f w = (inr (withError "Adicione um nome." f), w))
  /\ (name <> "" -> isNaN min = true \/ (min <=? 0)%float = true ->
      handleCreate f w = (inr (withError "Defina o mínimo de WLD." f), w))
  /\ (after (handleCreate f w) <> w ->
      name <> "" /\ isNaN min = false /\ (0 <? min)%float = true)
  /\ (name <> "" -> isNaN min = false -> (0 <? min)%float = true ->
      handleCreate f w =
      match
        createAvailableGroup name
          ("Grupo criado por "
             ++ match username with Some user => user | None => "você" end)
          min (nth randomIndex avatarColors "") w
      with
      | (inl err, w1) => (inr (withError (messageOrDefault err) f), w1)
      | (inr _, w1) =>
          match getAvailableGroups w1 with
          | (inr groups, w2) => (inr (mkForm groups false "" "" ""), w2)
          | (inl err, w2) => (inr (withError (messageOrDefault err) f), w2)
          end
      end).
Proof.
  intros name min. unfold GroupsPage.handleCreate. fold name. fold min.
  destruct (String.eqb name "") eqn:Hname.
  { apply String.eqb_eq in Hname.
    split; [eexists; reflexivity|]. split; [reflexivity|].
    split; [congruence|]. split; [|congruence].
    intros Hchanged. contradiction Hchanged. reflexivity. }
  apply String.eqb_neq in Hname.
  destruct (isNaN min) eqn:Hnan; cbn [orb].
  { split; [eexists; reflexivity|]. split; [congruence|].
    split; [reflexivity|]. split; [|congruence].
    intros Hchanged. contradiction Hchanged. reflexivity. }
  destruct (min <=? 0)%float eqn:Hle.
  { split; [eexists; reflexivity|]. split; [congruence|].
    split; [reflexivity|]. split.
    - intros Hchanged. contradiction Hchanged. reflexivity.
    - intros _ _ Hpos. exfalso.
      assert (Hlt : (min <? min)%float = true)
        by (eapply JSNumFacts.leb_ltb_trans; eauto).
      rewrite ltb_spec in Hlt. unfold SFltb in Hlt.
      destruct (Prim2SF min) as [[]|[]| |[] m e]; cbn in Hlt;
        try discriminate;
        rewrite ?Z.compare_refl in Hlt;
        change (Pos.compare_cont Eq m m) with (Pos.compare m m) in Hlt;
        rewrite ?Pos.compare_refl in Hlt; discriminate. }
  assert (Hpos : (0 <? min)%float = true)
    by (apply leb_false_ltb; auto).
  split; [|split; [|split; [|split]]].
  - unfold stry, sbind, sret, result. cbv zeta.
    destruct (createAvailableGroup _ _ _ _ w) as [[err|g] w1];
      [eexists; reflexivity|].
    destruct (getAvailableGroups w1) as [[err|groups] w2];
      eexists; reflexivity.
  - congruence.
  - intros _ [H|H]; discriminate.
  - auto.
  - intros _ _ _. unfold stry, sbind, sret. cbv zeta.
    destruct (createAvailableGroup _ _ _ _ w) as [[err|g] w1]; [reflexivity|].
    destruct (getAvailableGroups w1) as [[err|groups] w2]; reflexivity.
Qed.

End Handlers.

End GroupsPageFacts.

(* ------------------------------------------------------------------ *)
(** ** The XMTP module *)

Module XmtpFacts.

Import Exec Xmtp.
Open Scope string_scope.
Open Scope list_scope.

Section Sdk.

Variable Client : Type.
Variable signer_getAddress : Thrown + string.
Variable Client_canMessage : string -> Thrown + bool.
Variable Client_create : string -> string -> Thrown + Client.
Variable conversations_list : Client -> Thrown + list Conversation.t.
Variable conversations_newConversation :
  Client -> string -> Thrown + Conversation.t.
Variable conversation_send :
  Conversation.t -> string -> Thrown + DecodedMessage.t.
Variable conversation_messages :
  Conversation.t -> option float -> Thrown + list DecodedMessage.t.
Variable toPrimitiveErrorMessage : string.
Variable numberToString : float -> string.
Variable nativeToString : string -> string.
Variable toLowerCase : string -> string.

Local Abbreviation initializeXMTPClient :=
  (Xmtp.initializeXMTPClient Client signer_getAddress Client_canMessage
     Client_create).
Local Abbreviation listConversations :=
  (Xmtp.listConversations Client conversations_list).
Local Abbreviation createConversation :=
  (Xmtp.createConversation Client conversations_newConversation).
Local Abbreviation getConversation :=
  (Xmtp.getConversation Client conversations_list).
Local Abbreviation getOrCreateConversation :=
  (Xmtp.getOrCreateConversation Client conversations_list
     conversations_newConversation).
Local Abbreviation sendEncryptedMessage :=
  (Xmtp.sendEncryptedMessage Client Client_canMessage conversations_list
     conversations_newConversation conversation_send toPrimitiveErrorMessage
     numberToString nativeToString).
Local Abbreviation receiveMessages :=
  (Xmtp.receiveMessages Client conversations_list conversation_messages
     toPrimitiveErrorMessage numberToString nativeToString).
Local Abbreviation formatXMTPMessage :=
  (Xmtp.formatXMTPMessage Client toLowerCase).
Local Abbreviation disconnectXMTP := (Xmtp.disconnectXMTP Client).
Local Abbreviation getXMTPClient := (Xmtp.getXMTPClient Client).
Local Abbreviation toXMTPMessage :=
  (Xmtp.toXMTPMessage toPrimitiveErrorMessage numberToString nativeToString).

(** The conversation with the peer that the listing shows first, if the
    listing succeeds and shows one. *)
Local Abbreviation listed client peerAddress :=
  (match conversations_list client with
   | inr conversations =>
       find (fun conv => String.eqb (Conversation.peerAddress conv) peerAddress)
         conversations
   | inl _ => None
   end).

Lemma getConversation_run (peerAddress : string) (client : Client)
    (v : Variables Client) :
  xmtpClient v = Some client ->
  getConversation peerAddress v = (([List], inr (listed client peerAddress)), v).
Proof.
  intros Hclient. unfold Xmtp.getConversation, withClient. rewrite Hclient.
  unfold xtry, xbind, call, xret, ret.
  destruct (conversations_list client); reflexivity.
Qed.

(** Without a client (before [initializeXMTPClient] has succeeded, and after
    [disconnectXMTP], whatever the variables held before it) every operation
    on conversations and messages throws its "não inicializado" error; none
    of them calls the SDK or changes the variables. *)
Theorem operations_need_a_client (v0 : Variables Client)
    (peerAddress content : string) (limit : option float) :
  let notInitialized := ThrownError "Cliente XMTP não inicializado" in
  let callFirst :=
    ThrownError
      "Cliente XMTP não inicializado. Chame initializeXMTPClient primeiro." in
  xmtpClient (variables (disconnectXMTP v0)) = None
  /\ calls (disconnectXMTP v0) = []
  /\ forall v,
       xmtpClient v = None ->
       listConversations v = (([], inl notInitialized), v)
       /\ createConversation peerAddress v = (([], inl notInitialized), v)
       /\ getConversation peerAddress v = (([], inl notInitialized), v)
       /\ getOrCreateConversation peerAddress v = (([], inl notInitialized), v)
       /\ sendEncryptedMessage peerAddress content v = (([], inl callFirst), v)
       /\ receiveMessages peerAddress limit v = (([], inl callFirst), v).
Proof.
  cbv zeta. split; [|split].
  - unfold Xmtp.disconnectXMTP.
    destruct (xmtpClient v0) eqn:Hclient; [reflexivity|exact Hclient].
  - unfold Xmtp.disconnectXMTP. destruct (xmtpClient v0); reflexivity.
  - intros v Hnone.
    unfold Xmtp.listConversations, Xmtp.createConversation,
      Xmtp.getOrCreateConversation, Xmtp.getConversation,
      Xmtp.sendEncryptedMessage, Xmtp.receiveMessages, withClient, xbind.
    rewrite Hnone. repeat split.
Qed.

(** [sendEncryptedMessage] with a client.  It asks [canMessage] first;
    unless that answers [true] (it may answer [false] or fail) the message is
    refused with "O endereço ... não está registrado no XMTP" and nothing else
    is called.  Otherwise the conversations are listed; the first one with
    the peer is used when the listing shows one, and a new conversation is
    made when it shows none or fails; the message is then sent once, on that
    conversation, and what was sent is returned as an [XMTPMessage] (a
    content that is not a string is converted by [String], and the TypeError
    of a content that cannot be converted is passed on).  The variables of
    the module are left as they are. *)
Theorem sendEncryptedMessage_calls (peerAddress content : string)
    (client : Client) (v : Variables Client) :
  xmtpClient v = Some client ->
  sendEncryptedMessage peerAddress content v =
  (match Client_canMessage peerAddress with
   | inr true =>
       let sent := fun conversation =>
         match conversation_send conversation content with
         | inr message => toXMTPMessage conversation message
         | inl e => inl e
         end in
       match listed client peerAddress with
       | Some conversation =>
           ([CanMessage peerAddress; List; Send conversation content],
            sent conversation)
       | None =>
           match conversations_newConversation client peerAddress with
           | inr conversation =>
               ([CanMessage peerAddress; List; NewConversation peerAddress;
                 Send conversation content],
                sent conversation)
           | inl e =>
               ([CanMessage peerAddress; List; NewConversation peerAddress],
                inl e)
           end
       end
   | _ =>
       ([CanMessage peerAddress],
        inl (ThrownError ("O endereço " ++ peerAddress
                            ++ " não está registrado no XMTP")))
   end,
   v).
Proof.
  intros Hclient.
  unfold Xmtp.sendEncryptedMessage, withClient. rewrite Hclient.
  unfold xtry at 1. unfold xbind at 1. unfold Xmtp.canMessage.
  unfold xtry at 1. unfold call at 1.
  destruct (Client_canMessage peerAddress) as [e|[|]];
    try reflexivity.
  cbn [negb xret ret app]. unfold xbind at 1.
  unfold Xmtp.getOrCreateConversation. unfold xbind at 1.
  rewrite (getConversation_run peerAddress client v Hclient).
  destruct (listed client peerAddress) as [conversation|].
  - unfold xret, ret, xbind, Xmtp.sendMessage, xtry, call, xlift, xthrow,
      throw.
    destruct (conversation_send conversation content) as [e|message];
      [reflexivity|].
    destruct (toXMTPMessage conversation message); reflexivity.
  - unfold Xmtp.createConversation, withClient. rewrite Hclient.
    unfold xtry at 1. unfold call at 1.
    destruct (conversations_newConversation client peerAddress)
      as [e|conversation]; [reflexivity|].
    unfold xret, ret, xbind, Xmtp.sendMessage, xtry, call, xlift, xthrow,
      throw.
    destruct (conversation_send conversation content) as [e|message];
      [reflexivity|].
    destruct (toXMTPMessage conversation message); reflexivity.
Qed.

(** [receiveMessages] with a client lists the conversations and reads the
    messages of the first one with the peer, each returned as an
    [XMTPMessage] (the first content that [String] cannot convert makes the
    call throw that TypeError).  It answers with no message at all both when
    the listing shows no such conversation and when the listing fails; it
    never makes a conversation. *)
Theorem receiveMessages_reads_the_listed_conversation (peerAddress : string)
    (limit : option float) (client : Client) (v : Variables Client) :
  xmtpClient v = Some client ->
  receiveMessages peerAddress limit v =
  (match listed client peerAddress with
   | Some conversation =>
       ([List; Messages conversation limit],
        match conversation_messages conversation limit with
        | inr messages => mapThrowing (toXMTPMessage conversation) messages
        | inl e => inl e
        end)
   | None => ([List], inr [])
   end,
   v).
Proof.
  intros Hclient.
  unfold Xmtp.receiveMessages, withClient. rewrite Hclient.
  unfold xtry at 1. unfold xbind at 1.
  rewrite (getConversation_run peerAddress client v Hclient).
  destruct (listed client peerAddress) as [conversation|]; [|reflexivity].
  unfold Xmtp.listMessages, xtry, xbind, call, xlift, xret, ret, xthrow,
    throw.
  destruct (conversation_messages conversation limit) as [e|messages];
    [reflexivity|].
  destruct (mapThrowing _ messages); reflexivity.
Qed.

(** [initializeXMTPClient] asks the signer for its address, then
    [canMessage], then creates the client, under the environment
    "production" and the version "zkvip-ethglobal/1.0.0" unless the
    configuration names others.  When the three succeed the client is the one
    [getXMTPClient] returns from then on, and a message counts as the user's
    own exactly when its sender is the signer's address up to [toLowerCase].
    When one of them fails, the failure of [canMessage] included, the call
    throws "Falha ao inicializar XMTP: ..." and the variables keep what they
    held. *)
Theorem initializeXMTPClient_sets_the_client (config : XMTPConfig.t)
    (message : XMTPMessage.t) (v : Variables Client) :
  let env := orDefault (XMTPConfig.env config) "production" in
  let appVersion :=
    orDefault (XMTPConfig.appVersion config) "zkvip-ethglobal/1.0.0" in
  let failed := fun (called : list Call) (e : Thrown) =>
    initializeXMTPClient config v =
    ((called,
      inl (ThrownError ("Falha ao inicializar XMTP: "
                          ++ messageOr "Erro desconhecido" e))),
     v) in
  match signer_getAddress with
  | inl e => failed [GetAddress] e
  | inr address =>
      match Client_canMessage address with
      | inl e => failed [GetAddress; CanMessage address] e
      | inr _ =>
          match Client_create env appVersion with
          | inl e =>
              failed [GetAddress; CanMessage address; Create env appVersion] e
          | inr client =>
              let v' := variables (initializeXMTPClient config v) in
              calls (initializeXMTPClient config v)
              = [GetAddress; CanMessage address; Create env appVersion]
              /\ answer (initializeXMTPClient config v) = inr client
              /\ v' = mkVariables (Some client)
                        (mkClientState (Some client) true (Some address))
              /\ answer (getXMTPClient v') = inr (Some client)
              /\ (exists formatted,
                    answer (formatXMTPMessage message v') = inr formatted
                    /\ Formatted.isOwn formatted
                       = String.eqb
                           (toLowerCase (XMTPMessage.senderAddress message))
                           (toLowerCase address)
                    /\ (Formatted.isOwn formatted = true ->
                        Formatted.sender formatted = "You"))
          end
      end
  end.
Proof.
  cbv zeta. unfold Xmtp.initializeXMTPClient, xtry, xbind, call, xthrow, throw.
  destruct signer_getAddress as [e|address]; [reflexivity|].
  destruct (Client_canMessage address) as [e|b]; [reflexivity|].
  destruct (Client_create _ _) as [e|client]; [reflexivity|].
  cbn. repeat split.
  eexists. split; [reflexivity|]. cbn. split; [reflexivity|].
  intros ->. reflexivity.
Qed.

End Sdk.

End XmtpFacts.

(* ------------------------------------------------------------------ *)
(** ** The pipeline: requests, failures, helpers *)

Module PipelineFacts.

Import Exec JSNum VLayer.
Open Scope string_scope.
Open Scope list_scope.

Section Run.

Variable ProofResult : Type.
Variable isValid : ProofResult -> bool.
Variable Nonce : Type.
Variable generateRandomNonce : Nonce.
Variable generateProof :
  ProofInputs.t Nonce -> list (float * string) * (Thrown + ProofResult).
Variable fetch : string -> list (string * string) -> Thrown + Response.t.
Variable Date_now : float.
Variable numberToString : float -> string.
Variable toFixed : float -> nat -> string.
Variable responseData : NubankBankData.t.

Local Abbreviation Ev := (Event Nonce).
Local Abbreviation run :=
  (vlayerGenerateProof ProofResult isValid Nonce generateRandomNonce
     generateProof fetch Date_now numberToString toFixed responseData).
Local Abbreviation createWebProof :=
  (VLayer.createWebProof Nonce fetch Date_now numberToString responseData).
Local Abbreviation fetchNubankData :=
  (VLayer.fetchNubankData Nonce fetch Date_now numberToString responseData).
Local Abbreviation getNubankBalance :=
  (VLayer.getNubankBalance Nonce fetch Date_now numberToString responseData).
Local Abbreviation getNubankBalanceInWLD :=
  (VLayer.getNubankBalanceInWLD Nonce fetch Date_now numberToString
     responseData).
Local Abbreviation getNubankAccountWithHighestBalance :=
  (VLayer.getNubankAccountWithHighestBalance Nonce fetch Date_now
     numberToString responseData).
Local Abbreviation proofInputs := (VLayer.proofInputs generateRandomNonce).

Lemma createWebProof_run (dataUrl : string) (accessToken : option string) :
  createWebProof dataUrl accessToken =
  ([Fetch dataUrl (requestHeaders accessToken)],
   match fetch dataUrl (requestHeaders accessToken) with
   | inr response => inr (WebProof.mk dataUrl response responseData Date_now)
   | inl e =>
       inl (ThrownError ("Falha ao criar WebProof: "
                           ++ messageOr "Erro desconhecido" e)%string)
   end).
Proof.
  unfold VLayer.createWebProof, tryCatch, bind, emit, lift, throw, ret.
  destruct (fetch dataUrl (requestHeaders accessToken)) as [e|response];
    [reflexivity|].
  unfold truthy. rewrite andb_false_r. reflexivity.
Qed.

(** [createWebProof] never turns a response down because of its status:
    whenever [fetch] answers, be it with [ok] false, the evidence is built
    around the payload, with that response in it; the one failure is a
    failure of [fetch] itself, rethrown under "Falha ao criar WebProof: ".
    One request is sent, with the [Authorization] header exactly when the
    token is a string that is not empty. *)
Theorem createWebProof_ignores_the_status (dataUrl : string)
    (accessToken : option string) :
  createWebProof dataUrl accessToken =
  ([Fetch dataUrl (requestHeaders accessToken)],
   match fetch dataUrl (requestHeaders accessToken) with
   | inr response => inr (WebProof.mk dataUrl response responseData Date_now)
   | inl e =>
       inl (ThrownError ("Falha ao criar WebProof: "
                           ++ messageOr "Erro desconhecido" e)%string)
   end)
  /\ requestHeaders (Some "") = requestHeaders None
  /\ (forall name value,
        In (name, value) (requestHeaders accessToken) ->
        name = "Authorization" ->
        exists token,
          accessToken = Some token /\ token <> ""
          /\ value = ("Bearer " ++ token)%string)
  /\ (forall token,
        token <> "" ->
        In ("Authorization", ("Bearer " ++ token)%string)
          (requestHeaders (Some token))).
Proof.
  split; [apply createWebProof_run|].
  split; [reflexivity|]. split.
  - unfold requestHeaders. intros name value [Hin|Hin] Hname.
    + injection Hin as <- <-. discriminate.
    + destruct accessToken as [token|]; [|destruct Hin].
      destruct (String.eqb token "") eqn:Htoken; [destruct Hin|].
      destruct Hin as [Hin|[]]. injection Hin as <- <-.
      apply String.eqb_neq in Htoken. eauto.
  - intros token Htoken. unfold requestHeaders.
    apply String.eqb_neq in Htoken. rewrite Htoken. right. now left.
Qed.

Lemma fetchNubankData_run (accessToken : option string) :
  fetchNubankData accessToken =
  ([Fetch NUBANK_DATA_URL (requestHeaders accessToken)],
   match fetch NUBANK_DATA_URL (requestHeaders accessToken) with
   | inr _ => inr responseData
   | inl e =>
       inl (ThrownError
              ("Falha ao buscar dados do Nubank: "
                 ++ ("Falha ao criar WebProof: "
                       ++ messageOr "Erro desconhecido" e))%string)
   end).
Proof.
  unfold VLayer.fetchNubankData.
  rewrite createWebProof_run.
  unfold tryCatch, bind, verifyWebProof, tryCatch, ret, throw.
  destruct (fetch _ _) as [e|response]; reflexivity.
Qed.

(** The helpers around [fetchNubankData] send one request each.  When
    [fetch] fails they all throw its message under the two prefixes "Falha ao
    buscar dados do Nubank: Falha ao criar WebProof: ".  When it answers,
    [getNubankBalance] returns the balances added up from 0 in the order of
    the accounts and [getNubankBalanceInWLD] that sum times 0.18: with no
    account at all they return 0, where
    [getNubankAccountWithHighestBalance] throws "Nenhuma conta encontrada no
    Nubank". *)
Theorem balance_helpers_after_fetch (accessToken : option string) :
  let request := [Fetch (Nonce := Nonce) NUBANK_DATA_URL
                    (requestHeaders accessToken)] in
  let total :=
    fold_left addBalance (NubankBankData.accounts responseData) 0%float in
  events (getNubankBalance accessToken) = request
  /\ events (getNubankBalanceInWLD accessToken) = request
  /\ events (getNubankAccountWithHighestBalance accessToken) = request
  /\ match fetch NUBANK_DATA_URL (requestHeaders accessToken) with
     | inl e =>
         let failure :=
           ThrownError
             ("Falha ao buscar dados do Nubank: "
                ++ ("Falha ao criar WebProof: "
                      ++ messageOr "Erro desconhecido" e))%string in
         outcome (getNubankBalance accessToken) = inl failure
         /\ outcome (getNubankBalanceInWLD accessToken) = inl failure
         /\ outcome (getNubankAccountWithHighestBalance accessToken)
            = inl failure
     | inr _ =>
         outcome (getNubankBalance accessToken) = inr total
         /\ outcome (getNubankBalanceInWLD accessToken)
            = inr (convertBRLToWLD total defaultExchangeRate)
         /\ (NubankBankData.accounts responseData = [] ->
             outcome (getNubankBalance accessToken) = inr 0%float
             /\ outcome (getNubankBalanceInWLD accessToken) = inr 0%float
             /\ outcome (getNubankAccountWithHighestBalance accessToken)
                = inl (ThrownError "Nenhuma conta encontrada no Nubank"))
     end.
Proof.
  cbv zeta.
  unfold VLayer.getNubankBalanceInWLD, VLayer.getNubankBalance,
    VLayer.getNubankAccountWithHighestBalance.
  rewrite !fetchNubankData_run.
  unfold tryCatch, bind, ret, throw, events, outcome, Array_reduce.
  destruct (fetch _ _) as [e|response]; cbn [fst snd].
  - repeat split.
  - destruct (NubankBankData.accounts responseData) as [|a l] eqn:Hacc;
      cbn [List.length Nat.eqb fst snd app fold_left].
    + repeat split.
    + repeat split; discriminate.
Qed.


End Run.

End PipelineFacts.

(* ------------------------------------------------------------------ *)
(** ** The pipeline with collaborators that may throw *)

Module CallbackFacts.

Import Exec JSNum VLayer VLayerTrace Callbacks.
Open Scope string_scope.
Open Scope list_scope.

Section Run.

Variable ProofResult : Type.
Variable isValid : ProofResult -> bool.
Variable Nonce : Type.
Variable generateRandomNonce : Thrown + Nonce.
Variable generateProof : ProofInputs.t Nonce -> ProofRun ProofResult.
Variable fetch : string -> list (string * string) -> Thrown + Response.t.
Variable Date_now : float.
Variable numberToString : float -> string.
Variable toFixed : float -> nat -> string.
Variable responseData : NubankBankData.t.
Variable onProgress :
  option (list (float * string) -> float -> string -> option Thrown).

Local Abbreviation Ev := (Event Nonce).
Local Abbreviation run :=
  (Callbacks.vlayerGenerateProof ProofResult isValid Nonce generateRandomNonce
     generateProof fetch Date_now numberToString toFixed responseData
     onProgress).
Local Abbreviation runWithout :=
  (Callbacks.vlayerGenerateProof ProofResult isValid Nonce generateRandomNonce
     generateProof fetch Date_now numberToString toFixed responseData None).
Local Abbreviation progress := (Callbacks.progress Nonce onProgress).
Local Abbreviation proofRun := (Callbacks.proofRun ProofResult Nonce).
Local Abbreviation maySettleThrowing :=
  (Callbacks.maySettleThrowing ProofResult).
Local Abbreviation thrownByCallback := (Callbacks.thrownByCallback onProgress).
Local Abbreviation thrownByCollaborator :=
  (Callbacks.thrownByCollaborator ProofResult Nonce generateRandomNonce
     generateProof onProgress).
Local Abbreviation sameCalls := (@Callbacks.sameCalls Nonce).
Local Abbreviation proofInputs := (@VLayer.proofInputs Nonce).
Local Abbreviation default := "Erro desconhecido ao gerar prova com VLayer".

Lemma rbind_progress {B} (percent : float) (text : string)
    (k : unit -> Run Ev B) (t : list Ev) :
  rbind (progress percent text) k t
  = k tt (traceAfter (progress percent text t))
  \/ exists callback e,
       onProgress = Some callback
       /\ callback (reported t) percent text = Some e
       /\ rbind (progress percent text) k t
          = (inl e, traceAfter (progress percent text t)).
Proof.
  unfold rbind, Callbacks.progress, traceAfter.
  destruct onProgress as [callback|]; [|now left].
  destruct (callback _ _ _) as [e|] eqn:Hcallback; [|now left].
  right. exists callback, e. auto.
Qed.

Lemma rbind_exec {A B} (m : M Ev A) (k : A -> Run Ev B) (t : list Ev) :
  rbind (exec m) k t =
  match outcome m with
  | inl e => (inl e, t ++ events m)
  | inr a => k a (t ++ events m)
  end.
Proof. unfold rbind, exec. destruct (outcome m); reflexivity. Qed.

Lemma rbind_assoc {A B C} (m : Run Ev A) (f : A -> Run Ev B)
    (g : B -> Run Ev C) (t : list Ev) :
  rbind (rbind m f) g t = rbind m (fun a => rbind (f a) g) t.
Proof. unfold rbind. destruct (m t) as [[e|a] t']; reflexivity. Qed.

(** What a [ProofRun] throws, it settled with. *)
Lemma proofRun_throws (p : ProofRun ProofResult)
    (callback : float -> string -> Run Ev unit) (t : list Ev) (e : Thrown) :
  result (proofRun p callback t) = inl e -> maySettleThrowing p e.
Proof.
  revert t. induction p as [progress_ text next IH|settled]; intros t.
  - cbn [Callbacks.proofRun maySettleThrowing].
    destruct (callback progress_ text t) as [[e'|[]] t']; intros H.
    + exists (Some e'). eapply IH, H.
    + exists None. eapply IH, H.
  - cbn. destruct settled; [intros [= ->]; reflexivity|discriminate].
Qed.

(** A [ProofRun] adds nothing to the trace but what its callback adds. *)
Lemma proofRun_calls {B} (g : Ev -> list B) (p : ProofRun ProofResult)
    (callback : float -> string -> Run Ev unit) (t : list Ev) :
  (forall percent text t',
     flat_map g (traceAfter (callback percent text t')) = flat_map g t') ->
  flat_map g (traceAfter (proofRun p callback t)) = flat_map g t.
Proof.
  intros Hcallback. revert t.
  induction p as [progress_ text next IH|settled]; intros t; [|reflexivity].
  cbn [Callbacks.proofRun].
  specialize (Hcallback progress_ text t).
  destruct (callback progress_ text t) as [[e'|[]] t'];
    rewrite IH; exact Hcallback.
Qed.

Lemma progress_calls {B} (g : Ev -> list B) (percent : float) (text : string)
    (t : list Ev) :
  (forall p txt, g (Progress p txt) = []) ->
  flat_map g (traceAfter (progress percent text t)) = flat_map g t.
Proof.
  intros Hg. unfold Callbacks.progress, traceAfter.
  destruct onProgress; [|reflexivity].
  cbn [snd]. rewrite flat_map_app. cbn. rewrite Hg, !app_nil_r. reflexivity.
Qed.

Ltac progress_step :=
  match goal with
  | |- context [rbind (Callbacks.progress _ _ ?p ?text) ?k ?t] =>
      let cb := fresh "callback" in
      let e' := fresh "e'" in
      let Hon := fresh "Hon" in
      let Hcb := fresh "Hcallback" in
      destruct (rbind_progress p text k t) as [->|(cb & e' & Hon & Hcb & ->)]
  end.

Ltac thrown e Hcallback :=
  let H := fresh "Hthrown" in
  cbn [result fst rthrow]; intros H; injection H as H; subst e;
  eexists; split; [reflexivity|];
  do 4 right; eexists; split; [eapply Hcallback; eassumption|reflexivity].

Ltac thrown_by_stage e :=
  let H := fresh "Hthrown" in
  cbn [result fst rthrow messageOr List.length Nat.eqb];
  intros H; injection H as H; subst e;
  eexists; split; [reflexivity|].


Ltac calls_so_far :=
  cbn [result traceAfter fst snd rthrow rret]; unfold withoutProgress;
  repeat first
    [ rewrite flat_map_app
    | rewrite (progress_calls _ _ _ _ (fun _ _ => eq_refl)) ];
  cbn [flat_map app].

Lemma run_calls (threshold : float) (accessToken : option string) :
  let r := run threshold accessToken [] in
  let calls := withoutProgress (traceAfter r) in
  let request := Fetch NUBANK_DATA_URL (requestHeaders accessToken) in
  (calls = []
   /\ exists e',
        thrownByCallback e'
        /\ result r = inl (ThrownError (messageOr default e')))
  \/ calls = [request]
  \/ calls = [request; GenerateRandomNonce]
  \/ exists nonce a l,
       generateRandomNonce = inr nonce
       /\ NubankBankData.accounts responseData = a :: l
       /\ calls = [request; GenerateRandomNonce;
                   GenerateProof (proofInputs nonce threshold a l)].
Proof.
  cbv zeta. unfold Callbacks.vlayerGenerateProof, rtry.
  progress_step.
  2:{ left. calls_so_far. split; [reflexivity|].
      exists e'. split; [red; eauto 10|reflexivity]. }
  progress_step.
  2:{ left. calls_so_far. split; [reflexivity|].
      exists e'. split; [red; eauto 10|reflexivity]. }
  right.
  rewrite rbind_exec, PipelineFacts.createWebProof_run.
  cbn [outcome events snd fst].
  destruct (fetch _ _) as [e'|response] eqn:Hfetch.
  { left. calls_so_far. reflexivity. }
  progress_step; [|left; calls_so_far; reflexivity].
  rewrite rbind_exec. cbn [verifyWebProof tryCatch ret outcome events snd fst].
  progress_step; [|left; calls_so_far; reflexivity].
  cbn [Web.json WebProof.data WebProof.url].
  destruct (NubankBankData.accounts responseData) as [|a l] eqn:Hacc.
  { left. cbn [List.length Nat.eqb]. calls_so_far. reflexivity. }
  cbn [List.length Nat.eqb].
  progress_step; [|left; calls_so_far; reflexivity].
  rewrite rbind_exec. cbn [Array_reduce ret outcome events snd fst].
  progress_step; [|left; calls_so_far; reflexivity].
  change (convertBRLToWLD
            (NubankAccount.balance (fold_left higherBalance l a))
            defaultExchangeRate) with (balanceInWLD a l).
  destruct (balanceInWLD a l <? threshold)%float eqn:Hcmp.
  { left. calls_so_far. reflexivity. }
  progress_step; [|left; calls_so_far; reflexivity].
  rewrite rbind_exec. cbn [emit outcome events snd fst].
  rewrite rbind_exec. cbn [lift outcome events snd fst].
  right.
  destruct generateRandomNonce as [e'|nonce] eqn:Hnonce.
  { left. calls_so_far. reflexivity. }
  progress_step; [|left; calls_so_far; reflexivity].
  progress_step; [|left; calls_so_far; reflexivity].
  right. exists nonce, a, l. split; [reflexivity|]. split; [reflexivity|].
  unfold callGenerateProof. rewrite rbind_assoc, rbind_exec.
  cbn [emit outcome events snd fst]. unfold rbind at 1.
  match goal with
  | |- context [Callbacks.proofRun ?PR ?N ?p ?cb ?t] =>
      pose proof (proofRun_calls
                    (fun ev : Ev =>
                       match ev with Progress _ _ => [] | _ => [ev] end)
                    p cb t
                    (fun percent text t' =>
                       progress_calls _ _ _ t' (fun _ _ => eq_refl)))
        as Hcalls;
      destruct (Callbacks.proofRun PR N p cb t) as [[e'|proof] t']
  end.
  { calls_so_far. cbn [traceAfter snd] in Hcalls. rewrite Hcalls.
    calls_so_far. reflexivity. }
  cbn [traceAfter snd] in Hcalls.
  destruct (isValid proof); cbn [negb].
  2:{ calls_so_far. rewrite Hcalls. calls_so_far. reflexivity. }
  progress_step; calls_so_far; rewrite Hcalls; calls_so_far; reflexivity.
Qed.

Lemma same_ret {A} (a : A) : sameCalls (rret a) (rret a).
Proof. intros t1 t2 H. now split. Qed.

Lemma same_throw {A} (e : Thrown) : sameCalls (@rthrow Ev A e) (rthrow e).
Proof. intros t1 t2 H. now split. Qed.

Lemma same_exec {A} (m : M Ev A) : sameCalls (exec m) (exec m).
Proof.
  intros t1 t2 H. split; [reflexivity|].
  unfold exec, traceAfter, withoutProgress in *. cbn [snd].
  now rewrite !flat_map_app, H.
Qed.

Lemma same_bind {A B} (m1 m2 : Run Ev A) (f1 f2 : A -> Run Ev B) :
  sameCalls m1 m2 -> (forall a, sameCalls (f1 a) (f2 a)) ->
  sameCalls (rbind m1 f1) (rbind m2 f2).
Proof.
  intros Hm Hf t1 t2 H. unfold rbind.
  destruct (Hm t1 t2 H) as [Hresult Htrace].
  destruct (m1 t1) as [[e1|a1] t1'], (m2 t2) as [[e2|a2] t2'];
    unfold result, traceAfter in *; cbn [fst snd] in *; try discriminate.
  - injection Hresult as ->. split; [reflexivity|assumption].
  - injection Hresult as <-. now apply Hf.
Qed.

Lemma same_try {A} (m1 m2 : Run Ev A) (h1 h2 : Thrown -> Run Ev A) :
  sameCalls m1 m2 -> (forall e, sameCalls (h1 e) (h2 e)) ->
  sameCalls (rtry m1 h1) (rtry m2 h2).
Proof.
  intros Hm Hh t1 t2 H. unfold rtry.
  destruct (Hm t1 t2 H) as [Hresult Htrace].
  destruct (m1 t1) as [[e1|a1] t1'], (m2 t2) as [[e2|a2] t2'];
    unfold result, traceAfter in *; cbn [fst snd] in *; try discriminate.
  - injection Hresult as <-. now apply Hh.
  - split; assumption.
Qed.

Lemma same_proofRun (p : ProofRun ProofResult)
    (callback1 callback2 : float -> string -> Run Ev unit) :
  (forall percent text, sameCalls (callback1 percent text)
                          (callback2 percent text)) ->
  sameCalls (proofRun p callback1) (proofRun p callback2).
Proof.
  intros Hcallback.
  induction p as [progress_ text next IH|settled]; intros t1 t2 H.
  - cbn [Callbacks.proofRun].
    destruct (Hcallback progress_ text t1 t2 H) as [Hresult Htrace].
    destruct (callback1 progress_ text t1) as [[e1|[]] t1'],
      (callback2 progress_ text t2) as [[e2|[]] t2'];
      unfold result, traceAfter in *; cbn [fst snd] in *; try discriminate.
    + injection Hresult as <-. now apply IH.
    + now apply IH.
  - now split.
Qed.

(** A callback that never throws against no callback. *)
Lemma same_progress (percent : float) (text : string) :
  (forall callback calls p txt,
     onProgress = Some callback -> callback calls p txt = None) ->
  sameCalls (progress percent text) (Callbacks.progress Nonce None percent text).
Proof.
  intros Hquiet t1 t2 H. unfold Callbacks.progress.
  destruct onProgress as [callback|]; [|now split].
  rewrite (Hquiet callback _ _ _ eq_refl).
  split; [reflexivity|].
  unfold traceAfter, withoutProgress in *. cbn [snd].
  rewrite flat_map_app. cbn. now rewrite app_nil_r.
Qed.

Lemma run_same_calls (threshold : float) (accessToken : option string) :
  (forall callback calls p txt,
     onProgress = Some callback -> callback calls p txt = None) ->
  sameCalls (run threshold accessToken) (runWithout threshold accessToken).
Proof.
  intros Hquiet. unfold Callbacks.vlayerGenerateProof.
  apply same_try; [|intros; apply same_throw].
  repeat first
    [ apply same_ret
    | apply same_throw
    | apply same_exec
    | apply same_progress; exact Hquiet
    | apply same_bind; [|intros]
    | apply same_proofRun; intros
    | match goal with
      | |- sameCalls (if ?c then _ else _) _ => destruct c
      end
    | unfold callGenerateProof ].
Qed.

(** The calls a run makes to the outside, whatever its collaborators do:
    the request to the URL of the bank, then [generateRandomNonce], then
    [generateProof] with the nonce just generated, in this order and each at
    most once, the run ending after any of them.  The request is sent unless
    the progress callback throws before it.  A progress callback that never
    throws changes nothing: the run makes the calls, and has the outcome, of
    the run without a callback, and the request is among them. *)
Theorem run_calls_the_outside_once (threshold : float)
    (accessToken : option string) :
  let r := run threshold accessToken [] in
  let calls := withoutProgress (traceAfter r) in
  let request := Fetch NUBANK_DATA_URL (requestHeaders accessToken) in
  ((calls = []
    /\ exists e',
         thrownByCallback e'
         /\ result r = inl (ThrownError (messageOr default e')))
   \/ calls = [request]
   \/ calls = [request; GenerateRandomNonce]
   \/ exists nonce a l,
        generateRandomNonce = inr nonce
        /\ NubankBankData.accounts responseData = a :: l
        /\ calls = [request; GenerateRandomNonce;
                    GenerateProof (proofInputs nonce threshold a l)])
  /\ ((forall callback calls p txt,
         onProgress = Some callback -> callback calls p txt = None) ->
      result r = result (runWithout threshold accessToken [])
      /\ calls = withoutProgress (traceAfter (runWithout threshold accessToken []))
      /\ In request calls).
Proof.
  cbv zeta. split; [apply run_calls|].
  intros Hquiet.
  destruct (run_same_calls threshold accessToken Hquiet [] [] eq_refl)
    as [Hresult Hcalls].
  split; [exact Hresult|]. split; [exact Hcalls|].
  destruct (run_calls threshold accessToken)
    as [[_ (e' & (callback & calls & p & txt & Hon & Hthrew) & _)]
       |[->|[->|(nonce & a & l & _ & _ & ->)]]];
    [|now left..].
  rewrite (Hquiet callback calls p txt Hon) in Hthrew. discriminate.
Qed.

End Run.

Section Agreement.

Variable ProofResult : Type.
Variable isValid : ProofResult -> bool.
Variable Nonce : Type.
Variable generateRandomNonce : Nonce.
Variable generateProof :
  ProofInputs.t Nonce -> list (float * string) * (Thrown + ProofResult).
Variable fetch : string -> list (string * string) -> Thrown + Response.t.
Variable Date_now : float.
Variable numberToString : float -> string.
Variable toFixed : float -> nat -> string.
Variable responseData : NubankBankData.t.

Local Abbreviation Ev := (Event Nonce).

Local Abbreviation withCollaborators onProgress :=
  (Callbacks.vlayerGenerateProof ProofResult isValid Nonce
     (inr generateRandomNonce)
     (fun inputs =>
        reportsThen (fst (generateProof inputs)) (snd (generateProof inputs)))
     fetch Date_now numberToString toFixed responseData
     (returning onProgress)).
Local Abbreviation run :=
  (VLayer.vlayerGenerateProof ProofResult isValid Nonce generateRandomNonce
     generateProof fetch Date_now numberToString toFixed responseData).

Lemma rbind_returning {B} (onProgress : bool) (percent : float)
    (text : string) (k : unit -> Run Ev B) (t : list Ev) :
  rbind (Callbacks.progress Nonce (returning onProgress) percent text) k t
  = k tt (t ++ progressEvents onProgress [(percent, text)]).
Proof.
  unfold rbind, Callbacks.progress, returning, progressEvents.
  destruct onProgress; [reflexivity|]. now rewrite app_nil_r.
Qed.

Lemma proofRun_reportsThen (onProgress : bool) (f : float -> float)
    (reports : list (float * string)) (settled : Thrown + ProofResult)
    (t : list Ev) :
  Callbacks.proofRun ProofResult Nonce (reportsThen reports settled)
    (fun progress_ text =>
       Callbacks.progress Nonce (returning onProgress) (f progress_) text) t
  = (settled,
     t ++ progressEvents onProgress
            (map (fun c => (f (fst c), snd c)) reports)).
Proof.
  revert t. induction reports as [|[p text] reports IH]; intros t.
  - cbn. unfold progressEvents. destruct onProgress; now rewrite app_nil_r.
  - cbn [reportsThen Callbacks.proofRun].
    unfold Callbacks.progress at 1, returning at 1.
    destruct onProgress.
    + rewrite IH. unfold progressEvents. cbn [map fst snd].
      now rewrite <- app_assoc.
    + rewrite IH. reflexivity.
Qed.

(** With collaborators that return (a nonce generator that returns its
    nonce, a callback that returns from every call, a [generateProof] that
    reports and settles whatever its callback does), the run is the run of
    [VLayer.vlayerGenerateProof]: the same outcome after the same events. *)
Lemma agrees_with_returning_collaborators (threshold : float)
    (accessToken : option string) (onProgress : bool) :
  withCollaborators onProgress threshold accessToken []
  = (outcome (run threshold accessToken onProgress),
     events (run threshold accessToken onProgress)).
Proof.
  rewrite VLayerFacts.run_stages. cbv zeta.
  unfold Callbacks.vlayerGenerateProof, rtry.
  rewrite !rbind_returning.
  rewrite rbind_exec, PipelineFacts.createWebProof_run.
  cbn [outcome events snd fst].
  destruct (fetch _ _) as [e'|response].
  { destruct onProgress, e'; reflexivity. }
  rewrite !rbind_returning.
  rewrite rbind_exec.
  cbn [verifyWebProof tryCatch ret outcome events snd fst].
  rewrite !rbind_returning.
  cbn [Web.json WebProof.data WebProof.url].
  destruct (NubankBankData.accounts responseData) as [|a l].
  { destruct onProgress; reflexivity. }
  cbn [List.length Nat.eqb].
  rewrite !rbind_returning.
  rewrite rbind_exec.
  cbn [Array_reduce ret outcome events snd fst].
  rewrite !rbind_returning.
  change (convertBRLToWLD
            (NubankAccount.balance (fold_left higherBalance l a))
            defaultExchangeRate) with (balanceInWLD a l).
  destruct (balanceInWLD a l <? threshold)%float.
  { destruct onProgress; reflexivity. }
  rewrite !rbind_returning.
  rewrite rbind_exec. cbn [emit outcome events snd fst].
  rewrite rbind_exec. cbn [lift outcome events snd fst].
  rewrite !rbind_returning.
  unfold callGenerateProof.
  rewrite rbind_assoc, rbind_exec.
  cbn [emit outcome events snd fst]. unfold rbind at 1.
  rewrite (proofRun_reportsThen onProgress mappedProgress).
  unfold VLayer.proofInputs, VLayer.traceToProof.
  destruct (snd (generateProof _)) as [e'|proof].
  { destruct onProgress, e'; cbn; rewrite ?app_nil_r; reflexivity. }
  destruct (isValid proof); cbn [negb].
  2:{ destruct onProgress; cbn; rewrite ?app_nil_r; reflexivity. }
  rewrite rbind_returning.
  destruct onProgress; cbn; rewrite ?app_nil_r, <- ?app_assoc; reflexivity.
Qed.

End Agreement.

End CallbackFacts.

(* ------------------------------------------------------------------ *)
(** ** The accessors, side by side *)

Module AccessorFacts.

Import Exec Json.
Open Scope string_scope.

Section Accessors.

Variable builtin : JSValue -> string -> JSValue.
Variable typeErrorMessage : JSValue -> string -> string.
Variable toPrimitiveErrorMessage : string.
Variable numberToString : float -> string.
Variable stringToNumber : string -> float.
Variable nativeToString : string -> string.

Local Abbreviation jsonGetString :=
  (Json.jsonGetString builtin typeErrorMessage toPrimitiveErrorMessage
     numberToString nativeToString).
Local Abbreviation jsonGetNumber :=
  (Json.jsonGetNumber builtin typeErrorMessage toPrimitiveErrorMessage
     numberToString stringToNumber nativeToString).

(** On every value and every path, whatever the prototype chain holds, the
    two accessors succeed together or fail together.  When they fail, each
    throws an [Error] whose message is its own prefix followed by one and the
    same cause. *)
Theorem accessors_fail_together (json : JSValue) (path : string) :
  (exists s n, jsonGetString json path = inr s
               /\ jsonGetNumber json path = inr n)
  \/ (exists cause,
        jsonGetString json path
        = inl (ThrownError ("Erro ao extrair string do JSON: " ++ cause))
        /\ jsonGetNumber json path
           = inl (ThrownError ("Erro ao extrair número do JSON: " ++ cause))).
Proof.
  unfold Json.jsonGetString, Json.jsonGetNumber.
  destruct (walk _ _ _ _ _) as [e|v].
  - right. eexists. split; reflexivity.
  - destruct (JsonFacts.conversions_together toPrimitiveErrorMessage
                numberToString stringToNumber nativeToString v)
      as [(text & number & -> & ->)|[-> ->]].
    + left. eexists _, _. split; reflexivity.
    + right. eexists. split; reflexivity.
Qed.

End Accessors.

End AccessorFacts.

(* ------------------------------------------------------------------ *)
(** ** Sums keep the order: the progress of a run never goes back *)

Module ProgressFacts.

Import Exec JSNum Binary64 VLayer.
Import Binary64Facts.
Open Scope Z_scope.

(** The rounding of any positive [p * 2^e]: it is the rounding of a
    mantissa at least as fine as the format asks, of the same value. *)
Lemma binary_round_shape s p e :
  exists a b,
    binary_round prec emax s p e = roundResult s (rndM a b) (cexp a b)
    /\ b <= cexp a b
    /\ b <= e
    /\ Zpos a = Zpos p * 2 ^ (e - b).
Proof.
  unfold binary_round.
  change (fexp prec emax (Zpos (digits2_pos p) + e)) with (cexp p e).
  unfold shl_align.
  destruct (cexp p e - e) as [|d|d] eqn:Hshift.
  - exists p, e. split; [apply binary_round_aux_shape; lia|].
    rewrite Z.sub_diag. simpl. lia.
  - exists p, e. split; [apply binary_round_aux_shape; lia|].
    rewrite Z.sub_diag. simpl. lia.
  - exists (Pos.iter xO p d), (cexp p e).
    assert (Hc : cexp (Pos.iter xO p d) (cexp p e) = cexp p e).
    { rewrite (cexp_spec (Pos.iter xO p d)), D_shift, (cexp_spec p e).
      rewrite (cexp_spec p e) in Hshift. lia. }
    split; [apply binary_round_aux_shape; lia|].
    split; [lia|]. split; [lia|].
    rewrite iter_xO_value. f_equal. f_equal. lia.
Qed.

(** The sum of two positive numbers, as a rounding. *)
Lemma SFadd_pos_shape mx ex my ey :
  exists a b,
    SFadd prec emax (S754_finite false mx ex) (S754_finite false my ey)
    = roundResult false (rndM a b) (cexp a b)
    /\ b <= cexp a b
    /\ b <= ex /\ b <= ey
    /\ Zpos a = Zpos mx * 2 ^ (ex - b) + Zpos my * 2 ^ (ey - b).
Proof.
  cbn [SFadd cond_Zopp]. cbv zeta.
  set (ez := IntDef.Z.min ex ey).
  assert (Hez : ez = Z.min ex ey) by reflexivity.
  assert (Hx : Zpos (fst (shl_align mx ex ez)) = Zpos mx * 2 ^ (ex - ez)).
  { unfold shl_align. destruct (ez - ex) as [|d|d] eqn:Hd; cbn [fst].
    - replace (ex - ez) with 0 by lia. simpl. lia.
    - lia.
    - rewrite iter_xO_value. f_equal. f_equal. lia. }
  assert (Hy : Zpos (fst (shl_align my ey ez)) = Zpos my * 2 ^ (ey - ez)).
  { unfold shl_align. destruct (ez - ey) as [|d|d] eqn:Hd; cbn [fst].
    - replace (ey - ez) with 0 by lia. simpl. lia.
    - lia.
    - rewrite iter_xO_value. f_equal. f_equal. lia. }
  destruct (Zpos (fst (shl_align mx ex ez)) + Zpos (fst (shl_align my ey ez)))
    as [|sum|sum] eqn:Hsum; try lia.
  cbn [binary_normalize].
  destruct (binary_round_shape false sum ez) as (a & b & Hround & Hb & Hbe & Ha).
  exists a, b. split; [exact Hround|]. split; [exact Hb|].
  split; [lia|]. split; [lia|].
  rewrite Ha, <- Hsum, Hx, Hy.
  rewrite Z.mul_add_distr_r, <- !Z.mul_assoc, <- !Z.pow_add_r by lia.
  f_equal; f_equal; f_equal; lia.
Qed.

(** Adding a positive number to numbers that are not negative keeps
    [<=]. *)
Lemma SFadd_mono mc ec x y :
  valid_binary (S754_finite false mc ec) = true ->
  valid_binary x = true -> valid_binary y = true ->
  SFleb (S754_zero false) x = true -> SFleb x y = true ->
  SFleb (SFadd prec emax (S754_finite false mc ec) x)
        (SFadd prec emax (S754_finite false mc ec) y) = true.
Proof.
  intros Vc Vx Vy H0 H.
  assert (Hcc : SFleb (S754_finite false mc ec) (S754_finite false mc ec)
                = true) by (apply SFleb_same; discriminate).
  destruct x as [sx|[|]| |[|] mx ex]; try discriminate H0;
    destruct y as [sy|[|]| |[|] my ey]; try discriminate H;
    try exact Hcc; try reflexivity.
  - (* c <= c + y *)
    destruct (SFadd_pos_shape mc ec my ey) as (a & b & -> & Hb & Hbc & Hby & Ha).
    cbn [SFadd]. rewrite (valid_round false mc ec Vc).
    apply roundResult_le, rnd_ordered; auto.
    + apply valid_finite in Vc. lia.
    + apply (vle_base b); try lia. rewrite Ha, Z.sub_diag.
      change (2 ^ 0) with 1. rewrite Z.mul_1_r.
      assert (0 <= Zpos my * 2 ^ (ey - b))
        by (apply Z.mul_nonneg_nonneg; [lia|apply Z.pow_nonneg; lia]).
      lia.
  - (* c + x <= infinity *)
    destruct (SFadd_pos_shape mc ec mx ex) as (a & b & -> & Hb & _).
    cbn [SFadd]. eapply SFleb_inf_r, roundResult_sign.
    now apply rndM_bounds.
  - (* c + x <= c + y *)
    destruct (SFadd_pos_shape mc ec mx ex)
      as (a1 & b1 & -> & Hb1 & Hc1 & Hx1 & Ha1).
    destruct (SFadd_pos_shape mc ec my ey)
      as (a2 & b2 & -> & Hb2 & Hc2 & Hy2 & Ha2).
    apply roundResult_le, rnd_ordered; auto.
    pose proof (valid_vle mx ex my ey Vx Vy H) as Hv.
    set (c := Z.min b1 b2).
    assert (c <= b1) by (unfold c; lia).
    assert (c <= b2) by (unfold c; lia).
    apply (vle_base c) in Hv; try lia.
    apply (vle_base c); try lia.
    rewrite Ha1, Ha2.
    rewrite !Z.mul_add_distr_r, <- !Z.mul_assoc, <- !Z.pow_add_r by lia.
    replace (ec - b1 + (b1 - c)) with (ec - c) by lia.
    replace (ec - b2 + (b2 - c)) with (ec - c) by lia.
    replace (ex - b1 + (b1 - c)) with (ex - c) by lia.
    replace (ey - b2 + (b2 - c)) with (ey - c) by lia.
    lia.
Qed.

Lemma add_mono (c x y : float) mc ec :
  Prim2SF c = S754_finite false mc ec ->
  (0 <=? x)%float = true -> (x <=? y)%float = true ->
  (c + x <=? c + y)%float = true.
Proof.
  intros Hc H0 H. rewrite leb_spec in *. rewrite !add_spec, Hc.
  pose proof (Prim2SF_valid c) as Vc. rewrite Hc in Vc.
  apply SFadd_mono; auto; apply Prim2SF_valid.
Qed.

Open Scope float_scope.

(** [70 + p * 0.3] grows with [p] on the numbers that are not negative. *)
Lemma mappedProgress_mono (p q : float) :
  (0 <=? p) = true -> (p <=? q) = true ->
  (mappedProgress p <=? mappedProgress q) = true.
Proof.
  intros H0 H. unfold mappedProgress.
  assert (Hc : Prim2SF 0.3 = S754_finite false 5404319552844595 (-54))
    by reflexivity.
  assert (H70 : Prim2SF 70 = S754_finite false 4925812092436480 (-46))
    by reflexivity.
  apply (add_mono 70 _ _ _ _ H70).
  - change 0 with (0 * 0.3) at 1.
    apply (mul_mono 0 p 0.3 _ _ Hc); [reflexivity|exact H0].
  - apply (mul_mono p q 0.3 _ _ Hc); [reflexivity|exact H].
Qed.

(** A progress between 0 and 100 is mapped between 70 and 100. *)
Lemma mappedProgress_range (p : float) :
  (0 <=? p) = true -> (p <=? 100) = true ->
  (70 <=? mappedProgress p) = true /\ (mappedProgress p <=? 100) = true.
Proof.
  intros H0 H100. split.
  - change 70 with (mappedProgress 0) at 1.
    apply mappedProgress_mono; [reflexivity|exact H0].
  - change ((mappedProgress p <=? mappedProgress 100) = true).
    now apply mappedProgress_mono.
Qed.

Lemma leb_trans (x y z : float) :
  (x <=? y) = true -> (y <=? z) = true -> (x <=? z) = true.
Proof.
  rewrite !leb_spec. unfold SFleb.
  destruct (Prim2SF x), (Prim2SF y), (Prim2SF z); simpl; intros;
    try discriminate; try reflexivity; JSNumFacts.sf_order.
Qed.

(** The reports forwarded from [generateProof], between the 70 before
    them and what follows, are in order. *)
Lemma forwarded_in_order (x p : float) (ps tail : list float) :
  (x <=? mappedProgress p) = true ->
  nonDecreasing (p :: ps) = true ->
  (forall q, In q (p :: ps) -> (0 <=? q) = true /\ (q <=? 100) = true) ->
  tail = [] \/ tail = [100] ->
  nonDecreasing (x :: map mappedProgress (p :: ps) ++ tail) = true.
Proof.
  revert x p. induction ps as [|p' ps IH]; intros x p Hx Hord Hrange Htail.
  - cbn [map app]. destruct Htail as [->| ->]; cbn [nonDecreasing];
      rewrite Hx; [reflexivity|].
    rewrite (proj2 (mappedProgress_range p (proj1 (Hrange p (or_introl eq_refl)))
                      (proj2 (Hrange p (or_introl eq_refl))))).
    reflexivity.
  - change (nonDecreasing (x :: map mappedProgress (p :: p' :: ps) ++ tail))
      with ((x <=? mappedProgress p)
            && nonDecreasing (mappedProgress p
                                :: map mappedProgress (p' :: ps) ++ tail))%bool.
    rewrite Hx. cbn [andb].
    change (nonDecreasing (p :: p' :: ps))
      with ((p <=? p') && nonDecreasing (p' :: ps))%bool in Hord.
    apply andb_true_iff in Hord as [Hpp' Hord].
    apply IH; auto.
    + apply mappedProgress_mono; [|exact Hpp'].
      apply (Hrange p). now left.
    + intros q Hq. apply Hrange. now right.
Qed.

Section Run.

Variable ProofResult : Type.
Variable isValid : ProofResult -> bool.
Variable Nonce : Type.
Variable generateRandomNonce : Nonce.
Variable generateProof :
  ProofInputs.t Nonce -> list (float * string) * (Thrown + ProofResult).
Variable fetch : string -> list (string * string) -> Thrown + Response.t.
Variable Date_now : float.
Variable numberToString : float -> string.
Variable toFixed : float -> nat -> string.
Variable responseData : NubankBankData.t.

Local Abbreviation run :=
  (vlayerGenerateProof ProofResult isValid Nonce generateRandomNonce
     generateProof fetch Date_now numberToString toFixed responseData).

(** The progress of a run never goes back.  When [generateProof] reports
    its progress in order and between 0 and 100, the percents a run hands to
    its progress callback are in order as well (each at most the next, the
    rounding of 70 + 0.3 p included) and all between 0 and 100, however the
    run ends. *)
Theorem progress_never_goes_back (threshold : float)
    (accessToken : option string) :
  (forall inputs p,
     In p (map fst (fst (generateProof inputs))) ->
     (0 <=? p) = true /\ (p <=? 100) = true) ->
  (forall inputs, nonDecreasing (map fst (fst (generateProof inputs))) = true) ->
  let reported := percents (events (run threshold accessToken true)) in
  nonDecreasing reported = true
  /\ (forall p, In p reported -> (0 <=? p) = true /\ (p <=? 100) = true).
Proof.
  intros Hrange Hord reported. unfold reported.
  rewrite VLayerFacts.run_percents.
  assert (Hcheck : forall p, In p (map fst checkpoints) ->
                             (0 <=? p) = true /\ (p <=? 100) = true).
  { intros p Hp. cbn in Hp.
    repeat (destruct Hp as [<-|Hp]; [split; reflexivity|]). destruct Hp. }
  assert (Hprefix : forall k p, In p (map fst (firstn k checkpoints)) ->
                                (0 <=? p) = true /\ (p <=? 100) = true).
  { intros k p Hp. apply Hcheck. rewrite <- firstn_map in Hp.
    eapply VLayerFacts.firstn_incl; eauto. }
  destruct (fetch _ _) as [e|response]; [split; [reflexivity|apply Hprefix]|].
  destruct (NubankBankData.accounts responseData) as [|a l];
    [split; [reflexivity|apply Hprefix]|].
  destruct (balanceInWLD a l <? threshold);
    [split; [reflexivity|apply Hprefix]|].
  set (inputs := VLayer.proofInputs generateRandomNonce threshold a l).
  specialize (Hrange inputs). specialize (Hord inputs).
  set (forwarded := map fst (fst (generateProof inputs))) in *.
  set (tail := match snd (generateProof inputs) with
               | inr proof => if isValid proof then [100] else []
               | inl _ => []
               end).
  assert (Htail : tail = [] \/ tail = [100]).
  { unfold tail. destruct (snd (generateProof inputs)) as [e|proof]; auto.
    destruct (isValid proof); auto. }
  split.
  - change (map fst checkpoints ++ map mappedProgress forwarded ++ tail)%list
      with (0 :: 10 :: 20 :: 30 :: 40 :: 50 :: 60 :: 70 :: 70
              :: map mappedProgress forwarded ++ tail)%list.
    assert (Hlast : nonDecreasing (70 :: map mappedProgress forwarded ++ tail)
                    = true).
    { destruct forwarded as [|p ps].
      - destruct Htail as [->| ->]; reflexivity.
      - apply forwarded_in_order; auto.
        apply mappedProgress_range; apply (Hrange p); now left. }
    revert Hlast.
    generalize (map mappedProgress forwarded ++ tail)%list as rest.
    intros rest Hlast. cbn [nonDecreasing] in *.
    destruct rest; [reflexivity|]. exact Hlast.
  - intros p Hp. apply in_app_iff in Hp as [Hp|Hp]; [now apply Hcheck|].
    apply in_app_iff in Hp as [Hp|Hp].
    + apply in_map_iff in Hp as (q & <- & Hq).
      destruct (Hrange q Hq) as [Hq0 Hq100].
      destruct (mappedProgress_range q Hq0 Hq100) as [Hlo Hhi].
      split; [|exact Hhi].
      eapply leb_trans; [|exact Hlo]. reflexivity.
    + destruct Htail as [Ht|Ht]; rewrite Ht in Hp; [destruct Hp|].
      destruct Hp as [<-|[]]. split; reflexivity.
Qed.

End Run.

(** The sample proof capability reports 0, 50 and 100. *)
Lemma progress_never_goes_back_witness :
  nonDecreasing
    (percents (events (Sample.run Sample.proves mockNubankResponse 100)))
  = true.
Proof.
  refine (proj1 (progress_never_goes_back Sample.Proof Sample.valid string
                   Sample.nonce Sample.proves Sample.fetchOk Sample.now
                   Sample.numberToString Sample.toFixed mockNubankResponse
                   100 None _ _)).
  - intros inputs p Hp. cbn in Hp.
    repeat (destruct Hp as [<-|Hp]; [split; reflexivity|]). destruct Hp.
  - intros inputs. reflexivity.
Defined.

End ProgressFacts.

(* ------------------------------------------------------------------ *)
(** ** The properties at work on samples *)

Module SampleFacts.

Import Exec Groups.
Open Scope string_scope.
Open Scope list_scope.

(** "zk-builders" is its own id. *)
Lemma slug_of_id_witness :
  slug GroupsSample.toLowerCase "zk-builders" = "zk-builders".
Proof.
  apply (SlugFacts.slug_of_id GroupsSample.toLowerCase "zk-builders");
    reflexivity.
Defined.

(** A name of punctuation only gets the empty id. *)
Lemma slug_without_alnum_is_empty_witness :
  slug GroupsSample.toLowerCase "?! ..." = "".
Proof.
  apply (SlugFacts.slug_without_alnum_is_empty GroupsSample.toLowerCase).
  intros c Hc. cbn in Hc.
  repeat (destruct Hc as [<-|Hc]; [reflexivity|]). destruct Hc.
Defined.

(** Joining "ZK Builders" from an empty storage. *)
Lemma addJoinedGroup_joins_once_witness :
  GroupsSample.joined
    (after (GroupsSample.addJoinedGroup GroupsSample.builders GroupsSample.now
              initialWorld))
  = [GroupsSample.joinedBuilders].
Proof.
  assert (Hper : persists GroupsSample.readable GroupsSample.writable
                   GroupsSample.parseGroups GroupsSample.stringifyGroups
                   [GroupsSample.joinedBuilders])
    by (repeat split; try reflexivity; discriminate).
  exact (proj1 (GroupsFacts.addJoinedGroup_joins_once true
                  GroupsSample.readable GroupsSample.writable
                  GroupsSample.parseGroups GroupsSample.stringifyGroups
                  GroupsSample.builders GroupsSample.now GroupsSample.now
                  initialWorld eq_refl Hper)).
Defined.

(** A message sent in the chat of "ZK Builders". *)
Lemma updateGroupLastMessage_changes_first_match_witness :
  GroupsSample.joined
    (after (GroupsSample.updateGroupLastMessage "zk-builders" "gm" "Você"
              GroupsSample.joinedWorld))
  = [Group.withLastMessage "gm" "Você" GroupsSample.joinedBuilders].
Proof.
  assert (Hper : persists GroupsSample.readable GroupsSample.writable
                   GroupsSample.parseGroups GroupsSample.stringifyGroups
                   [Group.withLastMessage "gm" "Você"
                      GroupsSample.joinedBuilders])
    by (repeat split; try reflexivity; discriminate).
  exact (proj1 (GroupsFacts.updateGroupLastMessage_changes_first_match true
                  GroupsSample.readable GroupsSample.writable
                  GroupsSample.parseGroups GroupsSample.stringifyGroups
                  "zk-builders" "gm" "Você" GroupsSample.joinedWorld
                  eq_refl Hper)).
Defined.

(** One unread message, then the chat is opened. *)
Lemma clearUnread_undoes_incrementUnread_witness :
  GroupsSample.joined
    (after (GroupsSample.incrementUnread "zk-builders"
              GroupsSample.joinedWorld))
  = [Group.withUnread 1%float GroupsSample.joinedBuilders]
  /\ after (GroupsSample.clearUnread "zk-builders"
              (after (GroupsSample.incrementUnread "zk-builders"
                        GroupsSample.joinedWorld)))
     = after (GroupsSample.clearUnread "zk-builders" GroupsSample.joinedWorld).
Proof.
  assert (Hinc : persists GroupsSample.readable GroupsSample.writable
                   GroupsSample.parseGroups GroupsSample.stringifyGroups
                   [Group.withUnread 1%float GroupsSample.joinedBuilders])
    by (repeat split; try reflexivity; discriminate).
  assert (Hclear : persists GroupsSample.readable GroupsSample.writable
                     GroupsSample.parseGroups GroupsSample.stringifyGroups
                     [GroupsSample.joinedBuilders])
    by (repeat split; try reflexivity; discriminate).
  pose proof (GroupsFacts.clearUnread_undoes_incrementUnread true
                GroupsSample.readable GroupsSample.writable
                GroupsSample.parseGroups GroupsSample.stringifyGroups
                "zk-builders" GroupsSample.joinedWorld eq_refl Hinc Hclear)
    as (H1 & H2 & _).
  split; [exact H1|exact H2].
Defined.

(** "ZK builders!" has the id of a default group: the name is refused, from
    an empty storage, after the text of the default groups was stored. *)
Lemma createAvailableGroup_refusals_witness :
  GroupsSample.createAvailableGroup "ZK builders!" "" 1%float "" initialWorld
  = (inl (ThrownError "Já existe um grupo com esse nome"),
     mkWorld
       [(AVAILABLE_GROUPS_KEY,
         GroupsSample.stringifyAvailable DEFAULT_AVAILABLE_GROUPS)]
       DEFAULT_AVAILABLE_GROUPS []).
Proof.
  refine (proj1 (proj2 (GroupsFacts.createAvailableGroup_refusals true
                          GroupsSample.readable GroupsSample.writable
                          GroupsSample.parseAvailable
                          GroupsSample.stringifyAvailable
                          GroupsSample.toLowerCase "ZK builders!" "" 1%float ""
                          initialWorld)
                   eq_refl TheDefault _ eq_refl _)).
  left. reflexivity.
Defined.

(** "Builders SP" is created after the two default groups. *)
Lemma createAvailableGroup_appends_witness :
  result (GroupsSample.createAvailableGroup "Builders SP"
            "Grupo criado por você" 2.5%float
            "bg-gradient-to-br from-teal-500 via-emerald-500 to-lime-500"
            initialWorld)
  = inr GroupsSample.created
  /\ result (GroupsSample.getAvailableGroups
               (after (GroupsSample.createAvailableGroup "Builders SP"
                         "Grupo criado por você" 2.5%float
                         "bg-gradient-to-br from-teal-500 via-emerald-500 to-lime-500"
                         initialWorld)))
     = inr (Parsed (DEFAULT_AVAILABLE_GROUPS ++ [GroupsSample.created])).
Proof.
  assert (Hfresh : ~ In "builders-sp" (availableIds DEFAULT_AVAILABLE_GROUPS))
    by (intros [H|[H|[]]]; discriminate).
  assert (Hper : persistsAvailable GroupsSample.readable GroupsSample.writable
                   GroupsSample.parseAvailable GroupsSample.stringifyAvailable
                   (DEFAULT_AVAILABLE_GROUPS ++ [GroupsSample.created]))
    by (repeat split; try reflexivity; discriminate).
  pose proof (GroupsFacts.createAvailableGroup_appends true
                GroupsSample.readable GroupsSample.writable
                GroupsSample.parseAvailable GroupsSample.stringifyAvailable
                GroupsSample.toLowerCase "Builders SP" "Grupo criado por você"
                2.5%float
                "bg-gradient-to-br from-teal-500 via-emerald-500 to-lime-500"
                initialWorld _ TheDefault eq_refl eq_refl Hfresh Hper)
    as (H1 & H2 & _).
  split; [exact H1|]. unfold GroupsSample.getAvailableGroups.
  unfold GroupsSample.createAvailableGroup. now rewrite H2.
Defined.

(** The storage is full: the creation of "Builders SP" fails, and the group
    is in the default array all the same. *)
Lemma createAvailableGroup_refused_write_extends_defaults_witness :
  GroupsSample.createAvailableGroupFull "Builders SP" "Grupo criado por você"
    2.5%float "bg-gradient-to-br from-teal-500 via-emerald-500 to-lime-500"
    initialWorld
  = (inl GroupsSample.quotaExceeded,
     mkWorld [] (DEFAULT_AVAILABLE_GROUPS ++ [GroupsSample.created]) []).
Proof.
  assert (Hfresh : ~ In "builders-sp" (availableIds DEFAULT_AVAILABLE_GROUPS))
    by (intros [H|[H|[]]]; discriminate).
  exact (proj1 (GroupsFacts.createAvailableGroup_refused_write_extends_defaults
                  true GroupsSample.readable GroupsSample.full
                  GroupsSample.parseAvailable GroupsSample.stringifyAvailable
                  GroupsSample.toLowerCase "Builders SP"
                  "Grupo criado por você" 2.5%float
                  "bg-gradient-to-br from-teal-500 via-emerald-500 to-lime-500"
                  GroupsSample.quotaExceeded initialWorld eq_refl
                  (fun _ => eq_refl) eq_refl Hfresh)).
Defined.

(** A message to a peer the listing shows a conversation with. *)
Lemma sendEncryptedMessage_calls_witness :
  Xmtp.calls (XmtpSample.sendEncryptedMessage XmtpSample.peer "gm"
                XmtpSample.connected)
  = [Xmtp.CanMessage XmtpSample.peer; Xmtp.List;
     Xmtp.Send XmtpSample.conversation "gm"].
Proof.
  unfold XmtpSample.sendEncryptedMessage.
  rewrite (XmtpFacts.sendEncryptedMessage_calls unit XmtpSample.canMessage
             XmtpSample.listed XmtpSample.newConversation XmtpSample.send
             Sample.toPrimitiveErrorMessage Sample.numberToString
             Sample.nativeToString XmtpSample.peer "gm" tt
             XmtpSample.connected eq_refl).
  reflexivity.
Defined.

(** The messages of that peer. *)
Lemma receiveMessages_reads_the_listed_conversation_witness :
  Xmtp.answer (XmtpSample.receiveMessages XmtpSample.peer None
                 XmtpSample.connected)
  = inr [Xmtp.XMTPMessage.mk "msg-1" "gm" XmtpSample.peer 1700000001000%float
           "/xmtp/0/m-1/proto"].
Proof.
  unfold XmtpSample.receiveMessages.
  rewrite (XmtpFacts.receiveMessages_reads_the_listed_conversation unit
             XmtpSample.listed XmtpSample.messages
             Sample.toPrimitiveErrorMessage Sample.numberToString
             Sample.nativeToString XmtpSample.peer None tt
             XmtpSample.connected eq_refl).
  reflexivity.
Defined.



End SampleFacts.
